(** * SearchEngine: the B+tree sketch and its page cache

    A shallow embedding of [src/bplustree/bplustree.go] and
    [src/bplustree/cache.go].  Both files are sketches that the Go
    compiler rejects; the reading conventions used to give them a
    meaning are written next to each definition. *)

From stdpp Require Import base numbers list strings gmap.

#[local] Open Scope Z_scope.

(** ** Outcomes of a call

    A Go call either returns, panics (index out of range, nil
    dereference, an explicit [panic]), or loops.  Loops that chase
    pointers are run on fuel; running dry is its own outcome and is
    never confused with a return. *)

Inductive result (A : Type) : Type :=
  | Ok (a : A)
  | Panic (msg : string)
  | OutOfFuel.
Arguments Ok {A} a.
Arguments Panic {A} msg.
Arguments OutOfFuel {A}.

#[global] Instance result_ret : MRet result := fun A a => Ok a.
#[global] Instance result_bind : MBind result := fun A B f m =>
  match m with
  | Ok a => f a
  | Panic s => Panic s
  | OutOfFuel => OutOfFuel
  end.

(** State passing with panics; the state reached so far is kept. *)
Definition M (S A : Type) : Type := S -> S * result A.

#[global] Instance M_ret {S} : MRet (M S) := fun A a s => (s, Ok a).
#[global] Instance M_bind {S} : MBind (M S) := fun A B f m s =>
  match m s with
  | (s', Ok a) => f a s'
  | (s', Panic msg) => (s', Panic msg)
  | (s', OutOfFuel) => (s', OutOfFuel)
  end.

Definition get {S} : M S S := fun s => (s, Ok s).
Definition put {S} (s : S) : M S unit := fun _ => (s, Ok tt).
Definition modify {S} (f : S -> S) : M S unit := fun s => (f s, Ok tt).
Definition panic {S A} (msg : string) : M S A := fun s => (s, Panic msg).
Definition out_of_fuel {S A} : M S A := fun s => (s, OutOfFuel).
Definition lift {S A} (r : result A) : M S A := fun s => (s, r).

(** Dereference of a Go pointer that may be nil. *)
Definition deref {A} (p : option A) : result A :=
  match p with
  | Some a => Ok a
  | None => Panic "nil pointer dereference"
  end.

(** ** bplustree.go *)
Module BPlusTree.

Definition LEAFPAGE : Z := 0.
Definition INTERPAGE : Z := 1.

(** [Cell]: a key with a page number (interior) or a payload offset (leaf). *)
Record Cell : Type := { ptr : Z; key : Z }.

(** [PageHeader].  The fields are unsigned Go integers of 8, 16 and 32
    bits; the functions below compare them and add none of them, so they
    are kept as integers without a wrap-around. *)
Record PageHeader : Type := {
  flag : Z;
  freeOffset : Z;
  nCell : Z;
  pgno : Z;
  nFree : Z;
  parent : Z
}.

(** [MemPage]: [ph] is a pointer and is nil in [&MemPage{}]; [cell] is the
    cell index area, read as an array [p.cell[i]].  The array may be longer
    than [nCell] (slots past the count hold whatever was left there). *)
Record MemPage : Type := { ph : option PageHeader; cell : list Cell }.

(** [Payload]: the [entrys] pointer is opaque to every function modelled. *)
Record Payload : Type := { pkey : Z; size : Z }.

(** Go's conversion to [uint16], and [uint16] arithmetic: modulo 2^16. *)
Definition uint16 (z : Z) : Z := z mod 65536.

(** [data interface{}] of [insert] and [full]: a [*Cell] or a [*PlayLoad]. *)
Inductive Data : Type :=
  | DCell (c : Cell)
  | DPayload (pl : Payload).

(** [BPlusTree]: the root page (written [bptree.page] in [Insert] and
    [bptree.pPage] in [Search]) and the map from page number to page. *)
Record BPlusTree : Type := { page : option MemPage; hm : gmap Z MemPage }.

(** What the sketch calls but never declares: [newpage()], the free
    variable [key] of [insert] (left over from the commented-out [split]),
    [size(Cell)], and [pl.size] in the [*Cell] case of [full] where no
    [pl] is in scope. *)
Class Sketch : Type := {
  newpage : MemPage;
  split_key : MemPage -> Z;
  size_Cell : Z;
  cell_pl_size : Z
}.

(** [p.cell[i]]: an indexed read, logged; outside the array it panics. *)
Definition cell_at (p : MemPage) (i : Z) : M (list Z) Cell := fun log =>
  (log ++ [i],
   if i <? 0 then Panic "index out of range"
   else match cell p !! Z.to_nat i with
        | Some c => Ok c
        | None => Panic "index out of range"
        end).

(** Go's [sort.Search(n, f)]:
    [i, j := 0, n; for i < j { h := int(uint(i+j) >> 1); if !f(h) { i = h + 1 } else { j = h } }; return i]. *)
Fixpoint sort_Search_loop {S} (fuel : nat) (f : Z -> M S bool) (i j : Z) : M S Z :=
  if i <? j then
    match fuel with
    | O => out_of_fuel
    | S fuel' =>
        let h := Z.shiftr (i + j) 1 in
        b ← f h;
        if negb b then sort_Search_loop fuel' f (h + 1) j
        else sort_Search_loop fuel' f i h
    end
  else mret i.

Definition sort_Search {S} (n : Z) (f : Z -> M S bool) : M S Z :=
  sort_Search_loop (Z.to_nat n) f 0 n.

(** [func (p *MemPage) find(key int) (int, bool)] and its closure [cmp];
    the [nil] it returns in the int position is [None].  Each [p.cell[i]]
    in the source is one logged read. *)
Definition cmp (p : MemPage) (k : Z) (i : Z) : M (list Z) bool :=
  c ← cell_at p i; mret (key c >=? k).

Definition find (p : MemPage) (k : Z) : M (list Z) (option Z * bool) :=
  h ← lift (deref (ph p));
  i ← sort_Search (nCell h) (cmp p k);
  if flag h =? INTERPAGE then
    c ← cell_at p i; mret (Some (ptr c), true)
  else if i <=? nCell h then
    c ← cell_at p i;
    if key c =? k then c' ← cell_at p i; mret (Some (ptr c'), true)
    else mret (None, false)
  else mret (None, false).

(** The value a traced computation returns, and the indices it read. *)
Definition returned {A} (m : M (list Z) A) : result A := snd (m []).
Definition reads {A} (m : M (list Z) A) : list Z := fst (m []).

(** [func (bptree *BPlusTree) Search(key int) (uint16, *MemPage)].  The
    interior case calls [find(key)] without a receiver; it is read as
    [curr.find(key)].  A page number missing from [hm] yields nil.  The
    offset goes out through the declared result type, [uint16]: the
    [ptr] that [find] hands back is cut to 16 bits. *)
Fixpoint Search_loop (fuel : nat) (t : BPlusTree) (curr : option MemPage) (k : Z)
  : result (option Z * MemPage) :=
  match fuel with
  | O => OutOfFuel
  | S fuel' =>
      c ← deref curr;
      h ← deref (ph c);
      if flag h =? LEAFPAGE then
        '(offset, ok) ← returned (find c k);
        if negb ok then mret (None, c) else mret (uint16 <$> offset, c)
      else if flag h =? INTERPAGE then
        '(pgno, _) ← returned (find c k);
        Search_loop fuel' t (pgno ≫= (hm t !!.)) k
      else Panic "no such flag!"
  end.

Definition Search (fuel : nat) (t : BPlusTree) (k : Z) : result (option Z * MemPage) :=
  Search_loop fuel t (page t) k.

(** [func (p *MemPage) parent() uint32 { return p.ph.pgno }]. *)
Definition parent_of (p : MemPage) : result Z :=
  h ← deref (ph p); mret (pgno h).

(** [func (p *MemPage) setparent(uint32 pgno) { p.ph.parent = pgno }]: a
    write through the header pointer; the page is handed back with the
    header it now has. *)
Definition setparent (n : Z) (p : MemPage) : result MemPage :=
  h ← deref (ph p);
  mret {| ph := Some {| flag := flag h; freeOffset := freeOffset h; nCell := nCell h;
                        pgno := pgno h; nFree := nFree h; parent := n |};
          cell := cell p |}.

(** A page, and a tree, with the [parent] field of every header blanked:
    two pages, or two trees, with the same image differ in [parent]
    fields only. *)
Definition forget_parent (p : MemPage) : MemPage :=
  {| ph := (fun h => {| flag := flag h; freeOffset := freeOffset h; nCell := nCell h;
                        pgno := pgno h; nFree := nFree h; parent := 0 |}) <$> ph p;
     cell := cell p |}.

Definition forget_parents (t : BPlusTree) : BPlusTree :=
  {| page := forget_parent <$> page t; hm := forget_parent <$> hm t |}.

(** Two outcomes of the same kind, with [R] between what they return. *)
Definition result_rel {A} (R : A -> A -> Prop) (r r' : result A) : Prop :=
  match r, r' with
  | Ok a, Ok a' => R a a'
  | Panic m, Panic m' => m = m'
  | OutOfFuel, OutOfFuel => True
  | _, _ => False
  end.

(** Two runs with the same outcome that leave trees differing in [parent]
    fields only. *)
Definition agree (x x' : BPlusTree * result unit) : Prop :=
  x'.2 = x.2 /\ forget_parents x'.1 = forget_parents x.1.

(** [func (p *MemPage) full(data interface{}) bool]: true when the free
    byte count exceeds the bytes asked for.  [pl.size] is a [uint16], so
    the sum [pl.size + size(Cell)] is a [uint16] sum and wraps at 2^16. *)
Definition full `{Sketch} (p : MemPage) (data : Data) : result bool :=
  h ← deref (ph p);
  match data with
  | DCell _ =>
      if flag h =? INTERPAGE then mret (nFree h >? uint16 (cell_pl_size + size_Cell))
      else Panic "full error"
  | DPayload pl =>
      if flag h =? LEAFPAGE then mret (nFree h >? uint16 (size pl + size_Cell))
      else Panic "full error"
  end.

(** [func (p *MemPage) insert(data interface{}) (bool, uint32, *MemPage)].
    The body tests [full] and allocates; it stores nothing in the page. *)
Definition insert `{Sketch} (data : Data) (p : option MemPage)
  : result (bool * option Z * option MemPage) :=
  p ← deref p;
  ok ← full p data;
  if negb ok then mret (true, None, None)
  else mret (false, Some (split_key p), Some newpage).

(** [&Cell{key: key, ptr: pg.ph.phno}]; [phno] is read as [pgno], and a
    nil [key] as the zero value. *)
Definition mkCell (k : option Z) (pg : option MemPage) : result Data :=
  pg ← deref pg;
  h ← deref (ph pg);
  mret (DCell {| ptr := pgno h; key := default 0 k |}).

(** The propagation loop of [Insert] (lines 117-135). *)
Fixpoint Insert_loop `{Sketch} (fuel : nat) (k : option Z)
    (newpg ppg : option MemPage) : M BPlusTree unit :=
  match fuel with
  | O => out_of_fuel
  | S fuel' =>
      c ← lift (mkCell k newpg);
      '(ok, k, newpg) ← lift (insert c ppg);
      if (ok : bool) then mret tt
      else
        bptree ← get;
        pp ← lift (deref ppg);
        hp ← lift (deref (ph pp));
        root ← lift (deref (page bptree));
        hr ← lift (deref (ph root));
        if pgno hp =? pgno hr then
          let rootpage := {| ph := None; cell := [] |} in
          _ ← put {| page := Some rootpage; hm := hm bptree |};
          c1 ← lift (mkCell k newpg);
          _ ← lift (insert c1 (Some rootpage));
          c2 ← lift (mkCell k ppg);
          _ ← lift (insert c2 (Some rootpage));
          mret tt
        else
          n ← lift (parent_of pp);
          Insert_loop fuel' k newpg (hm bptree !! n)
  end.

(** [func (bptree *BPlusTree) Insert(pl *PlayLoad)].  [offset != nil]
    tests for a found key; [ok != nil] is read as [ok]. *)
Definition Insert `{Sketch} (fuel : nat) (pl : Payload) : M BPlusTree unit :=
  bptree ← get;
  '(offset, pg) ← lift (Search fuel bptree (pkey pl));
  if bool_decide (offset ≠ None) then mret tt
  else
    '(ok, k, newpg) ← lift (insert (DPayload pl) (Some pg));
    if (ok : bool) then mret tt
    else
      n ← lift (parent_of pg);
      Insert_loop fuel k newpg (hm bptree !! n).

(** *** Page and tree shapes the statements speak about *)

(** Keys in ascending order (equal neighbours allowed). *)
Fixpoint ascending (ks : list Z) : bool :=
  match ks with
  | [] => true
  | a :: rest =>
      match rest with
      | [] => true
      | b :: _ => (a <=? b) && ascending rest
      end
  end.

(** The first [n] slots of the cell array exist and are in key order. *)
Definition sorted_page (p : MemPage) (n : Z) : Prop :=
  0 <= n <= Z.of_nat (length (cell p))
  /\ ascending (key <$> take (Z.to_nat n) (cell p)) = true.

(** The interior descent rule in the specification's words: the first
    cell whose key is strictly greater than the key searched, else the
    rightmost child. *)
Definition spec_descend (cells : list Cell) (rightmost : Z) (k : Z) : Z :=
  match List.find (fun c => k <? key c) cells with
  | Some c => ptr c
  | None => rightmost
  end.

(** [holds t d p k]: key [k] sits in a counted cell of a leaf that lies
    [d] child links below page [p]. *)
Fixpoint holds (t : BPlusTree) (d : nat) (p : MemPage) (k : Z) : Prop :=
  exists (h : PageHeader) (i : Z) (c : Cell),
    ph p = Some h /\ 0 <= i < nCell h /\ cell p !! Z.to_nat i = Some c
    /\ match d with
       | O => flag h = LEAFPAGE /\ key c = k
       | S d' =>
           flag h = INTERPAGE
           /\ exists child, hm t !! ptr c = Some child /\ holds t d' child k
       end.

(** [ordered t d p]: the subtree of height [d] at [p] obeys the key order
    that [find] navigates by: pages are sorted, every counted interior
    cell names a page of [hm], and the keys below cell [i] are at most
    its key and above the key of cell [i-1]. *)
Fixpoint ordered (t : BPlusTree) (d : nat) (p : MemPage) : Prop :=
  exists (h : PageHeader),
    ph p = Some h /\ sorted_page p (nCell h)
    /\ match d with
       | O => flag h = LEAFPAGE
       | S d' =>
           flag h = INTERPAGE
           /\ forall (i : Z) (c : Cell),
               0 <= i < nCell h -> cell p !! Z.to_nat i = Some c ->
               exists child,
                 hm t !! ptr c = Some child /\ ordered t d' child
                 /\ forall k, holds t d' child k ->
                      k <= key c
                      /\ forall c', 0 < i -> cell p !! Z.to_nat (i - 1) = Some c' ->
                           key c' < k
       end.

(** A tree of height [d]: the root pointer names an ordered page. *)
Definition ordered_tree (t : BPlusTree) (d : nat) : Prop :=
  exists root, page t = Some root /\ ordered t d root.

Definition tree_holds (t : BPlusTree) (d : nat) (k : Z) : Prop :=
  exists root, page t = Some root /\ holds t d root k.

End BPlusTree.

(** ** cache.go *)
Module PCache.

(** Allowed values for the second argument of [ManageDirtyList]. *)
Definition PCACHE_DIRTYLIST_REMOVE : Z := 1.
Definition PCACHE_DIRTYLIST_ADD : Z := 2.
Definition PCACHE_DIRTYLIST_FRONT : Z := 3.

(** The [PGHDR_*] flag masks are used by [MakeDirty] and [MakeClean] but
    declared nowhere in the sketch. *)
Class Undeclared : Type := {
  PGHDR_CLEAN : Z;
  PGHDR_DIRTY : Z;
  PGHDR_NEED_SYNC : Z;
  PGHDR_WRITEABLE : Z
}.

(** A [*PgHdr]: nil, or the index of an entry in the cache's arena. *)
Definition pgptr : Type := option nat.

(** [PgHdr], with the fields the functions below touch.  [pNext], [flags]
    and [isPinned] are used as fields of a page throughout [cache.go]
    although the struct does not list them. *)
Record PgHdr : Type := {
  iKey : Z;
  flags : Z;
  pNext : pgptr;
  pDirtyNext : pgptr;
  pDirtyPrev : pgptr;
  pLruNext : pgptr;
  pLruPrev : pgptr;
  isPinned : Z
}.

Definition set_iKey (v : Z) (h : PgHdr) : PgHdr :=
  {| iKey := v; flags := flags h; pNext := pNext h; pDirtyNext := pDirtyNext h;
     pDirtyPrev := pDirtyPrev h; pLruNext := pLruNext h; pLruPrev := pLruPrev h;
     isPinned := isPinned h |}.
Definition set_flags (v : Z) (h : PgHdr) : PgHdr :=
  {| iKey := iKey h; flags := v; pNext := pNext h; pDirtyNext := pDirtyNext h;
     pDirtyPrev := pDirtyPrev h; pLruNext := pLruNext h; pLruPrev := pLruPrev h;
     isPinned := isPinned h |}.
Definition set_pNext (v : pgptr) (h : PgHdr) : PgHdr :=
  {| iKey := iKey h; flags := flags h; pNext := v; pDirtyNext := pDirtyNext h;
     pDirtyPrev := pDirtyPrev h; pLruNext := pLruNext h; pLruPrev := pLruPrev h;
     isPinned := isPinned h |}.
Definition set_pDirtyNext (v : pgptr) (h : PgHdr) : PgHdr :=
  {| iKey := iKey h; flags := flags h; pNext := pNext h; pDirtyNext := v;
     pDirtyPrev := pDirtyPrev h; pLruNext := pLruNext h; pLruPrev := pLruPrev h;
     isPinned := isPinned h |}.
Definition set_pDirtyPrev (v : pgptr) (h : PgHdr) : PgHdr :=
  {| iKey := iKey h; flags := flags h; pNext := pNext h; pDirtyNext := pDirtyNext h;
     pDirtyPrev := v; pLruNext := pLruNext h; pLruPrev := pLruPrev h;
     isPinned := isPinned h |}.
Definition set_pLruNext (v : pgptr) (h : PgHdr) : PgHdr :=
  {| iKey := iKey h; flags := flags h; pNext := pNext h; pDirtyNext := pDirtyNext h;
     pDirtyPrev := pDirtyPrev h; pLruNext := v; pLruPrev := pLruPrev h;
     isPinned := isPinned h |}.
Definition set_pLruPrev (v : pgptr) (h : PgHdr) : PgHdr :=
  {| iKey := iKey h; flags := flags h; pNext := pNext h; pDirtyNext := pDirtyNext h;
     pDirtyPrev := pDirtyPrev h; pLruNext := pLruNext h; pLruPrev := v;
     isPinned := isPinned h |}.
Definition set_isPinned (v : Z) (h : PgHdr) : PgHdr :=
  {| iKey := iKey h; flags := flags h; pNext := pNext h; pDirtyNext := pDirtyNext h;
     pDirtyPrev := pDirtyPrev h; pLruNext := pLruNext h; pLruPrev := pLruPrev h;
     isPinned := v |}.

(** [PCache], with [pFree], [pDirty], [pDirtyTail] and [iMaxKey], which the
    functions use as its fields; [lru_pLruPrev] stands for the undeclared
    [pGroup.lru.pLruPrev]; [mem] is the arena the page pointers index.
    Go's [int] counters are unbounded integers here: they count entries
    held in memory. *)
Record PCache : Type := {
  nMax : Z;
  nPage : Z;
  nHash : Z;
  apHash : list pgptr;
  pFree : pgptr;
  pDirty : pgptr;
  pDirtyTail : pgptr;
  iMaxKey : Z;
  lru_pLruPrev : pgptr;
  mem : list PgHdr
}.

Definition set_nPage (v : Z) (c : PCache) : PCache :=
  {| nMax := nMax c; nPage := v; nHash := nHash c; apHash := apHash c;
     pFree := pFree c; pDirty := pDirty c; pDirtyTail := pDirtyTail c;
     iMaxKey := iMaxKey c; lru_pLruPrev := lru_pLruPrev c; mem := mem c |}.
Definition set_nHash (v : Z) (c : PCache) : PCache :=
  {| nMax := nMax c; nPage := nPage c; nHash := v; apHash := apHash c;
     pFree := pFree c; pDirty := pDirty c; pDirtyTail := pDirtyTail c;
     iMaxKey := iMaxKey c; lru_pLruPrev := lru_pLruPrev c; mem := mem c |}.
Definition set_apHash (v : list pgptr) (c : PCache) : PCache :=
  {| nMax := nMax c; nPage := nPage c; nHash := nHash c; apHash := v;
     pFree := pFree c; pDirty := pDirty c; pDirtyTail := pDirtyTail c;
     iMaxKey := iMaxKey c; lru_pLruPrev := lru_pLruPrev c; mem := mem c |}.
Definition set_pFree (v : pgptr) (c : PCache) : PCache :=
  {| nMax := nMax c; nPage := nPage c; nHash := nHash c; apHash := apHash c;
     pFree := v; pDirty := pDirty c; pDirtyTail := pDirtyTail c;
     iMaxKey := iMaxKey c; lru_pLruPrev := lru_pLruPrev c; mem := mem c |}.
Definition set_pDirty (v : pgptr) (c : PCache) : PCache :=
  {| nMax := nMax c; nPage := nPage c; nHash := nHash c; apHash := apHash c;
     pFree := pFree c; pDirty := v; pDirtyTail := pDirtyTail c;
     iMaxKey := iMaxKey c; lru_pLruPrev := lru_pLruPrev c; mem := mem c |}.
Definition set_pDirtyTail (v : pgptr) (c : PCache) : PCache :=
  {| nMax := nMax c; nPage := nPage c; nHash := nHash c; apHash := apHash c;
     pFree := pFree c; pDirty := pDirty c; pDirtyTail := v;
     iMaxKey := iMaxKey c; lru_pLruPrev := lru_pLruPrev c; mem := mem c |}.
Definition set_iMaxKey (v : Z) (c : PCache) : PCache :=
  {| nMax := nMax c; nPage := nPage c; nHash := nHash c; apHash := apHash c;
     pFree := pFree c; pDirty := pDirty c; pDirtyTail := pDirtyTail c;
     iMaxKey := v; lru_pLruPrev := lru_pLruPrev c; mem := mem c |}.
Definition set_mem (v : list PgHdr) (c : PCache) : PCache :=
  {| nMax := nMax c; nPage := nPage c; nHash := nHash c; apHash := apHash c;
     pFree := pFree c; pDirty := pDirty c; pDirtyTail := pDirtyTail c;
     iMaxKey := iMaxKey c; lru_pLruPrev := lru_pLruPrev c; mem := v |}.

(** Reading and writing through a page pointer: [p.f] and [p.f = v]. *)
Definition load (p : pgptr) : M PCache PgHdr := fun c =>
  (c, match p with
      | None => Panic "nil pointer dereference"
      | Some a =>
          match mem c !! a with
          | Some h => Ok h
          | None => Panic "invalid pointer"
          end
      end).

Definition store (p : pgptr) (f : PgHdr -> PgHdr) : M PCache unit :=
  h ← load p;
  match p with
  | Some a => modify (fun c => set_mem (<[a := f h]> (mem c)) c)
  | None => panic "nil pointer dereference"
  end.

(** Go's [a % b] on [int]: truncated remainder, panic on a zero divisor. *)
Definition go_rem {S} (a b : Z) : M S Z :=
  if b =? 0 then panic "integer divide by zero" else mret (Z.rem a b).

(** [a[i]] and [a[i] = v] on a slice of page pointers. *)
Definition index (a : list pgptr) (i : Z) : result pgptr :=
  if i <? 0 then Panic "index out of range"
  else match a !! Z.to_nat i with
       | Some p => Ok p
       | None => Panic "index out of range"
       end.

Definition index_set (a : list pgptr) (i : Z) (v : pgptr) : result (list pgptr) :=
  _ ← index a i; mret (<[Z.to_nat i := v]> a).

(** Step 1 of [FetchPage]: walk the bucket until the key or nil.
    [for pPage && pPage.iKey!=iKey { pPage = pPage.pNext }]. *)
Fixpoint hash_walk (fuel : nat) (pPage : pgptr) (k : Z) : M PCache pgptr :=
  match pPage with
  | None => mret None
  | Some _ =>
      h ← load pPage;
      if negb (iKey h =? k) then
        match fuel with
        | O => out_of_fuel
        | S fuel' => hash_walk fuel' (pNext h) k
        end
      else mret pPage
  end.

Definition hash_find (fuel : nat) (k : Z) : M PCache pgptr :=
  c ← get;
  h ← go_rem k (nHash c);
  pPage ← lift (index (apHash c) h);
  hash_walk fuel pPage k.

(** [func (pCache *PCache) FreePage(p *PgHdr)]. *)
Definition FreePage (p : pgptr) : M PCache unit :=
  c ← get;
  _ ← store p (set_pNext (pFree c));
  modify (set_pFree p).

(** [func (pCache *PCache) AllocPage() *PgHdr]: pop the free list, else
    a fresh arena entry stands for the [C.malloc] block. *)
Definition AllocPage (fresh : PgHdr) : M PCache pgptr :=
  c ← get;
  match pFree c with
  | Some _ =>
      let page := pFree c in
      h ← load page;
      _ ← modify (set_pFree (pNext h));
      _ ← store page (set_pNext None);
      mret page
  | None =>
      _ ← modify (set_mem (mem c ++ [fresh]));
      mret (Some (length (mem c)))
  end.

(** The inner loop of [ResizeHash] over one old chain. *)
Fixpoint rehash_chain (fuel : nat) (nNew : Z) (apNew : list pgptr) (pCurPg : pgptr)
  : M PCache (list pgptr) :=
  match pCurPg with
  | None => mret apNew
  | Some _ =>
      match fuel with
      | O => out_of_fuel
      | S fuel' =>
          cur ← load pCurPg;
          h ← go_rem (iKey cur) nNew;
          pNewPg ← lift (index apNew h);
          apNew ← lift (index_set apNew h pCurPg);
          let pCurPg' := pNext cur in
          moved ← lift (index apNew h);
          _ ← store moved (set_pNext pNewPg);
          rehash_chain fuel' nNew apNew pCurPg'
      end
  end.

(** The outer loop of [ResizeHash]: [for i:=0; i<pCache.nHash; i++]. *)
Fixpoint rehash_buckets (fuel : nat) (n : nat) (i : Z) (nNew : Z) (apNew : list pgptr)
  : M PCache (list pgptr) :=
  match n with
  | O => mret apNew
  | S n' =>
      c ← get;
      pCurPg ← lift (index (apHash c) i);
      apNew ← rehash_chain fuel nNew apNew pCurPg;
      rehash_buckets fuel n' (i + 1) nNew apNew
  end.

(** [func (pCache *PCache) ResizeHash()]. *)
Definition ResizeHash (fuel : nat) : M PCache unit :=
  c ← get;
  let nNew := nHash c * 2 in
  let nNew := if nNew <? 256 then 256 else nNew in
  let apNew := replicate (Z.to_nat nNew) (None : pgptr) in
  apNew ← rehash_buckets fuel (Z.to_nat (nHash c)) 0 nNew apNew;
  _ ← modify (set_apHash apNew);
  modify (set_nHash nNew).

(** A [**PgHdr]: the address of a bucket slot or of a page's [pNext]. *)
Inductive slot : Type :=
  | Bucket (h : Z)
  | NextOf (p : pgptr).

Definition slot_get (l : slot) : M PCache pgptr :=
  match l with
  | Bucket h => c ← get; lift (index (apHash c) h)
  | NextOf p => h ← load p; mret (pNext h)
  end.

Definition slot_set (l : slot) (v : pgptr) : M PCache unit :=
  match l with
  | Bucket h =>
      c ← get;
      a ← lift (index_set (apHash c) h v);
      modify (set_apHash a)
  | NextOf p => store p (set_pNext v)
  end.

(** The walk of [RemoveFromHash]: from the bucket slot, follow the
    address of each [pNext] until the slot holds [pPage]. *)
Fixpoint unlink_walk (fuel : nat) (p : slot) (pPage : pgptr) : M PCache slot :=
  q ← slot_get p;
  if bool_decide (q ≠ pPage) then
    match fuel with
    | O => out_of_fuel
    | S fuel' =>
        _ ← load q;
        unlink_walk fuel' (NextOf q) pPage
    end
  else mret p.

(** [func (pCache *PCache) RemoveFromHash(pPage *PgHdr)].  The address [p]
    is never nil, so the early return is dead. *)
Definition RemoveFromHash (fuel : nat) (pPage : pgptr) : M PCache unit :=
  pg ← load pPage;
  c ← get;
  h ← go_rem (iKey pg) (nHash c);
  _ ← lift (index (apHash c) h);
  p ← unlink_walk fuel (Bucket h) pPage;
  q ← slot_get p;
  qh ← load q;
  _ ← slot_set p (pNext qh);
  _ ← modify (fun c => set_nPage (nPage c - 1) c);
  FreePage pPage.

(** [func (pCache *PCache) FetchPage(iKey int) *PgHdr], in the order of
    its numbered comments; [fresh] is what a block from [C.malloc] holds.

    Steps 4 and 5, entered with [pPage] nil: recycle the LRU tail when
    [nPage+1 >= nMax], else allocate. *)
Definition FetchPage_obtain (fuel : nat) (fresh : PgHdr) : M PCache pgptr :=
  c ← get;
  pPage ← (if nPage c + 1 >=? nMax c then
             let pPage := lru_pLruPrev c in
             _ ← RemoveFromHash fuel pPage;
             mret pPage
           else mret None);
  if bool_decide (pPage = None) then AllocPage fresh else mret pPage.

(** The closing block [if pPage != nil { ... }; return pPage]. *)
Definition FetchPage_install (k : Z) (pPage : pgptr) : M PCache pgptr :=
  if bool_decide (pPage ≠ None) then
    c ← get;
    h ← go_rem k (nHash c);
    _ ← modify (fun c => set_nPage (nPage c + 1) c);
    _ ← store pPage (set_iKey k);
    c ← get;
    head ← lift (index (apHash c) h);
    _ ← store pPage (set_pNext head);
    _ ← store pPage (set_pLruPrev None);
    _ ← store pPage (set_pLruNext None);
    _ ← store pPage (set_isPinned 1);
    c ← get;
    a ← lift (index_set (apHash c) h pPage);
    _ ← modify (set_apHash a);
    c ← get;
    _ ← (if k >? iMaxKey c then modify (set_iMaxKey k) else mret tt);
    mret pPage
  else mret pPage.

Definition FetchPage (fuel : nat) (fresh : PgHdr) (k : Z) : M PCache pgptr :=
  pPage ← hash_find fuel k;
  if bool_decide (pPage ≠ None) then mret pPage
  else
    c ← get;
    _ ← (if nPage c >=? nHash c then ResizeHash fuel else mret tt);
    pPage ← FetchPage_obtain fuel fresh;
    FetchPage_install k pPage.

(** [func (pCache *PCache) ManageDirtyList(pPage *PgHdr, addRemove uint8)];
    [p.pDirty] in the ADD half is the cache's [pDirty]. *)
Definition ManageDirtyList (pPage : pgptr) (addRemove : Z) : M PCache unit :=
  _ ← (if bool_decide (Z.land addRemove PCACHE_DIRTYLIST_REMOVE ≠ 0) then
         pg ← load pPage;
         _ ← (if bool_decide (pDirtyNext pg ≠ None)
              then store (pDirtyNext pg) (set_pDirtyPrev (pDirtyPrev pg))
              else modify (set_pDirtyTail (pDirtyPrev pg)));
         _ ← (if bool_decide (pDirtyPrev pg ≠ None)
              then store (pDirtyPrev pg) (set_pDirtyNext (pDirtyNext pg))
              else modify (set_pDirty (pDirtyNext pg)));
         _ ← store pPage (set_pDirtyNext None);
         store pPage (set_pDirtyPrev None)
       else mret tt);
  if bool_decide (Z.land addRemove PCACHE_DIRTYLIST_ADD ≠ 0) then
    c ← get;
    _ ← store pPage (set_pDirtyNext (pDirty c));
    pg ← load pPage;
    _ ← (if bool_decide (pDirtyNext pg ≠ None)
         then store (pDirtyNext pg) (set_pDirtyPrev pPage)
         else modify (set_pDirtyTail pPage));
    modify (set_pDirty pPage)
  else mret tt.

(** [func (pCache *PCache) MakeDirty(p *PgHdr)]. *)
Definition MakeDirty `{Undeclared} (p : pgptr) : M PCache unit :=
  pg ← load p;
  if bool_decide (Z.land (flags pg) PGHDR_CLEAN ≠ 0) then
    _ ← store p (fun pg => set_flags (Z.lxor (flags pg) (Z.lor PGHDR_DIRTY PGHDR_CLEAN)) pg);
    ManageDirtyList p PCACHE_DIRTYLIST_ADD
  else mret tt.

(** [func (pCache *PCache) MakeClean(page *PgHdr)]. *)
Definition MakeClean `{Undeclared} (page : pgptr) : M PCache unit :=
  pg ← load page;
  if bool_decide (Z.land (flags pg) PGHDR_DIRTY ≠ 0) then
    _ ← ManageDirtyList page PCACHE_DIRTYLIST_REMOVE;
    _ ← store page (fun pg => set_flags
           (Z.land (flags pg)
              (Z.lnot (Z.lor (Z.lor PGHDR_DIRTY PGHDR_NEED_SYNC) PGHDR_WRITEABLE))) pg);
    store page (fun pg => set_flags (Z.lor (flags pg) PGHDR_CLEAN) pg)
  else mret tt.

(** [func (pCache *PCache) MakeCleanAll()]. *)
Fixpoint MakeCleanAll `{Undeclared} (fuel : nat) : M PCache unit :=
  c ← get;
  if bool_decide (pDirty c ≠ None) then
    match fuel with
    | O => out_of_fuel
    | S fuel' =>
        let p := pDirty c in
        _ ← MakeClean p;
        MakeCleanAll fuel'
    end
  else mret tt.

(** *** Shapes the statements speak about *)

(** What is asked of the undeclared masks: CLEAN is one bit, DIRTY has a
    bit and shares none with CLEAN. *)
Class FlagsOk `{Undeclared} : Prop := {
  clean_one_bit : exists n, 0 <= n /\ PGHDR_CLEAN = 2 ^ n;
  clean_dirty_disjoint : Z.land PGHDR_CLEAN PGHDR_DIRTY = 0;
  dirty_nonzero : PGHDR_DIRTY <> 0
}.

(** The tests [MakeClean] and [MakeDirty] make on an entry's flags. *)
Definition is_dirty `{Undeclared} (h : PgHdr) : Prop := Z.land (flags h) PGHDR_DIRTY <> 0.
Definition is_clean `{Undeclared} (h : PgHdr) : Prop := Z.land (flags h) PGHDR_CLEAN <> 0.

(** [L] is the dirty list: what one meets from [pDirty] along
    [pDirtyNext], with [pDirtyPrev] pointing back and [pDirtyTail] at the
    last entry. *)
Definition dirty_links (c : PCache) (L : list nat) : Prop :=
  pDirty c = L !! 0%nat
  /\ pDirtyTail c = last L
  /\ forall (i : nat) (a : nat),
       L !! i = Some a ->
       exists h, mem c !! a = Some h
                 /\ pDirtyNext h = L !! S i
                 /\ pDirtyPrev h = match i with O => None | S j => L !! j end.

(** The dirty-list invariant at rest: an entry is on the list exactly
    when its DIRTY flag is set.  It is carried by three facts about the
    same state: the list is a well-linked list without repetition, no
    entry is flagged both CLEAN and DIRTY, and an entry off the list has
    no [pDirtyPrev]. *)
Record DirtyInv `{Undeclared} (c : PCache) (L : list nat) : Prop := {
  dirty_nodup : NoDup L;
  dirty_linked : dirty_links c L;
  dirty_iff_flag : forall a h, mem c !! a = Some h -> (a ∈ L <-> is_dirty h);
  dirty_not_clean : forall a h, mem c !! a = Some h -> is_clean h -> ~ is_dirty h;
  dirty_off_list : forall a h, mem c !! a = Some h -> a ∉ L -> pDirtyPrev h = None
}.

(** [chain c p l]: following [pNext] from [p] meets the entries [l] and
    then nil. *)
Fixpoint chain (c : PCache) (p : pgptr) (l : list nat) : Prop :=
  match l with
  | [] => p = None
  | a :: l' => p = Some a /\ exists h, mem c !! a = Some h /\ chain c (pNext h) l'
  end.

Definition key_of (c : PCache) (a : nat) : option Z := iKey <$> mem c !! a.

(** [ap], a table of [n] slots, holds the buckets [B]: slot [i] heads the
    chain [B !! i], no entry is chained twice, and every entry sits in
    the bucket of its key. *)
Record TableInv (c : PCache) (ap : list pgptr) (n : Z) (B : list (list nat)) : Prop := {
  tab_size : 0 <= n /\ length ap = Z.to_nat n /\ length B = Z.to_nat n;
  tab_chains : forall i l, B !! i = Some l -> exists p, ap !! i = Some p /\ chain c p l;
  tab_nodup : NoDup (concat B);
  tab_bucket : forall i l a, B !! i = Some l -> a ∈ l ->
               exists h, mem c !! a = Some h /\ 0 <= iKey h
                         /\ Z.rem (iKey h) n = Z.of_nat i
}.

(** The hash table at rest: [apHash] holds the buckets [B] and no two
    resident entries share a key. *)
Record HashInv (c : PCache) (B : list (list nat)) : Prop := {
  hash_table : TableInv c (apHash c) (nHash c) B;
  hash_keys : forall a b, a ∈ concat B -> b ∈ concat B ->
              key_of c a = key_of c b -> a = b
}.

(** An entry, its [pNext] left out of the comparison. *)
Definition but_next (h : PgHdr) : PgHdr := set_pNext None h.

(** The fields of the cache that the hash-table code never writes when
    it only rehashes: all but [apHash], [nHash] and the arena. *)
Definition rest_of (c : PCache) : Z * Z * pgptr * pgptr * pgptr * Z * pgptr :=
  (nMax c, nPage c, pFree c, pDirty c, pDirtyTail c, iMaxKey c, lru_pLruPrev c).

(** *** How the statements are phrased *)

(** [returns m c Q]: run from [c], the call [m] returns (no panic, fuel
    left) with a value and a state that satisfy [Q]. *)
Definition returns {A} (m : M PCache A) (c : PCache) (Q : A -> PCache -> Prop) : Prop :=
  exists a c', m c = (c', Ok a) /\ Q a c'.

(** [keeps R m]: whenever [m] returns, the states before and after are
    related by [R]. *)
Definition keeps {A} (R : relation PCache) (m : M PCache A) : Prop :=
  forall c c' a, m c = (c', Ok a) -> R c c'.

(** Every entry keeps its flags (links may change). *)
Definition same_flags (c c' : PCache) : Prop :=
  forall a h, mem c !! a = Some h -> exists h', mem c' !! a = Some h' /\ flags h' = flags h.

(** [same_on f c c']: the caches [c] and [c'] agree on what [f] reads. *)
Definition same_on {X} (f : PCache -> X) : relation PCache := fun c c' => f c' = f c.

(** The two fields that bound and steer recycling: the capacity and the
    LRU tail. *)
Definition recycling (c : PCache) : Z * pgptr := (nMax c, lru_pLruPrev c).

(** A run of fetches, one key after the other, with the entries they
    return. *)
Fixpoint FetchPages (fuel : nat) (fresh : PgHdr) (ks : list Z) : M PCache (list pgptr) :=
  match ks with
  | [] => mret []
  | k :: ks' =>
      p ← FetchPage fuel fresh k;
      ps ← FetchPages fuel fresh ks';
      mret (p :: ps)
  end.

(** What the hash table, the counters and the free list read of an
    entry, and what the dirty list reads of it. *)
Definition hash_part (h : PgHdr) : Z * pgptr * pgptr * pgptr * Z :=
  (iKey h, pNext h, pLruNext h, pLruPrev h, isPinned h).
Definition dirty_part (h : PgHdr) : Z * pgptr * pgptr :=
  (flags h, pDirtyNext h, pDirtyPrev h).

(** The cache without its dirty list: every field but [pDirty] and
    [pDirtyTail], and of every entry its [hash_part]. *)
Definition hash_side (c : PCache)
  : Z * Z * Z * list pgptr * pgptr * Z * pgptr * list (Z * pgptr * pgptr * pgptr * Z) :=
  (nMax c, nPage c, nHash c, apHash c, pFree c, iMaxKey c, lru_pLruPrev c,
   hash_part <$> mem c).

(** [dirty_kept fresh c c']: from [c] to [c'] the dirty list was left
    alone: its head and tail are the same, every entry of [c] is still
    there with the same flags and dirty links, and an entry that is new
    in [c'] has those of the block [fresh]. *)
Definition dirty_kept (fresh : PgHdr) (c c' : PCache) : Prop :=
  pDirty c' = pDirty c /\ pDirtyTail c' = pDirtyTail c
  /\ (forall x hx, mem c !! x = Some hx ->
        exists hx', mem c' !! x = Some hx' /\ dirty_part hx' = dirty_part hx)
  /\ (forall x hx', mem c' !! x = Some hx' -> mem c !! x = None ->
        dirty_part hx' = dirty_part fresh).

End PCache.

(** ** Concrete pages, trees and caches used as test inputs *)
Module Examples.
Import BPlusTree.

Definition header (f n pg free par : Z) : PageHeader :=
  {| flag := f; freeOffset := 0; nCell := n; pgno := pg; nFree := free; parent := par |}.

(** Keys 10 and 20 in two counted cells. *)
Definition cells_10_20 : list Cell :=
  [ {| ptr := 100; key := 10 |}; {| ptr := 200; key := 20 |} ].

(** An interior page; 300 plays the right-child pointer that the header
    comment documents in the place of [parent]. *)
Definition interior_10_20 : MemPage :=
  {| ph := Some (header INTERPAGE 2 1 64 300); cell := cells_10_20 |}.

(** A leaf with exactly its two counted cells. *)
Definition leaf_10_20 : MemPage :=
  {| ph := Some (header LEAFPAGE 2 1 64 0); cell := cells_10_20 |}.

(** The same leaf with a third slot left over past the count. *)
Definition leaf_10_20_stale : MemPage :=
  {| ph := Some (header LEAFPAGE 2 1 64 0);
     cell := cells_10_20 ++ [ {| ptr := 900; key := 25 |} ] |}.

(** The empty tree: page 1 is a leaf without cells. *)
Definition empty_leaf : MemPage :=
  {| ph := Some (header LEAFPAGE 0 1 64 0); cell := [] |}.
Definition empty_tree : BPlusTree :=
  {| page := Some empty_leaf; hm := {[ 1 := empty_leaf ]} |}.

(** The empty tree whose cell area has one zeroed slot past the count. *)
Definition empty_leaf_slack : MemPage :=
  {| ph := Some (header LEAFPAGE 0 1 64 0); cell := [ {| ptr := 0; key := 0 |} ] |}.
Definition empty_tree_slack : BPlusTree :=
  {| page := Some empty_leaf_slack; hm := {[ 1 := empty_leaf_slack ]} |}.

(** A tree of one leaf, page 1, holding keys 10 and 20. *)
Definition one_leaf_tree : BPlusTree :=
  {| page := Some leaf_10_20; hm := {[ 1 := leaf_10_20 ]} |}.

(** Root page 1 (interior, keys 10 and 20) over leaves 100 and 200.  The
    [pgno] field of each leaf names page 1, the value [parent()] hands
    back for it. *)
Definition leaf_100 : MemPage :=
  {| ph := Some (header LEAFPAGE 2 1 64 0);
     cell := [ {| ptr := 7; key := 5 |}; {| ptr := 8; key := 10 |} ] |}.
Definition leaf_200 : MemPage :=
  {| ph := Some (header LEAFPAGE 2 1 64 0);
     cell := [ {| ptr := 9; key := 15 |}; {| ptr := 11; key := 20 |} ] |}.
Definition two_level_tree : BPlusTree :=
  {| page := Some interior_10_20;
     hm := {[ 1 := interior_10_20; 100 := leaf_100; 200 := leaf_200 ]} |}.



(** The two-level tree after [setparent(1)] on both leaves. *)
Definition leaf_100_linked : MemPage :=
  {| ph := Some (header LEAFPAGE 2 1 64 1); cell := cell leaf_100 |}.
Definition leaf_200_linked : MemPage :=
  {| ph := Some (header LEAFPAGE 2 1 64 1); cell := cell leaf_200 |}.
Definition linked_tree : BPlusTree :=
  {| page := Some interior_10_20;
     hm := {[ 1 := interior_10_20; 100 := leaf_100_linked; 200 := leaf_200_linked ]} |}.

(** A leaf whose one cell carries an offset past 16 bits. *)
Definition leaf_wide : MemPage :=
  {| ph := Some (header LEAFPAGE 1 1 64 0); cell := [ {| ptr := 70000; key := 7 |} ] |}.
Definition wide_tree : BPlusTree :=
  {| page := Some leaf_wide; hm := {[ 1 := leaf_wide ]} |}.

(** One way to fill in what the sketch leaves undeclared: cells of 8
    bytes, a new page numbered 2, the page's first key as separator. *)
Definition sketch_8 : Sketch :=
  {| newpage := {| ph := Some (header LEAFPAGE 0 2 64 0); cell := [] |};
     split_key := fun p => default 0 (key <$> head (cell p));
     size_Cell := 8;
     cell_pl_size := 0 |}.

Definition payload (k : Z) : Payload := {| pkey := k; size := 4 |}.

Import PCache.

(** The flag values of SQLite's pcache.h, from which [cache.go] is
    ported. *)
Definition sqlite_flags : Undeclared :=
  {| PGHDR_CLEAN := 1; PGHDR_DIRTY := 2; PGHDR_WRITEABLE := 4; PGHDR_NEED_SYNC := 8 |}.

Definition entry (k f : Z) (next dnext dprev : pgptr) : PgHdr :=
  {| iKey := k; flags := f; pNext := next; pDirtyNext := dnext; pDirtyPrev := dprev;
     pLruNext := None; pLruPrev := None; isPinned := 0 |}.

(** Three entries for pages 1, 2 and 3; entries 2 and 0 are dirty and
    linked in that order, entry 1 is clean.  No hash table yet. *)
Definition dirty_cache : PCache :=
  {| nMax := 10; nPage := 3; nHash := 0; apHash := [];
     pFree := None; pDirty := Some 2%nat; pDirtyTail := Some 0%nat;
     iMaxKey := 3; lru_pLruPrev := None;
     mem := [ entry 1 2 None None (Some 2%nat);
              entry 2 1 None None None;
              entry 3 2 None (Some 0%nat) None ] |}.

(** A table of two slots with three resident entries: pages 2 and 4 in
    bucket 0 (entry 1 chained before entry 0) and page 3 in bucket 1.
    Entry 2 is dirty and is the LRU tail; the cache is one entry short
    of [nMax]. *)
Definition hash_cache : PCache :=
  {| nMax := 4; nPage := 3; nHash := 2; apHash := [Some 1%nat; Some 2%nat];
     pFree := None; pDirty := Some 2%nat; pDirtyTail := Some 2%nat;
     iMaxKey := 4; lru_pLruPrev := Some 2%nat;
     mem := [ entry 2 1 None None None;
              entry 4 1 (Some 0%nat) None None;
              entry 3 2 None None None ] |}.

Definition hash_buckets : list (list nat) := [[1%nat; 0%nat]; [2%nat]].

(** What a block from [C.malloc] is taken to hold in the examples. *)
Definition zeroed : PgHdr := entry 0 0 None None None.

(** The table of [hash_cache] in a cache with room to spare. *)
Definition roomy_cache : PCache :=
  {| nMax := 10; nPage := 3; nHash := 2; apHash := [Some 1%nat; Some 2%nat];
     pFree := None; pDirty := Some 2%nat; pDirtyTail := Some 2%nat;
     iMaxKey := 4; lru_pLruPrev := Some 2%nat;
     mem := mem hash_cache |}.

(** The table of [hash_cache] in a cache whose LRU list is empty. *)
Definition tailless_cache : PCache :=
  {| nMax := 4; nPage := 3; nHash := 2; apHash := [Some 1%nat; Some 2%nat];
     pFree := None; pDirty := Some 2%nat; pDirtyTail := Some 2%nat;
     iMaxKey := 4; lru_pLruPrev := None;
     mem := mem hash_cache |}.

(** [hash_cache] with a fourth entry in the arena that is in no chain. *)
Definition spare_cache : PCache :=
  {| nMax := 4; nPage := 3; nHash := 2; apHash := [Some 1%nat; Some 2%nat];
     pFree := None; pDirty := Some 2%nat; pDirtyTail := Some 2%nat;
     iMaxKey := 4; lru_pLruPrev := Some 2%nat;
     mem := mem hash_cache ++ [zeroed] |}.

(** [dirty_cache] with the clean entry 1 put at the head of the dirty
    list by hand, flags untouched. *)
Definition stale_head_cache : PCache :=
  {| nMax := 10; nPage := 3; nHash := 0; apHash := [];
     pFree := None; pDirty := Some 1%nat; pDirtyTail := Some 0%nat;
     iMaxKey := 3; lru_pLruPrev := None;
     mem := [ entry 1 2 None None (Some 2%nat);
              entry 2 1 None (Some 2%nat) None;
              entry 3 2 None (Some 0%nat) (Some 1%nat) ] |}.

End Examples.

(** * Proofs *)

(** ** Running the monads *)

Lemma bind_run {S A B} (m : M S A) (f : A -> M S B) (s : S) :
  (m ≫= f) s =
  match m s with
  | (s', Ok a) => f a s'
  | (s', Panic msg) => (s', Panic msg)
  | (s', OutOfFuel) => (s', OutOfFuel)
  end.
Proof. reflexivity. Qed.

Lemma bind_run_ok {S A B} (m : M S A) (f : A -> M S B) (s s' : S) (a : A) :
  m s = (s', Ok a) -> (m ≫= f) s = f a s'.
Proof. intros H. rewrite bind_run, H. reflexivity. Qed.

Lemma bind_ok_inv {S A B} (m : M S A) (f : A -> M S B) (s s' : S) (b : B) :
  (m ≫= f) s = (s', Ok b) -> exists a s1, m s = (s1, Ok a) /\ f a s1 = (s', Ok b).
Proof.
  rewrite bind_run. destruct (m s) as [s1 [a| |]]; [eauto | done | done].
Qed.

Section BPlusTreeProofs.
Import BPlusTree Examples.

(** ** Binary search over the cell array *)

Lemma cell_at_in (p : MemPage) (i : Z) (log : list Z) :
  0 <= i < Z.of_nat (length (cell p)) ->
  exists c, cell p !! Z.to_nat i = Some c /\ cell_at p i log = (log ++ [i], Ok c).
Proof.
  intros Hi. unfold cell_at.
  destruct (cell p !! Z.to_nat i) as [c|] eqn:E.
  - exists c. split; [done|]. destruct (Z.ltb_spec i 0); [lia | done].
  - apply lookup_ge_None in E. lia.
Qed.

Lemma cell_at_some (p : MemPage) (i : Z) (c : Cell) (log : list Z) :
  0 <= i -> cell p !! Z.to_nat i = Some c -> cell_at p i log = (log ++ [i], Ok c).
Proof.
  intros Hi Hc. unfold cell_at. rewrite Hc.
  destruct (Z.ltb_spec i 0); [lia | done].
Qed.

Lemma cmp_in (p : MemPage) (k i : Z) (log : list Z) (c : Cell) :
  cell_at p i log = (log ++ [i], Ok c) ->
  cmp p k i log = (log ++ [i], Ok (key c >=? k)).
Proof. intros H. unfold cmp. by rewrite (bind_run_ok _ _ _ _ _ H). Qed.

Lemma sort_Search_loop_step {S} (fuel : nat) (f : Z -> M S bool) (i j : Z) (s : S) :
  i < j ->
  sort_Search_loop (Datatypes.S fuel) f i j s =
  (b ← f (Z.shiftr (i + j) 1);
   if negb b then sort_Search_loop fuel f (Z.shiftr (i + j) 1 + 1) j
   else sort_Search_loop fuel f i (Z.shiftr (i + j) 1)) s.
Proof. intros H. simpl. destruct (Z.ltb_spec i j); [done | lia]. Qed.

Lemma sort_Search_loop_done {S} (fuel : nat) (f : Z -> M S bool) (i j : Z) (s : S) :
  j <= i -> sort_Search_loop fuel f i j s = (s, Ok i).
Proof. intros H. destruct fuel; simpl; destruct (Z.ltb_spec i j); done || lia. Qed.

(** The loop keeps Go's invariant: the slot before the answer is below
    the key, the answer's slot is not; it reads inside [lo, hi) only. *)
Lemma sort_Search_loop_spec (p : MemPage) (k : Z) (fuel : nat) :
  forall (lo hi : Z) (log : list Z),
    0 <= lo -> lo <= hi -> hi <= Z.of_nat (length (cell p)) ->
    (Z.to_nat (hi - lo) <= fuel)%nat ->
    exists (r : list Z) (i : Z),
      sort_Search_loop fuel (cmp p k) lo hi log = (log ++ r, Ok i)
      /\ Forall (fun x => lo <= x < hi) r
      /\ lo <= i <= hi
      /\ (forall c, lo < i -> cell p !! Z.to_nat (i - 1) = Some c -> key c < k)
      /\ (forall c, i < hi -> cell p !! Z.to_nat i = Some c -> k <= key c).
Proof.
  induction fuel as [|fuel IH]; intros lo hi log H0 Hle Hlen Hfuel.
  - assert (lo = hi) as -> by lia.
    exists [], hi. rewrite sort_Search_loop_done, app_nil_r by lia.
    repeat split; try done; lia.
  - destruct (Z_lt_le_dec lo hi) as [Hlt|Hge].
    + rewrite sort_Search_loop_step by done.
      set (h := Z.shiftr (lo + hi) 1).
      assert (Hh : lo <= h < hi).
      { subst h. rewrite Z.shiftr_div_pow2 by lia. change (2 ^ 1) with 2.
        split; [apply Z.div_le_lower_bound | apply Z.div_lt_upper_bound]; lia. }
      destruct (cell_at_in p h log) as (c & Hc & Hrd); [lia|].
      rewrite (bind_run_ok _ _ _ _ _ (cmp_in p k h log c Hrd)).
      destruct (Z.geb_spec (key c) k) as [Hk|Hk]; simpl.
      * destruct (IH lo h (log ++ [h])) as (r & i & Hrun & Hr & Hi & Hlow & Hhigh);
          [lia..|].
        exists (h :: r), i. rewrite Hrun, <- app_assoc. simpl.
        split; [done|]. split.
        { constructor; [lia|]. eapply Forall_impl; [exact Hr|]. simpl; lia. }
        split; [lia|]. split; [done|].
        intros c' Hih Hc'. destruct (Z.eq_dec i h) as [->|Hne].
        -- rewrite Hc in Hc'. injection Hc' as <-. lia.
        -- apply Hhigh; [lia|done].
      * destruct (IH (h + 1) hi (log ++ [h])) as (r & i & Hrun & Hr & Hi & Hlow & Hhigh);
          [lia..|].
        exists (h :: r), i. rewrite Hrun, <- app_assoc. simpl.
        split; [done|]. split.
        { constructor; [lia|]. eapply Forall_impl; [exact Hr|]. simpl; lia. }
        split; [lia|]. split; [|done].
        intros c' Hih Hc'. destruct (Z.eq_dec i (h + 1)) as [->|Hne].
        -- replace (h + 1 - 1) with h in Hc' by lia.
           rewrite Hc in Hc'. injection Hc' as <-. lia.
        -- apply Hlow; [lia|done].
    + assert (lo = hi) as -> by lia.
      exists [], hi. rewrite sort_Search_loop_done, app_nil_r by lia.
      repeat split; try done; lia.
Qed.

Lemma ascending_lookup (ks : list Z) :
  ascending ks = true ->
  forall (i j : nat) (a b : Z), (i <= j)%nat -> ks !! i = Some a -> ks !! j = Some b -> a <= b.
Proof.
  induction ks as [|x ks IH]; intros Hs i j a b Hij Hi Hj; [done|].
  assert (Hrest : ascending ks = true /\ forall y, ks !! 0%nat = Some y -> x <= y).
  { simpl in Hs. destruct ks as [|y ks']; [done|].
    apply andb_true_iff in Hs as [Hxy Hs]. split; [done|].
    intros y' [= <-]. lia. }
  destruct Hrest as [Hs' Hhd].
  destruct i as [|i], j as [|j]; simpl in *.
  - injection Hi as <-. injection Hj as <-. lia.
  - injection Hi as <-.
    destruct ks as [|y ks']; [done|].
    specialize (Hhd y eq_refl).
    specialize (IH Hs' 0%nat j y b ltac:(lia) eq_refl Hj). lia.
  - lia.
  - apply (IH Hs' i j); [lia|done..].
Qed.

Lemma sorted_page_le (p : MemPage) (n : Z) (i j : Z) (ci cj : Cell) :
  sorted_page p n -> 0 <= i <= j -> j < n ->
  cell p !! Z.to_nat i = Some ci -> cell p !! Z.to_nat j = Some cj ->
  key ci <= key cj.
Proof.
  intros [Hn Hs] Hij Hj Hi Hcj.
  apply (ascending_lookup _ Hs (Z.to_nat i) (Z.to_nat j)); [lia|..].
  - rewrite list_lookup_fmap, lookup_take_lt by lia. by rewrite Hi.
  - rewrite list_lookup_fmap, lookup_take_lt by lia. by rewrite Hcj.
Qed.

(** On a sorted page [sort.Search] returns the first slot whose key is at
    or above the key searched ([n] when there is none). *)
Lemma sort_Search_sorted (p : MemPage) (n k : Z) (log : list Z) :
  sorted_page p n ->
  exists (r : list Z) (i : Z),
    sort_Search n (cmp p k) log = (log ++ r, Ok i)
    /\ Forall (fun x => 0 <= x < n) r
    /\ 0 <= i <= n
    /\ (forall j cj, 0 <= j < i -> cell p !! Z.to_nat j = Some cj -> key cj < k)
    /\ (forall j cj, i <= j < n -> cell p !! Z.to_nat j = Some cj -> k <= key cj).
Proof.
  intros Hsp. pose proof Hsp as [Hn Hs].
  destruct (sort_Search_loop_spec p k (Z.to_nat n) 0 n log)
    as (r & i & Hrun & Hr & Hi & Hlow & Hhigh); [lia..|].
  exists r, i. split; [done|]. split; [done|]. split; [done|]. split.
  - intros j cj Hj Hcj.
    destruct (cell_at_in p (i - 1) []) as (c & Hc & _); [lia|].
    pose proof (Hlow c ltac:(lia) Hc).
    pose proof (sorted_page_le p n j (i - 1) cj c Hsp ltac:(lia) ltac:(lia) Hcj Hc). lia.
  - intros j cj Hj Hcj.
    destruct (cell_at_in p i []) as (c & Hc & _); [lia|].
    pose proof (Hhigh c ltac:(lia) Hc).
    pose proof (sorted_page_le p n i j c cj Hsp ltac:(lia) ltac:(lia) Hc Hcj). lia.
Qed.


(** The slot [sort.Search] settles on, given the first slot at or above
    the key. *)
Lemma sort_Search_first (p : MemPage) (n k i : Z) (c : Cell) (log : list Z) :
  sorted_page p n ->
  0 <= i < n -> cell p !! Z.to_nat i = Some c -> k <= key c ->
  (forall j cj, 0 <= j < i -> cell p !! Z.to_nat j = Some cj -> key cj < k) ->
  exists r, sort_Search n (cmp p k) log = (log ++ r, Ok i)
            /\ Forall (fun x => 0 <= x < n) r.
Proof.
  intros Hsp Hi Hc Hk Hbelow.
  destruct (sort_Search_sorted p n k log Hsp) as (r & i' & Hrun & Hr & Hi' & Hlow & Hhigh).
  exists r. split; [|done].
  assert (i' = i) as ->; [|done].
  destruct (Z.lt_trichotomy i' i) as [Hlt|[->|Hgt]]; [|done|].
  - destruct Hsp as [Hn _].
    destruct (cell_at_in p i' []) as (c' & Hc' & _); [lia|].
    pose proof (Hhigh i' c' ltac:(lia) Hc'). pose proof (Hbelow i' c' ltac:(lia) Hc'). lia.
  - pose proof (Hlow i c ltac:(lia) Hc). lia.
Qed.

Lemma find_run (p : MemPage) (h : PageHeader) (k i : Z) (log r : list Z) :
  ph p = Some h ->
  sort_Search (nCell h) (cmp p k) log = (log ++ r, Ok i) ->
  find p k log =
  (if flag h =? INTERPAGE then
     c ← cell_at p i; mret (Some (ptr c), true)
   else if i <=? nCell h then
     c ← cell_at p i;
     if key c =? k then c' ← cell_at p i; mret (Some (ptr c'), true)
     else mret (None, false)
   else mret (None, false)) (log ++ r).
Proof.
  intros Hph Hrun. unfold find. rewrite Hph. simpl.
  rewrite bind_run. unfold lift at 1.
  by rewrite (bind_run_ok _ _ _ _ _ Hrun).
Qed.

Lemma find_interior_at (p : MemPage) (h : PageHeader) (k i : Z) (c : Cell) :
  ph p = Some h -> flag h = INTERPAGE -> sorted_page p (nCell h) ->
  0 <= i < nCell h -> cell p !! Z.to_nat i = Some c -> k <= key c ->
  (forall j cj, 0 <= j < i -> cell p !! Z.to_nat j = Some cj -> key cj < k) ->
  returned (find p k) = Ok (Some (ptr c), true).
Proof.
  intros Hph Hfl Hsp Hi Hc Hk Hbelow.
  destruct (sort_Search_first p (nCell h) k i c [] Hsp Hi Hc Hk Hbelow) as (r & Hrun & _).
  unfold returned. rewrite (find_run p h k i [] r Hph Hrun), Hfl. simpl.
  by rewrite (bind_run_ok _ _ _ _ _ (cell_at_some p i c r ltac:(lia) Hc)).
Qed.

Lemma find_leaf_at (p : MemPage) (h : PageHeader) (k i : Z) (c : Cell) :
  ph p = Some h -> flag h = LEAFPAGE -> sorted_page p (nCell h) ->
  0 <= i < nCell h -> cell p !! Z.to_nat i = Some c -> k <= key c ->
  (forall j cj, 0 <= j < i -> cell p !! Z.to_nat j = Some cj -> key cj < k) ->
  returned (find p k) =
  Ok (if key c =? k then (Some (ptr c), true) else (None, false)).
Proof.
  intros Hph Hfl Hsp Hi Hc Hk Hbelow.
  destruct (sort_Search_first p (nCell h) k i c [] Hsp Hi Hc Hk Hbelow) as (r & Hrun & _).
  unfold returned. rewrite (find_run p h k i [] r Hph Hrun), Hfl. simpl.
  destruct (Z.leb_spec i (nCell h)); [|lia].
  rewrite (bind_run_ok _ _ _ _ _ (cell_at_some p i c r ltac:(lia) Hc)).
  destruct (key c =? k); [|done].
  by rewrite (bind_run_ok _ _ _ _ _ (cell_at_some p i c (r ++ [i]) ltac:(lia) Hc)).
Qed.

Lemma Search_loop_interior (fuel : nat) (t : BPlusTree) (p : MemPage) (h : PageHeader)
    (k : Z) (pg : option Z) (b : bool) :
  ph p = Some h -> flag h = INTERPAGE -> returned (find p k) = Ok (pg, b) ->
  Search_loop (S fuel) t (Some p) k = Search_loop fuel t (pg ≫= (hm t !!.)) k.
Proof. intros Hph Hfl Hfind. simpl. rewrite Hph. simpl. rewrite Hfl, Hfind. done. Qed.

Lemma Search_loop_leaf (fuel : nat) (t : BPlusTree) (p : MemPage) (h : PageHeader)
    (k : Z) (off : option Z) (b : bool) :
  ph p = Some h -> flag h = LEAFPAGE -> returned (find p k) = Ok (off, b) ->
  Search_loop (S fuel) t (Some p) k = Ok (if b then uint16 <$> off else None, p).
Proof.
  intros Hph Hfl Hfind. simpl. rewrite Hph. simpl. rewrite Hfl, Hfind. simpl.
  by destruct b.
Qed.


(** ** Search over an ordered tree *)

Lemma sorted_first_slot (p : MemPage) (n k i : Z) (c : Cell) :
  sorted_page p n -> 0 <= i < n -> cell p !! Z.to_nat i = Some c -> k <= key c ->
  exists i' c',
    0 <= i' <= i /\ cell p !! Z.to_nat i' = Some c' /\ k <= key c'
    /\ forall j cj, 0 <= j < i' -> cell p !! Z.to_nat j = Some cj -> key cj < k.
Proof.
  intros Hsp Hi Hc Hk.
  destruct (sort_Search_sorted p n k [] Hsp) as (r & i' & _ & _ & Hi' & Hlow & Hhigh).
  assert (i' <= i).
  { destruct (Z_le_gt_dec i' i); [done|]. pose proof (Hlow i c ltac:(lia) Hc). lia. }
  destruct Hsp as [Hn _].
  destruct (cell_at_in p i' []) as (c' & Hc' & _); [lia|].
  exists i', c'. repeat split; try done; try lia.
  apply (Hhigh i'); [lia|done].
Qed.


(** ** The claims about [find], [Search] and [Insert] *)

(** C3, counterexample.  The interior page holds keys 10 and 20 with
    children 100 and 200.  For key 10 the first cell with a strictly
    greater key is the second one, child 200; [find] hands back child
    100, the cell whose key equals 10. *)
Lemma find_interior_not_strict :
  returned (find interior_10_20 10) = Ok (Some 100, true)
  /\ spec_descend (cell interior_10_20) 300 10 = 200.
Proof. split; reflexivity. Qed.

(** C3, as amended.  At an interior page whose counted cells are in key
    order, [find] settles on the smallest index [i] whose key is greater
    than or equal to the key searched; when that index is below [nCell],
    it reads counted slots only, returns [cell[i].ptr], and [Search]
    continues at the page of that number. *)
Theorem find_interior_descends (t : BPlusTree) (fuel : nat) (p : MemPage)
    (h : PageHeader) (k i : Z) (c : Cell) :
  ph p = Some h -> flag h = INTERPAGE -> sorted_page p (nCell h) ->
  0 <= i < nCell h -> cell p !! Z.to_nat i = Some c -> k <= key c ->
  (forall j cj, 0 <= j < i -> cell p !! Z.to_nat j = Some cj -> key cj < k) ->
  returned (find p k) = Ok (Some (ptr c), true)
  /\ Search_loop (S fuel) t (Some p) k = Search_loop fuel t (hm t !! ptr c) k.
Proof.
  intros Hph Hfl Hsp Hi Hc Hk Hbelow.
  pose proof (find_interior_at p h k i c Hph Hfl Hsp Hi Hc Hk Hbelow) as Hfind.
  split; [done|].
  by rewrite (Search_loop_interior fuel t p h k _ _ Hph Hfl Hfind).
Qed.

Lemma find_interior_descends_witness :
  returned (find interior_10_20 15) = Ok (Some 200, true)
  /\ Search_loop 2 two_level_tree (Some interior_10_20) 15
     = Search_loop 1 two_level_tree (hm two_level_tree !! 200) 15.
Proof.
  apply (find_interior_descends two_level_tree 1 interior_10_20
           (header INTERPAGE 2 1 64 300) 15 1 {| ptr := 200; key := 20 |}).
  - reflexivity.
  - reflexivity.
  - split; [simpl; lia | reflexivity].
  - simpl; lia.
  - reflexivity.
  - simpl; lia.
  - intros j cj Hj Hcj. assert (j = 0) as -> by lia.
    injection Hcj as <-. simpl. lia.
Defined.

(** C4.  A leaf with keys 10 and 20 is searched for 25.  [sort.Search]
    answers [nCell], the guard [i <= nCell] lets it through, and [find]
    reads the slot past the last cell: with no such slot the call
    panics, and with a leftover cell of key 25 there it reports a hit. *)
Theorem find_leaf_past_last :
  returned (find leaf_10_20 25) = Panic "index out of range"
  /\ returned (find leaf_10_20_stale 25) = Ok (Some 900, true).
Proof. split; reflexivity. Qed.

(** C9.  On the same search the indices read are 1 and then 2, and 2 is
    [nCell]. *)
Theorem find_reads_slot_nCell :
  reads (find leaf_10_20 25) = [1; 2]
  /\ (ph leaf_10_20 ≫= fun h => Some (nCell h)) = Some 2.
Proof. split; reflexivity. Qed.

(** The same for every sorted non-interior page and every key above all
    of its counted keys: the last index read is [nCell]. *)
Lemma find_leaf_reads_nCell (p : MemPage) (h : PageHeader) (k : Z) :
  ph p = Some h -> flag h <> INTERPAGE -> sorted_page p (nCell h) ->
  (forall j cj, 0 <= j < nCell h -> cell p !! Z.to_nat j = Some cj -> key cj < k) ->
  last (reads (find p k)) = Some (nCell h).
Proof.
  intros Hph Hfl Hsp Hall.
  destruct (sort_Search_sorted p (nCell h) k [] Hsp) as (r & i & Hrun & _ & Hi & _ & Hhigh).
  assert (i = nCell h) as ->.
  { destruct (Z.eq_dec i (nCell h)); [done|]. destruct Hsp as [Hn _].
    destruct (cell_at_in p i []) as (c & Hc & _); [lia|].
    pose proof (Hhigh i c ltac:(lia) Hc). pose proof (Hall i c ltac:(lia) Hc). lia. }
  unfold reads. rewrite (find_run p h k (nCell h) [] r Hph Hrun).
  destruct (Z.eqb_spec (flag h) INTERPAGE); [done|].
  rewrite Z.leb_refl, bind_run. unfold cell_at at 1.
  destruct (if nCell h <? 0 then _ else _) as [c| |]; simpl; try (by rewrite last_snoc).
  destruct (key c =? k); simpl; [|by rewrite last_snoc].
  rewrite bind_run. unfold cell_at at 1.
  destruct (if nCell h <? 0 then _ else _); simpl; by rewrite last_snoc.
Qed.







(** [Insert] leaves every page of [hm] as it was; the one thing it may
    change is the root pointer, to a page without header or cells. *)
Lemma Insert_loop_keeps_pages (sk : Sketch) (fuel : nat) :
  forall (k : option Z) (newpg ppg : option MemPage) (t : BPlusTree),
    hm (fst (Insert_loop fuel k newpg ppg t)) = hm t
    /\ (page (fst (Insert_loop fuel k newpg ppg t)) = page t
        \/ page (fst (Insert_loop fuel k newpg ppg t)) = Some {| ph := None; cell := [] |}).
Proof.
  induction fuel as [|fuel IH]; intros k newpg ppg t; [simpl; auto|].
  cbn [Insert_loop]. unfold mbind, M_bind, lift, get, put, mret, M_ret.
  repeat match goal with
         | |- context [match ?x with _ => _ end] => destruct x
         | |- context [if ?x then _ else _] => destruct x
         end; simpl; auto.
Qed.

Lemma Insert_keeps_pages (sk : Sketch) (fuel : nat) (pl : Payload) (t : BPlusTree) :
  hm (fst (Insert fuel pl t)) = hm t
  /\ (page (fst (Insert fuel pl t)) = page t
      \/ page (fst (Insert fuel pl t)) = Some {| ph := None; cell := [] |}).
Proof.
  unfold Insert, mbind, M_bind, lift, get, mret, M_ret.
  repeat match goal with
         | |- context [match ?x with _ => _ end] => destruct x
         | |- context [if ?x then _ else _] => destruct x
         end; simpl; auto using Insert_loop_keeps_pages.
Qed.

Lemma Insert_loop_leaf_parent (sk : Sketch) (fuel : nat) (k : option Z)
    (newpg ppg : option MemPage) (t : BPlusTree) :
  (forall p h, ppg = Some p -> ph p = Some h -> flag h <> INTERPAGE) ->
  fst (Insert_loop fuel k newpg ppg t) = t.
Proof.
  intros Hleaf. destruct fuel as [|fuel]; [done|].
  cbn [Insert_loop]. unfold mkCell, insert, full.
  destruct newpg as [np|]; [|done]. simpl.
  destruct (ph np) as [hn|]; [|done]. simpl.
  destruct ppg as [pp|]; [|done]. simpl.
  destruct (ph pp) as [hp|] eqn:Hph; [|done]. simpl.
  destruct (Z.eqb_spec (flag hp) INTERPAGE) as [Hfl|_]; [|done].
  by destruct (Hleaf pp hp eq_refl Hph).
Qed.

(** With leaves only in [hm], [Insert] leaves the tree as it found it. *)
Lemma Insert_leaves_only (sk : Sketch) (fuel : nat) (pl : Payload) (t : BPlusTree) :
  (forall n p h, hm t !! n = Some p -> ph p = Some h -> flag h <> INTERPAGE) ->
  fst (Insert fuel pl t) = t.
Proof.
  intros Hleaves. unfold Insert. rewrite !bind_run. unfold get at 1.
  rewrite !bind_run. unfold lift at 1.
  destruct (Search fuel t (pkey pl)) as [[offset pg]| |]; [|done..].
  destruct (bool_decide (offset ≠ None)); [done|].
  rewrite !bind_run. unfold lift at 1.
  destruct (insert _ _) as [[[ok k] newpg]| |]; [|done..].
  destruct ok; [done|].
  rewrite !bind_run. unfold lift at 1.
  destruct (parent_of pg) as [n| |]; [|done..].
  apply Insert_loop_leaf_parent. intros p h Hp. by apply (Hleaves n).
Qed.

(** C1.  Key 42 is inserted into the empty tree and searched for.  The
    page's [insert] only tests [full], so the tree comes back as it was
    and no later [Search] returns a cell: with an empty cell area [find]
    panics on slot 0, with a zeroed slot there it misses. *)
Theorem Insert_stores_nothing (sk : Sketch) (fuel fuel' : nat) :
  fst (Insert fuel (payload 42) empty_tree) = empty_tree
  /\ fst (Insert fuel (payload 42) empty_tree_slack) = empty_tree_slack
  /\ Search (S fuel') empty_tree 42 = Panic "index out of range"
  /\ Search (S fuel') empty_tree_slack 42 = Ok (None, empty_leaf_slack).
Proof.
  split; [|split; [|split; reflexivity]].
  - apply Insert_leaves_only. intros n p h Hn Hph. unfold empty_tree, hm in Hn.
    apply lookup_singleton_Some in Hn as [_ <-]. by injection Hph as <-.
  - apply Insert_leaves_only. intros n p h Hn Hph. unfold empty_tree_slack, hm in Hn.
    apply lookup_singleton_Some in Hn as [_ <-]. by injection Hph as <-.
Qed.

(** C2.  A root leaf with room for the payload takes the split branch of
    [insert]; [parent()] hands back the leaf's own number, the loop
    offers the cell to that leaf and [full] panics, so no root is grown.
    Where the leaf's [pgno] names the interior root instead, the root
    branch is reached: the root pointer is set to a page without header,
    cells or right child, and the first of the two [insert] calls into
    it panics on the nil header. *)
Theorem Insert_root_split :
  @Insert sketch_8 3 (payload 12) one_leaf_tree = (one_leaf_tree, Panic "full error")
  /\ @Insert sketch_8 3 (payload 12) two_level_tree
     = ({| page := Some {| ph := None; cell := [] |}; hm := hm two_level_tree |},
        Panic "nil pointer dereference").
Proof. split; vm_compute; reflexivity. Qed.

(** ** Further properties of [find], [Search] and [Insert] *)

(** The number of probes of the binary search: every round halves the
    interval. *)
Lemma sort_Search_loop_count (p : MemPage) (k : Z) (fuel : nat) :
  forall (lo hi : Z) (log : list Z),
    0 <= lo -> lo <= hi -> hi <= Z.of_nat (length (cell p)) ->
    (Z.to_nat (hi - lo) <= fuel)%nat ->
    exists (r : list Z) (i : Z),
      sort_Search_loop fuel (cmp p k) lo hi log = (log ++ r, Ok i)
      /\ (hi <= lo -> r = [])
      /\ Z.of_nat (length r) <= Z.log2 (hi - lo) + 1.
Proof.
  induction fuel as [|fuel IH]; intros lo hi log H0 Hle Hlen Hfuel.
  - assert (lo = hi) as -> by lia.
    exists [], hi. rewrite sort_Search_loop_done, app_nil_r by lia.
    split; [done|]. split; [done|]. simpl. pose proof (Z.log2_nonneg (hi - hi)). lia.
  - destruct (Z_lt_le_dec lo hi) as [Hlt|Hge].
    + rewrite sort_Search_loop_step by done.
      set (h := Z.shiftr (lo + hi) 1).
      assert (Hh : lo <= h < hi /\ h - lo <= (hi - lo) / 2 /\ hi - (h + 1) <= (hi - lo) / 2).
      { subst h. rewrite Z.shiftr_div_pow2 by lia. change (2 ^ 1) with 2.
        pose proof (Z.div_mod (lo + hi) 2 ltac:(lia)).
        pose proof (Z.mod_pos_bound (lo + hi) 2 ltac:(lia)).
        pose proof (Z.div_mod (hi - lo) 2 ltac:(lia)).
        pose proof (Z.mod_pos_bound (hi - lo) 2 ltac:(lia)). lia. }
      destruct Hh as (Hh & Hleft & Hright).
      destruct (cell_at_in p h log) as (c & Hc & Hrd); [lia|].
      rewrite (bind_run_ok _ _ _ _ _ (cmp_in p k h log c Hrd)).
      assert (Hhalf : forall w r, 0 <= w <= (hi - lo) / 2 -> (w <= 0 -> r = []) ->
                Z.of_nat (length r) <= Z.log2 w + 1 ->
                Z.of_nat (length (h :: r)) <= Z.log2 (hi - lo) + 1).
      { intros w r Hw Hnil Hr. pose proof (Z.log2_nonneg (hi - lo)).
        destruct (Z.eq_dec w 0) as [->|Hw0]; [rewrite Hnil by lia; simpl; lia|].
        assert (Z.log2 w + 1 <= Z.log2 (hi - lo)); [|simpl length; lia].
        assert (2 * w <= hi - lo).
        { pose proof (Z.div_mod (hi - lo) 2 ltac:(lia)).
          pose proof (Z.mod_pos_bound (hi - lo) 2 ltac:(lia)). lia. }
        pose proof (Z.log2_double w ltac:(lia)).
        pose proof (Z.log2_le_mono (2 * w) (hi - lo) ltac:(lia)). lia. }
      destruct (Z.geb_spec (key c) k) as [Hk|Hk]; simpl.
      * destruct (IH lo h (log ++ [h])) as (r & i & Hrun & Hnil & Hr); [lia..|].
        exists (h :: r), i. rewrite Hrun, <- app_assoc. simpl app.
        split; [done|]. split; [lia|].
        apply (Hhalf (h - lo)); [lia|intros; apply Hnil; lia|done].
      * destruct (IH (h + 1) hi (log ++ [h])) as (r & i & Hrun & Hnil & Hr); [lia..|].
        exists (h :: r), i. rewrite Hrun, <- app_assoc. simpl app.
        split; [done|]. split; [lia|].
        apply (Hhalf (hi - (h + 1))); [lia|intros; apply Hnil; lia|done].
    + assert (lo = hi) as -> by lia.
      exists [], hi. rewrite sort_Search_loop_done, app_nil_r by lia.
      split; [done|]. split; [done|]. simpl. pose proof (Z.log2_nonneg (hi - hi)). lia.
Qed.

(** X1.  The binary search of [find] over the first [n] slots of a cell
    array that has them, sorted or not: it returns an index in [0, n],
    every slot it reads lies in [0, n), and it reads at most
    [log2 n + 1] of them. *)
Theorem sort_Search_probes (p : MemPage) (n k : Z) :
  0 <= n <= Z.of_nat (length (cell p)) ->
  exists i, returned (sort_Search n (cmp p k)) = Ok i
            /\ 0 <= i <= n
            /\ Forall (fun x => 0 <= x < n) (reads (sort_Search n (cmp p k)))
            /\ Z.of_nat (length (reads (sort_Search n (cmp p k)))) <= Z.log2 n + 1.
Proof.
  intros Hn. unfold returned, reads, sort_Search.
  destruct (sort_Search_loop_spec p k (Z.to_nat n) 0 n []) as (r & i & Hrun & Hr & Hi & _);
    [lia..|].
  destruct (sort_Search_loop_count p k (Z.to_nat n) 0 n []) as (r' & i' & Hrun' & _ & Hlen);
    [lia..|].
  rewrite Hrun in Hrun'. injection Hrun' as <- <-.
  rewrite Hrun. simpl. exists i. rewrite Z.sub_0_r in Hlen. done.
Qed.

Lemma sort_Search_probes_witness :
  exists i, returned (sort_Search 2 (cmp leaf_10_20 15)) = Ok i
            /\ 0 <= i <= 2
            /\ Forall (fun x => 0 <= x < 2) (reads (sort_Search 2 (cmp leaf_10_20 15)))
            /\ Z.of_nat (length (reads (sort_Search 2 (cmp leaf_10_20 15)))) <= Z.log2 2 + 1.
Proof. apply (sort_Search_probes leaf_10_20 2 15). simpl. lia. Defined.

(** On an ordered subtree that holds the key, [Search] ends at a leaf
    and hands back, as a [uint16], the offset stored with the key
    there. *)
Lemma Search_loop_locates (t : BPlusTree) (k : Z) (d : nat) :
  forall (p : MemPage) (fuel : nat),
    ordered t d p -> holds t d p k -> (d < fuel)%nat ->
    exists leaf h i c,
      Search_loop fuel t (Some p) k = Ok (Some (uint16 (ptr c)), leaf)
      /\ ph leaf = Some h /\ flag h = LEAFPAGE
      /\ 0 <= i < nCell h /\ cell leaf !! Z.to_nat i = Some c /\ key c = k.
Proof.
  induction d as [|d IH]; intros p fuel Hord Hholds Hfuel;
    destruct fuel as [|fuel]; try lia;
    destruct Hord as (h & Hph & Hsp & Hord);
    destruct Hholds as (h' & i & c & Hph' & Hi & Hc & Hholds);
    rewrite Hph in Hph'; injection Hph' as <-.
  - destruct Hholds as [_ Hkey].
    destruct (sorted_first_slot p (nCell h) k i c Hsp Hi Hc ltac:(lia))
      as (i' & c' & Hi' & Hc' & Hk' & Hbelow).
    pose proof (sorted_page_le p (nCell h) i' i c' c Hsp ltac:(lia) ltac:(lia) Hc' Hc).
    pose proof (find_leaf_at p h k i' c' Hph Hord Hsp ltac:(lia) Hc' Hk' Hbelow) as Hfind.
    destruct (Z.eqb_spec (key c') k) as [Hkc|]; [|lia].
    exists p, h, i', c'.
    rewrite (Search_loop_leaf fuel t p h k _ _ Hph Hord Hfind).
    repeat split; done || lia.
  - destruct Hord as [Hfl Hkids]. destruct Hholds as (_ & child & Hchild & Hholds).
    destruct (Hkids i c Hi Hc) as (child' & Hchild' & Hord' & Hrange).
    rewrite Hchild in Hchild'. injection Hchild' as <-.
    destruct (Hrange k Hholds) as [Hk Hprev].
    assert (Hbelow : forall j cj, 0 <= j < i -> cell p !! Z.to_nat j = Some cj -> key cj < k).
    { intros j cj Hj Hcj. destruct Hsp as [Hn Hs].
      destruct (cell_at_in p (i - 1) []) as (c' & Hc' & _); [lia|].
      pose proof (Hprev c' ltac:(lia) Hc').
      pose proof (sorted_page_le p (nCell h) j (i - 1) cj c' (conj Hn Hs)
                    ltac:(lia) ltac:(lia) Hcj Hc'). lia. }
    pose proof (find_interior_at p h k i c Hph Hfl Hsp Hi Hc Hk Hbelow) as Hfind.
    rewrite (Search_loop_interior fuel t p h k _ _ Hph Hfl Hfind). simpl.
    rewrite Hchild. apply IH; [done..|lia].
Qed.

(** X2.  [Search] for a key that an ordered tree of height [d] holds
    returns, given [d + 1] rounds, a leaf page and the [ptr] of a
    counted cell of that leaf whose key is the key searched, cut to the
    16 bits of the result type: a [ptr] of 70000 comes back as 4464. *)
Theorem Search_finds_present (t : BPlusTree) (d fuel : nat) (k : Z) :
  ordered_tree t d -> tree_holds t d k -> (d < fuel)%nat ->
  exists leaf h i c,
    Search fuel t k = Ok (Some (uint16 (ptr c)), leaf)
    /\ ph leaf = Some h /\ flag h = LEAFPAGE
    /\ 0 <= i < nCell h /\ cell leaf !! Z.to_nat i = Some c /\ key c = k.
Proof.
  intros (root & Hroot & Hord) (root' & Hroot' & Hholds) Hfuel.
  rewrite Hroot in Hroot'. injection Hroot' as <-.
  unfold Search. rewrite Hroot. by apply (Search_loop_locates t k d).
Qed.

Lemma wide_tree_ordered : ordered_tree wide_tree 0.
Proof.
  exists leaf_wide. split; [reflexivity|].
  exists (header LEAFPAGE 1 1 64 0). split; [reflexivity|].
  split; [split; [simpl; lia | reflexivity] | reflexivity].
Qed.

Lemma wide_tree_holds_7 : tree_holds wide_tree 0 7.
Proof.
  exists leaf_wide. split; [reflexivity|].
  exists (header LEAFPAGE 1 1 64 0), 0, {| ptr := 70000; key := 7 |}.
  split; [reflexivity|]. split; [simpl; lia|]. split; [reflexivity|]. split; reflexivity.
Qed.

Lemma Search_finds_present_witness :
  Search 1 wide_tree 7 = Ok (Some 4464, leaf_wide)
  /\ exists leaf h i c,
       Search 1 wide_tree 7 = Ok (Some (uint16 (ptr c)), leaf)
       /\ ph leaf = Some h /\ flag h = LEAFPAGE
       /\ 0 <= i < nCell h /\ cell leaf !! Z.to_nat i = Some c /\ key c = 7.
Proof.
  split; [reflexivity|].
  apply (Search_finds_present wide_tree 0 1 7).
  - exact wide_tree_ordered.
  - exact wide_tree_holds_7.
  - lia.
Defined.

(** The run of [find] on a leaf when the binary search stops at a
    counted slot. *)
Lemma find_leaf_trace (p : MemPage) (h : PageHeader) (k i : Z) (c : Cell) :
  ph p = Some h -> flag h = LEAFPAGE -> sorted_page p (nCell h) ->
  0 <= i < nCell h -> cell p !! Z.to_nat i = Some c -> k <= key c ->
  (forall j cj, 0 <= j < i -> cell p !! Z.to_nat j = Some cj -> key cj < k) ->
  Forall (fun x => 0 <= x < nCell h) (reads (find p k)).
Proof.
  intros Hph Hfl Hsp Hi Hc Hk Hbelow.
  destruct (sort_Search_first p (nCell h) k i c [] Hsp Hi Hc Hk Hbelow) as (r & Hrun & Hr).
  unfold reads. rewrite (find_run p h k i [] r Hph Hrun), Hfl. simpl.
  destruct (Z.leb_spec i (nCell h)); [|lia].
  rewrite (bind_run_ok _ _ _ _ _ (cell_at_some p i c r ltac:(lia) Hc)).
  destruct (key c =? k).
  - rewrite (bind_run_ok _ _ _ _ _ (cell_at_some p i c (r ++ [i]) ltac:(lia) Hc)).
    simpl. rewrite !Forall_app, !Forall_singleton. done.
  - simpl. rewrite !Forall_app, !Forall_singleton. done.
Qed.

Lemma find_leaf_miss (p : MemPage) (h : PageHeader) (k i : Z) (c : Cell) :
  ph p = Some h -> flag h = LEAFPAGE -> sorted_page p (nCell h) ->
  0 <= i < nCell h -> cell p !! Z.to_nat i = Some c -> k <= key c ->
  (forall j cj, 0 <= j < nCell h -> cell p !! Z.to_nat j = Some cj -> key cj <> k) ->
  returned (find p k) = Ok (None, false).
Proof.
  intros Hph Hfl Hsp Hi Hc Hk Habsent.
  destruct (sorted_first_slot p (nCell h) k i c Hsp Hi Hc Hk)
    as (i' & c' & Hi' & Hc' & Hk' & Hbelow).
  rewrite (find_leaf_at p h k i' c' Hph Hfl Hsp ltac:(lia) Hc' Hk' Hbelow).
  destruct (Z.eqb_spec (key c') k) as [E|]; [|done].
  by destruct (Habsent i' c' ltac:(lia) Hc').
Qed.

(** X3.  On a leaf whose counted cells are in key order and whose last
    key is not below the key searched, [find] reads counted slots only;
    it reports a miss when no counted cell has the key, and otherwise
    the [ptr] of a counted cell that has it. *)
Theorem find_leaf_in_range (p : MemPage) (h : PageHeader) (k i : Z) (c : Cell) :
  ph p = Some h -> flag h = LEAFPAGE -> sorted_page p (nCell h) ->
  0 <= i < nCell h -> cell p !! Z.to_nat i = Some c -> k <= key c ->
  Forall (fun x => 0 <= x < nCell h) (reads (find p k))
  /\ ((forall j cj, 0 <= j < nCell h -> cell p !! Z.to_nat j = Some cj -> key cj <> k) ->
      returned (find p k) = Ok (None, false))
  /\ (forall j cj, 0 <= j < nCell h -> cell p !! Z.to_nat j = Some cj -> key cj = k ->
      exists j' c', 0 <= j' <= j /\ cell p !! Z.to_nat j' = Some c' /\ key c' = k
                    /\ returned (find p k) = Ok (Some (ptr c'), true)).
Proof.
  intros Hph Hfl Hsp Hi Hc Hk.
  destruct (sorted_first_slot p (nCell h) k i c Hsp Hi Hc Hk)
    as (i' & c' & Hi' & Hc' & Hk' & Hbelow).
  pose proof (find_leaf_at p h k i' c' Hph Hfl Hsp ltac:(lia) Hc' Hk' Hbelow) as Hfind.
  split; [by apply (find_leaf_trace p h k i' c'); [..|lia| | |]|]. split.
  - by apply (find_leaf_miss p h k i c).
  - intros j cj Hj Hcj Hkj.
    assert (i' <= j).
    { destruct (Z_le_gt_dec i' j); [done|]. pose proof (Hbelow j cj ltac:(lia) Hcj). lia. }
    pose proof (sorted_page_le p (nCell h) i' j c' cj Hsp ltac:(lia) ltac:(lia) Hc' Hcj).
    exists i', c'. rewrite Hfind.
    destruct (Z.eqb_spec (key c') k) as [E|]; [|lia].
    split; [lia|]. done.
Qed.

Lemma find_leaf_in_range_witness :
  Forall (fun x => 0 <= x < 2) (reads (find leaf_10_20 15))
  /\ ((forall j cj, 0 <= j < 2 -> cell leaf_10_20 !! Z.to_nat j = Some cj -> key cj <> 15) ->
      returned (find leaf_10_20 15) = Ok (None, false))
  /\ (forall j cj, 0 <= j < 2 -> cell leaf_10_20 !! Z.to_nat j = Some cj -> key cj = 15 ->
      exists j' c', 0 <= j' <= j /\ cell leaf_10_20 !! Z.to_nat j' = Some c' /\ key c' = 15
                    /\ returned (find leaf_10_20 15) = Ok (Some (ptr c'), true)).
Proof.
  apply (find_leaf_in_range leaf_10_20 (header LEAFPAGE 2 1 64 0) 15 1
           {| ptr := 200; key := 20 |}); try reflexivity.
  - split; [simpl; lia | reflexivity].
  - simpl; lia.
  - simpl; lia.
Defined.

(** X4.  On an interior page whose counted keys are all below the key
    searched, [find] takes no rightmost child: it indexes the slot at
    [nCell].  When the cell array ends with the counted cells the call
    panics, and [Search] with it; when a slot is left there, its [ptr]
    is the page [Search] goes to. *)
Theorem find_interior_past_last (t : BPlusTree) (fuel : nat) (p : MemPage)
    (h : PageHeader) (k : Z) :
  ph p = Some h -> flag h = INTERPAGE -> sorted_page p (nCell h) ->
  (forall j cj, 0 <= j < nCell h -> cell p !! Z.to_nat j = Some cj -> key cj < k) ->
  last (reads (find p k)) = Some (nCell h)
  /\ (length (cell p) = Z.to_nat (nCell h) ->
      returned (find p k) = Panic "index out of range"
      /\ Search_loop (S fuel) t (Some p) k = Panic "index out of range")
  /\ (forall c, cell p !! Z.to_nat (nCell h) = Some c ->
      returned (find p k) = Ok (Some (ptr c), true)
      /\ Search_loop (S fuel) t (Some p) k = Search_loop fuel t (hm t !! ptr c) k).
Proof.
  intros Hph Hfl Hsp Hall.
  destruct (sort_Search_sorted p (nCell h) k [] Hsp) as (r & i & Hrun & _ & Hi & _ & Hhigh).
  assert (i = nCell h) as ->.
  { destruct (Z.eq_dec i (nCell h)); [done|]. destruct Hsp as [Hn _].
    destruct (cell_at_in p i []) as (c & Hc & _); [lia|].
    pose proof (Hhigh i c ltac:(lia) Hc). pose proof (Hall i c ltac:(lia) Hc). lia. }
  pose proof (find_run p h k (nCell h) [] r Hph Hrun) as Hfind.
  rewrite Hfl in Hfind. simpl in Hfind. rewrite bind_run in Hfind.
  assert (Hn : 0 <= nCell h) by (destruct Hsp; lia).
  split; [|split].
  - unfold reads. rewrite Hfind. unfold cell_at.
    destruct (if nCell h <? 0 then _ else _); simpl; by rewrite last_snoc.
  - intros Hlen.
    assert (Hp : returned (find p k) = Panic "index out of range").
    { unfold returned. rewrite Hfind. unfold cell_at.
      destruct (Z.ltb_spec (nCell h) 0); [done|].
      by rewrite lookup_ge_None_2 by lia. }
    split; [done|]. simpl. rewrite Hph. simpl. rewrite Hfl. simpl. by rewrite Hp.
  - intros c Hc.
    assert (Hp : returned (find p k) = Ok (Some (ptr c), true)).
    { unfold returned. rewrite Hfind. unfold cell_at.
      destruct (Z.ltb_spec (nCell h) 0); [lia|]. by rewrite Hc. }
    split; [done|]. by rewrite (Search_loop_interior fuel t p h k _ _ Hph Hfl Hp).
Qed.

Lemma find_interior_past_last_witness :
  last (reads (find interior_10_20 25)) = Some 2
  /\ (length (cell interior_10_20) = Z.to_nat 2 ->
      returned (find interior_10_20 25) = Panic "index out of range"
      /\ Search_loop 3 two_level_tree (Some interior_10_20) 25 = Panic "index out of range")
  /\ (forall c, cell interior_10_20 !! Z.to_nat 2 = Some c ->
      returned (find interior_10_20 25) = Ok (Some (ptr c), true)
      /\ Search_loop 3 two_level_tree (Some interior_10_20) 25
         = Search_loop 2 two_level_tree (hm two_level_tree !! ptr c) 25).
Proof.
  apply (find_interior_past_last two_level_tree 2 interior_10_20
           (header INTERPAGE 2 1 64 300) 25); try reflexivity.
  - split; [simpl; lia | reflexivity].
  - intros j cj Hj Hcj. simpl in Hj.
    assert (j = 0 \/ j = 1) as [-> | ->] by lia; simpl in Hcj;
      injection Hcj as <-; simpl; lia.
Defined.

(** The root branch of the propagation loop always panics: the page it
    installs has no header, and the first [insert] into it dereferences
    it.  So a loop that returns has written nothing. *)
Lemma Insert_loop_returns_unchanged (sk : Sketch) (fuel : nat) :
  forall (k : option Z) (newpg ppg : option MemPage) (t t' : BPlusTree),
    Insert_loop fuel k newpg ppg t = (t', Ok tt) -> t' = t.
Proof.
  induction fuel as [|fuel IH]; intros k newpg ppg t t'; [done|].
  cbn [Insert_loop]. unfold mbind, M_bind, lift, get, put, mret, M_ret.
  repeat match goal with
         | |- context [match ?x with _ => _ end] => destruct x eqn:?
         | |- context [if ?x then _ else _] => destruct x eqn:?
         end; try congruence; try (by apply IH).
  all: unfold insert, full in *; simpl in *; congruence.
Qed.

(** X5.  Whatever the tree, the payload and the outcome, [Insert] leaves
    every page of [hm] as it was; and a call of [Insert] that returns
    leaves the whole tree, root pointer included, exactly as it was. *)
Theorem Insert_returns_unchanged (sk : Sketch) (fuel : nat) (pl : Payload)
    (t t' : BPlusTree) (r : result unit) :
  Insert fuel pl t = (t', r) ->
  hm t' = hm t /\ (r = Ok tt -> t' = t).
Proof.
  intros Hrun. split.
  - pose proof (Insert_keeps_pages sk fuel pl t) as [Hhm _]. by rewrite Hrun in Hhm.
  - intros ->. revert Hrun.
    unfold Insert, mbind, M_bind, lift, get, mret, M_ret.
    repeat match goal with
           | |- context [match ?x with _ => _ end] => destruct x eqn:?
           | |- context [if ?x then _ else _] => destruct x eqn:?
           end; try congruence.
    apply Insert_loop_returns_unchanged.
Qed.

Lemma Insert_returns_unchanged_witness :
  hm two_level_tree = hm two_level_tree /\ (Ok tt = Ok tt -> two_level_tree = two_level_tree).
Proof.
  apply (Insert_returns_unchanged sketch_8 2 (payload 15) two_level_tree two_level_tree (Ok tt)).
  reflexivity.
Defined.

(** *** The [parent] field *)

Lemma forget_parent_fields (p p' : MemPage) :
  forget_parent p' = forget_parent p ->
  cell p' = cell p
  /\ match ph p, ph p' with
     | Some h, Some h' =>
         flag h' = flag h /\ nCell h' = nCell h /\ pgno h' = pgno h /\ nFree h' = nFree h
     | None, None => True
     | _, _ => False
     end.
Proof.
  destruct p as [[h|] cs], p' as [[h'|] cs']; unfold forget_parent; simpl;
    intros E; injection E; intros; subst; done.
Qed.

Lemma forget_parent_some (p p' : MemPage) :
  forget_parent <$> Some p' = forget_parent <$> Some p -> forget_parent p' = forget_parent p.
Proof. intros E. exact (f_equal (default (forget_parent p)) E). Qed.

Lemma forget_parents_fields (t t' : BPlusTree) :
  forget_parents t' = forget_parents t ->
  forget_parent <$> page t' = forget_parent <$> page t
  /\ forget_parent <$> hm t' = forget_parent <$> hm t.
Proof. intros E. split; [exact (f_equal page E)|exact (f_equal hm E)]. Qed.

Lemma find_forget (p p' : MemPage) (k : Z) :
  forget_parent p' = forget_parent p -> find p' k = find p k.
Proof.
  intros E. apply forget_parent_fields in E as [Ec Eh].
  destruct p as [[h|] cs], p' as [[h'|] cs']; simpl in *; subst; try done.
  destruct h, h'. simpl in Eh. destruct Eh as (-> & -> & _). reflexivity.
Qed.

Lemma Search_loop_forget (t t' : BPlusTree) (k : Z) (fuel : nat) :
  forget_parent <$> hm t' = forget_parent <$> hm t ->
  forall curr curr' : option MemPage,
    forget_parent <$> curr' = forget_parent <$> curr ->
    result_rel (fun x x' => x'.1 = x.1 /\ forget_parent x'.2 = forget_parent x.2)
      (Search_loop fuel t curr k) (Search_loop fuel t' curr' k).
Proof.
  intros Ehm. induction fuel as [|fuel IH]; intros curr curr' Ec; [done|].
  destruct curr as [c|], curr' as [c'|]; try done. apply forget_parent_some in Ec.
  pose proof (find_forget c c' k Ec) as Efind.
  pose proof (forget_parent_fields c c' Ec) as [_ Eh].
  cbn [Search_loop]. simpl. destruct (ph c) as [h|], (ph c') as [h'|]; try done.
  destruct Eh as (Ef & _). simpl. rewrite Ef, Efind.
  destruct (flag h =? LEAFPAGE).
  - destruct (returned (find c k)) as [[off ok]| |]; simpl; try done.
    by destruct ok.
  - destruct (flag h =? INTERPAGE); [|done].
    destruct (returned (find c k)) as [[pg ok]| |]; simpl; try done.
    apply IH. destruct pg as [n|]; [|done]. simpl.
    by rewrite <- !lookup_fmap, Ehm.
Qed.

Lemma insert_forget (sk : Sketch) (d : Data) (p p' : option MemPage) :
  (forall q q', forget_parent q' = forget_parent q -> split_key q' = split_key q) ->
  forget_parent <$> p' = forget_parent <$> p -> insert d p' = insert d p.
Proof.
  intros Hsk E. destruct p as [q|], p' as [q'|]; try done. apply forget_parent_some in E.
  pose proof (Hsk q q' E) as Ek. apply forget_parent_fields in E as [_ Eh].
  unfold insert, full. simpl. destruct (ph q) as [h|], (ph q') as [h'|]; try done.
  destruct Eh as (Ef & _ & _ & En). simpl. rewrite Ef, En, Ek. done.
Qed.

Lemma mkCell_forget (k : option Z) (p p' : option MemPage) :
  forget_parent <$> p' = forget_parent <$> p -> mkCell k p' = mkCell k p.
Proof.
  intros E. destruct p as [q|], p' as [q'|]; try done. apply forget_parent_some in E.
  apply forget_parent_fields in E as [_ Eh].
  unfold mkCell. simpl. destruct (ph q) as [h|], (ph q') as [h'|]; try done.
  destruct Eh as (_ & _ & Ep & _). simpl. by rewrite Ep.
Qed.

Lemma get_run {S B} (f : S -> M S B) (s : S) : (get ≫= f) s = f s s.
Proof. by rewrite bind_run. Qed.

Lemma put_run {S B} (f : unit -> M S B) (s0 s : S) : (put s0 ≫= f) s = f tt s0.
Proof. by rewrite bind_run. Qed.

Lemma agree_lift2 {A} (R : A -> A -> Prop) (r r' : result A)
    (f f' : A -> M BPlusTree unit) (t t' : BPlusTree) :
  forget_parents t' = forget_parents t ->
  result_rel R r r' ->
  (forall a a', R a a' -> agree (f a t) (f' a' t')) ->
  agree ((lift r ≫= f) t) ((lift r' ≫= f') t').
Proof.
  intros Et Hr Hf. rewrite !bind_run. unfold lift.
  destruct r as [a| |], r' as [a'| |]; simpl in Hr; try done; [by apply Hf|].
  by subst.
Qed.

Lemma agree_lift {A} (r : result A) (f f' : A -> M BPlusTree unit) (t t' : BPlusTree) :
  forget_parents t' = forget_parents t ->
  (forall a, r = Ok a -> agree (f a t) (f' a t')) ->
  agree ((lift r ≫= f) t) ((lift r ≫= f') t').
Proof.
  intros Et Hf. rewrite !bind_run. unfold lift. destruct r as [a| |]; [by apply Hf|done..].
Qed.

Lemma deref_forget (p p' : option MemPage) :
  forget_parent <$> p' = forget_parent <$> p ->
  result_rel (fun q q' => forget_parent q' = forget_parent q) (deref p) (deref p').
Proof.
  intros E. destruct p as [q|], p' as [q'|]; try done. simpl.
  by apply forget_parent_some.
Qed.

Lemma deref_ph_forget (p p' : MemPage) :
  forget_parent p' = forget_parent p ->
  result_rel (fun h h' => pgno h' = pgno h) (deref (ph p)) (deref (ph p')).
Proof.
  intros E. apply forget_parent_fields in E as [_ Eh].
  destruct (ph p) as [h|], (ph p') as [h'|]; try done. simpl. tauto.
Qed.

Lemma parent_of_forget (p p' : MemPage) :
  forget_parent p' = forget_parent p -> parent_of p' = parent_of p.
Proof.
  intros E. apply forget_parent_fields in E as [_ Eh]. unfold parent_of.
  destruct (ph p) as [h|], (ph p') as [h'|]; try done.
  destruct Eh as (_ & _ & Ep & _). simpl. by rewrite Ep.
Qed.

Lemma Insert_loop_forget (sk : Sketch) (fuel : nat) :
  (forall q q', forget_parent q' = forget_parent q -> split_key q' = split_key q) ->
  forall (k : option Z) (newpg ppg ppg' : option MemPage) (t t' : BPlusTree),
    forget_parent <$> ppg' = forget_parent <$> ppg ->
    forget_parents t' = forget_parents t ->
    agree (Insert_loop fuel k newpg ppg t) (Insert_loop fuel k newpg ppg' t').
Proof.
  intros Hsk. induction fuel as [|fuel IH]; intros k newpg ppg ppg' t t' Ep Et; [done|].
  pose proof (forget_parents_fields _ _ Et) as [Eroot Ehm].
  cbn [Insert_loop]. apply agree_lift; [done|]. intros c _.
  rewrite (insert_forget sk c ppg ppg' Hsk Ep).
  apply agree_lift; [done|]. intros [[ok k'] newpg'] _.
  destruct ok; [done|].
  rewrite !get_run.
  apply (agree_lift2 _ _ _ _ _ _ _ Et (deref_forget _ _ Ep)). intros pp pp' Epp.
  apply (agree_lift2 _ _ _ _ _ _ _ Et (deref_ph_forget _ _ Epp)). intros hp hp' Epg.
  apply (agree_lift2 _ _ _ _ _ _ _ Et (deref_forget _ _ Eroot)). intros root root' Er.
  apply (agree_lift2 _ _ _ _ _ _ _ Et (deref_ph_forget _ _ Er)). intros hr hr' Epr.
  rewrite Epg, Epr. destruct (pgno hp =? pgno hr).
  - rewrite !put_run.
    assert (Et1 : forget_parents {| page := Some {| ph := None; cell := [] |}; hm := hm t' |}
                  = forget_parents {| page := Some {| ph := None; cell := [] |}; hm := hm t |}).
    { unfold forget_parents. simpl. by rewrite Ehm. }
    apply agree_lift; [done|]. intros c1 _.
    apply agree_lift; [done|]. intros x1 _.
    rewrite (mkCell_forget k' ppg ppg' Ep).
    apply agree_lift; [done|]. intros c2 _.
    apply agree_lift; [done|]. intros x2 _. done.
  - rewrite (parent_of_forget pp pp' Epp). apply agree_lift; [done|]. intros n _.
    apply IH; [|done]. by rewrite <- !lookup_fmap, Ehm.
Qed.

(** X6.  Nothing reads the [parent] field.  [setparent] changes that
    field and nothing else, and [parent()] returns the same number
    before and after it.  On two trees that differ in [parent] fields
    only, [Search] has the same outcome, with the same offset and the
    same page up to that field, and [Insert] has the same outcome and
    leaves trees that again differ in [parent] fields only (whatever
    stands for the undeclared [key] of [insert] must not read the field
    either).  The split propagation of [Insert] goes by [pgno], never
    by the link [setparent] maintains. *)
Theorem parent_field_unobserved (sk : Sketch) (t t' : BPlusTree) :
  (forall q q', forget_parent q' = forget_parent q -> split_key q' = split_key q) ->
  forget_parents t' = forget_parents t ->
  (forall n p p', setparent n p = Ok p' ->
     forget_parent p' = forget_parent p /\ parent <$> ph p' = Some n
     /\ parent_of p' = parent_of p)
  /\ (forall fuel k,
        result_rel (fun x x' => x'.1 = x.1 /\ forget_parent x'.2 = forget_parent x.2)
          (Search fuel t k) (Search fuel t' k))
  /\ (forall fuel pl,
        (Insert fuel pl t').2 = (Insert fuel pl t).2
        /\ forget_parents (Insert fuel pl t').1 = forget_parents (Insert fuel pl t).1).
Proof.
  intros Hsk Et. pose proof (forget_parents_fields _ _ Et) as [Eroot Ehm].
  assert (Hsearch : forall fuel k,
            result_rel (fun x x' => x'.1 = x.1 /\ forget_parent x'.2 = forget_parent x.2)
              (Search fuel t k) (Search fuel t' k)).
  { intros fuel k. unfold Search. by apply Search_loop_forget. }
  split; [|split; [done|]].
  - intros n p p'. unfold setparent, parent_of. destruct p as [[h|] cs]; simpl; [|done].
    by intros [= <-].
  - intros fuel pl. change (agree (Insert fuel pl t) (Insert fuel pl t')).
    unfold Insert. rewrite !get_run.
    apply (agree_lift2 _ _ _ _ _ _ _ Et (Hsearch fuel (pkey pl))).
    intros [off pg] [off' pg'] [Eoff Epg]. simpl in Eoff, Epg. subst off'.
    destruct (bool_decide (off ≠ None)); [done|].
    rewrite (insert_forget sk (DPayload pl) (Some pg) (Some pg') Hsk)
      by (simpl; by rewrite Epg).
    apply agree_lift; [done|]. intros [[ok k'] newpg'] _.
    destruct ok; [done|].
    rewrite (parent_of_forget pg pg' Epg). apply agree_lift; [done|]. intros n _.
    apply Insert_loop_forget; [done| |done]. by rewrite <- !lookup_fmap, Ehm.
Qed.

Lemma parent_field_unobserved_witness :
  setparent 1 leaf_100 = Ok leaf_100_linked
  /\ forget_parents linked_tree = forget_parents two_level_tree
  /\ (@Insert sketch_8 3 (payload 12) linked_tree).2
     = (@Insert sketch_8 3 (payload 12) two_level_tree).2
  /\ forget_parents (@Insert sketch_8 3 (payload 12) linked_tree).1
     = forget_parents (@Insert sketch_8 3 (payload 12) two_level_tree).1.
Proof.
  split; [reflexivity|]. split; [reflexivity|].
  refine (proj2 (proj2 (parent_field_unobserved sketch_8 two_level_tree linked_tree _ _))
            3%nat (payload 12)).
  - intros q q' E. apply (f_equal cell) in E. simpl in E. simpl. by rewrite E.
  - reflexivity.
Defined.

(** X7.  [Insert] of a key that a one-leaf tree does not hold (and that
    is not above the leaf's last key) never stores it.  The bytes asked
    for are the [uint16] sum [pl.size + size(Cell)], which wraps at
    2^16.  When the free bytes do not exceed them, [full] answers false
    and [Insert] returns as if done; when they do, [Insert] takes the
    split path, finds under the leaf's own page number the leaf itself,
    and panics in [full].  The tree is unchanged either way. *)
Theorem Insert_absent_leaf_root (sk : Sketch) (fuel : nat) (pl : Payload) (t : BPlusTree)
    (p : MemPage) (h : PageHeader) (i : Z) (c : Cell) :
  page t = Some p -> ph p = Some h -> flag h = LEAFPAGE -> sorted_page p (nCell h) ->
  0 <= i < nCell h -> cell p !! Z.to_nat i = Some c -> pkey pl <= key c ->
  (forall j cj, 0 <= j < nCell h -> cell p !! Z.to_nat j = Some cj -> key cj <> pkey pl) ->
  (nFree h <= uint16 (size pl + size_Cell) -> Insert (S fuel) pl t = (t, Ok tt))
  /\ (uint16 (size pl + size_Cell) < nFree h -> hm t !! pgno h = Some p ->
      is_Some (ph newpage) ->
      Insert (S fuel) pl t = (t, Panic "full error")).
Proof.
  intros Hroot Hph Hfl Hsp Hi Hc Hk Habsent.
  pose proof (find_leaf_miss p h (pkey pl) i c Hph Hfl Hsp Hi Hc Hk Habsent) as Hfind.
  assert (Hsearch : Search (S fuel) t (pkey pl) = Ok (None, p)).
  { unfold Search. rewrite Hroot. by rewrite (Search_loop_leaf fuel t p h _ _ _ Hph Hfl Hfind). }
  assert (Hstart : Insert (S fuel) pl t =
            ('(ok, k, newpg) ← lift (insert (DPayload pl) (Some p));
             if (ok : bool) then mret tt
             else n ← lift (parent_of p); Insert_loop (S fuel) k newpg (hm t !! n)) t).
  { unfold Insert. rewrite bind_run. unfold get at 1. rewrite bind_run. unfold lift at 1.
    rewrite Hsearch. by rewrite bool_decide_eq_false_2 by (intros E; by apply E). }
  rewrite Hstart, bind_run. unfold lift at 1, insert, full. simpl. rewrite Hph. simpl.
  rewrite Hfl. simpl. split.
  - intros Hfull. by destruct (Z.gtb_spec (nFree h) (uint16 (size pl + size_Cell))); [lia|].
  - intros Hroom Hself [hn Hhn].
    destruct (Z.gtb_spec (nFree h) (uint16 (size pl + size_Cell))); [|lia]. simpl.
    rewrite bind_run. unfold lift at 1, parent_of. rewrite Hph. simpl. rewrite Hself.
    cbn [Insert_loop]. rewrite bind_run. unfold lift at 1, mkCell. simpl. rewrite Hhn. simpl.
    rewrite bind_run. unfold lift at 1, insert, full. simpl. rewrite Hph. simpl.
    by rewrite Hfl.
Qed.

Lemma Insert_absent_leaf_root_witness :
  uint16 (65535 + @size_Cell sketch_8) < 64
  /\ @Insert sketch_8 3 {| pkey := 15; size := 65535 |} one_leaf_tree
     = (one_leaf_tree, Panic "full error").
Proof.
  split; [by vm_compute|].
  refine (proj2 (Insert_absent_leaf_root sketch_8 2 {| pkey := 15; size := 65535 |}
                   one_leaf_tree leaf_10_20 (header LEAFPAGE 2 1 64 0) 1
                   {| ptr := 200; key := 20 |} eq_refl eq_refl eq_refl _ _ eq_refl _ _)
            _ eq_refl _).
  - split; [simpl; lia | reflexivity].
  - simpl; lia.
  - simpl; lia.
  - intros j cj Hj Hcj. simpl in Hj.
    assert (j = 0 \/ j = 1) as [-> | ->] by lia; simpl in Hcj;
      injection Hcj as <-; simpl; lia.
  - by vm_compute.
  - by eexists.
Defined.

End BPlusTreeProofs.

Section PCacheProofs.
Import PCache Examples.

(** ** Memory of the page cache *)

Lemma load_inv (p : pgptr) (c c' : PCache) (h : PgHdr) :
  load p c = (c', Ok h) -> c' = c /\ exists a, p = Some a /\ mem c !! a = Some h.
Proof.
  unfold load. destruct p as [a|]; [|done].
  destruct (mem c !! a) as [h'|] eqn:E; [|done].
  intros [= <- <-]. eauto.
Qed.

Lemma load_ok (a : nat) (c : PCache) (h : PgHdr) :
  mem c !! a = Some h -> load (Some a) c = (c, Ok h).
Proof. intros E. unfold load. by rewrite E. Qed.

Lemma store_ok (a : nat) (f : PgHdr -> PgHdr) (c : PCache) (h : PgHdr) :
  mem c !! a = Some h ->
  store (Some a) f c = (set_mem (<[a := f h]> (mem c)) c, Ok tt).
Proof. intros E. unfold store. by rewrite (bind_run_ok _ _ _ _ _ (load_ok a c h E)). Qed.

Lemma store_inv (p : pgptr) (f : PgHdr -> PgHdr) (c c' : PCache) (u : unit) :
  store p f c = (c', Ok u) ->
  exists a h, p = Some a /\ mem c !! a = Some h /\ c' = set_mem (<[a := f h]> (mem c)) c.
Proof.
  unfold store. intros H. apply bind_ok_inv in H as (h & c1 & Hl & H).
  apply load_inv in Hl as (-> & a & -> & Hm).
  injection H as <-. eauto.
Qed.

(** ** Relations that every step of a computation keeps *)

Lemma keeps_bind {A B} (R : relation PCache) `{!PreOrder R} (m : M PCache A)
    (f : A -> M PCache B) :
  keeps R m -> (forall a, keeps R (f a)) -> keeps R (m ≫= f).
Proof.
  intros Hm Hf c c' b H. apply bind_ok_inv in H as (a & c1 & H1 & H2).
  transitivity c1; [by eapply Hm | by eapply Hf].
Qed.

Lemma keeps_ret {A} (R : relation PCache) `{!PreOrder R} (a : A) : keeps R (mret a).
Proof. intros c c' a' [= <- _]. reflexivity. Qed.

Lemma keeps_get (R : relation PCache) `{!PreOrder R} : keeps R get.
Proof. intros c c' a' [= <- _]. reflexivity. Qed.

Lemma keeps_lift {A} (R : relation PCache) `{!PreOrder R} (r : result A) : keeps R (lift r).
Proof. intros c c' a' [= <- _]. reflexivity. Qed.

Lemma keeps_load (R : relation PCache) `{!PreOrder R} (p : pgptr) : keeps R (load p).
Proof. intros c c' h H. apply load_inv in H as [-> _]. reflexivity. Qed.

Lemma keeps_modify (R : relation PCache) (f : PCache -> PCache) :
  (forall c, R c (f c)) -> keeps R (modify f).
Proof. intros Hf c c' a' [= <- _]. apply Hf. Qed.

Lemma keeps_panic {A} (R : relation PCache) (msg : string) : keeps R (@panic PCache A msg).
Proof. intros c c' a' [=]. Qed.

Lemma keeps_out_of_fuel {A} (R : relation PCache) : keeps R (@out_of_fuel PCache A).
Proof. intros c c' a' [=]. Qed.

Lemma keeps_go_rem (R : relation PCache) `{!PreOrder R} (a b : Z) : keeps R (go_rem a b).
Proof. unfold go_rem. destruct (b =? 0); [apply keeps_panic | by apply keeps_ret]. Qed.

#[local] Instance same_flags_preorder : PreOrder same_flags.
Proof.
  split.
  - intros c a h Hh. eauto.
  - intros c1 c2 c3 H12 H23 a h Hh.
    destruct (H12 a h Hh) as (h2 & Hh2 & E2).
    destruct (H23 a h2 Hh2) as (h3 & Hh3 & E3).
    exists h3. split; [done | congruence].
Qed.

Lemma same_flags_mem (c c' : PCache) : mem c' = mem c -> same_flags c c'.
Proof. intros E a h Hh. rewrite E. eauto. Qed.

Lemma keeps_flags_store (p : pgptr) (f : PgHdr -> PgHdr) :
  (forall h, flags (f h) = flags h) -> keeps same_flags (store p f).
Proof.
  intros Hf c c' u H. apply store_inv in H as (a & h & -> & Hm & ->).
  intros b hb Hb. simpl. destruct (decide (a = b)) as [->|Hne].
  - rewrite list_lookup_insert_eq by (by eapply lookup_lt_Some).
    exists (f h). split; [done|]. rewrite Hf. congruence.
  - rewrite list_lookup_insert_ne by done. eauto.
Qed.

Lemma ManageDirtyList_flags (p : pgptr) (op : Z) : keeps same_flags (ManageDirtyList p op).
Proof.
  unfold ManageDirtyList.
  repeat first
    [ apply keeps_flags_store; by intros []
    | apply keeps_load; apply _
    | apply keeps_modify; intros ?; by apply same_flags_mem
    | apply keeps_ret; apply _
    | apply keeps_get; apply _
    | apply keeps_bind; [apply _ | | intros ?]
    | case_bool_decide ].
Qed.


(** ** Calls that return *)

Lemma returns_bind {A B} (m : M PCache A) (f : A -> M PCache B) (c : PCache)
    (Q : B -> PCache -> Prop) :
  returns m c (fun a c' => returns (f a) c' Q) -> returns (m ≫= f) c Q.
Proof.
  intros (a & c1 & Hm & b & c2 & Hf & HQ). exists b, c2.
  by rewrite (bind_run_ok _ _ _ _ _ Hm).
Qed.

Lemma returns_ret {A} (a : A) (c : PCache) (Q : A -> PCache -> Prop) :
  Q a c -> returns (mret a) c Q.
Proof. intros HQ. by exists a, c. Qed.

Lemma returns_get (c : PCache) (Q : PCache -> PCache -> Prop) :
  Q c c -> returns get c Q.
Proof. intros HQ. by exists c, c. Qed.

Lemma returns_modify (f : PCache -> PCache) (c : PCache) (Q : unit -> PCache -> Prop) :
  Q tt (f c) -> returns (modify f) c Q.
Proof. intros HQ. by exists tt, (f c). Qed.

Lemma returns_lift {A} (a : A) (c : PCache) (Q : A -> PCache -> Prop) :
  Q a c -> returns (lift (Ok a)) c Q.
Proof. intros HQ. by exists a, c. Qed.

Lemma returns_load (a : nat) (h : PgHdr) (c : PCache) (Q : PgHdr -> PCache -> Prop) :
  mem c !! a = Some h -> Q h c -> returns (load (Some a)) c Q.
Proof. intros Hh HQ. exists h, c. by rewrite (load_ok a c h Hh). Qed.

Lemma returns_store (a : nat) (h : PgHdr) (f : PgHdr -> PgHdr) (c : PCache)
    (Q : unit -> PCache -> Prop) :
  mem c !! a = Some h -> Q tt (set_mem (<[a := f h]> (mem c)) c) ->
  returns (store (Some a) f) c Q.
Proof. intros Hh HQ. eexists tt, _. by rewrite (store_ok a f c h Hh). Qed.

Lemma returns_wand {A} (m : M PCache A) (c : PCache) (Q Q' : A -> PCache -> Prop) :
  returns m c Q -> (forall a c', Q a c' -> Q' a c') -> returns m c Q'.
Proof. intros (a & c' & Hm & HQ) HQQ'. exists a, c'. auto. Qed.

Lemma returns_run {A} (m : M PCache A) (c : PCache) (Q : A -> PCache -> Prop) :
  returns m c Q -> exists a c', m c = (c', Ok a) /\ Q a c'.
Proof. done. Qed.

(** ** The dirty list *)

Lemma lookup_store (l : list PgHdr) (a x : nat) (h v : PgHdr) :
  l !! a = Some h ->
  <[a := v]> l !! x = if decide (a = x) then Some v else l !! x.
Proof.
  intros Hh. apply lookup_lt_Some in Hh. destruct (decide (a = x)) as [<-|Hne].
  - by apply list_lookup_insert_eq.
  - by apply list_lookup_insert_ne.
Qed.

Lemma filter_ne_delete (L : list nat) (i a : nat) :
  NoDup L -> L !! i = Some a -> filter (fun x => x <> a) L = delete i L.
Proof.
  revert i. induction L as [|x L IH]; intros i Hnd Hi; [done|].
  apply NoDup_cons in Hnd as [Hx Hnd].
  destruct i as [|i]; simpl in *.
  - injection Hi as ->. rewrite filter_cons_False by naive_solver.
    clear IH. induction L as [|y L IH]; [done|].
    apply not_elem_of_cons in Hx as [Hne Hx]. apply NoDup_cons in Hnd as [_ Hnd].
    rewrite filter_cons_True by done. f_equal. auto.
  - rewrite filter_cons_True.
    + f_equal. by apply IH.
    + intros ->. apply Hx. by eapply list_elem_of_lookup_2.
Qed.

Lemma filter_ne_absent (L : list nat) (a : nat) :
  a ∉ L -> filter (fun x => x <> a) L = L.
Proof.
  induction L as [|x L IH]; [done|]. intros [Hne Hx]%not_elem_of_cons.
  rewrite filter_cons_True by done. f_equal. auto.
Qed.

Lemma ManageDirtyList_add (c : PCache) (L : list nat) (a : nat) (h : PgHdr) :
  dirty_links c L -> NoDup L -> a ∉ L -> mem c !! a = Some h -> pDirtyPrev h = None ->
  returns (ManageDirtyList (Some a) PCACHE_DIRTYLIST_ADD) c (fun _ c' =>
    dirty_links c' (a :: L)
    /\ (forall x, flags <$> mem c' !! x = flags <$> mem c !! x)
    /\ (forall x, x ∉ a :: L -> mem c' !! x = mem c !! x)).
Proof.
  intros (Hhead & Htail & Hlinks) Hnd Ha Hh Hprev.
  unfold ManageDirtyList. apply returns_bind. simpl bool_decide. cbn iota.
  apply returns_ret. apply returns_bind, returns_get.
  apply returns_bind, (returns_store a h); [done|].
  set (h1 := set_pDirtyNext (pDirty c) h).
  apply returns_bind, (returns_load a h1).
  { simpl. apply list_lookup_insert_eq. by eapply lookup_lt_Some. }
  apply returns_bind.
  destruct L as [|n L].
  - assert (Hnil : pDirty c = None) by done.
    rewrite bool_decide_eq_false_2 by (simpl; rewrite Hnil; naive_solver).
    apply returns_modify, returns_modify. unfold dirty_links. simpl.
    split; [|split].
    + split; [done|]. split; [done|].
      intros [|i] x Hx; [|done]. injection Hx as <-.
      exists h1. rewrite (lookup_store _ _ _ h) by done. rewrite decide_True by done.
      subst h1. simpl. by rewrite Hnil, Hprev.
    + intros x. rewrite (lookup_store _ _ _ h) by done.
      case_decide as E; [subst; by rewrite Hh | done].
    + intros x Hx. apply not_elem_of_cons in Hx as [Hx _].
      rewrite (lookup_store _ _ _ h) by done. by rewrite decide_False.
  - assert (Hn : pDirty c = Some n) by done.
    assert (Hna : a <> n) by (intros ->; apply Ha; left).
    destruct (Hlinks 0%nat n eq_refl) as (hn & Hhn & Hnn & Hnp).
    rewrite bool_decide_eq_true_2 by (simpl; rewrite Hn; naive_solver).
    simpl pDirtyNext. rewrite Hn.
    apply (returns_store n hn).
    { simpl. rewrite (lookup_store _ _ _ h) by done. by rewrite decide_False. }
    apply returns_modify. unfold dirty_links. simpl.
    assert (Hmid : <[a:=h1]> (mem c) !! n = Some hn).
    { rewrite (lookup_store _ _ _ h) by done. by rewrite decide_False. }
    split; [|split].
    + split; [done|]. split.
      { rewrite Htail. symmetry. apply (last_cons_cons a n L). }
      intros [|i] x Hx.
      * injection Hx as <-. exists h1.
        rewrite (lookup_store _ _ _ hn), decide_False by done.
        rewrite (lookup_store _ _ _ h), decide_True by done.
        subst h1. simpl. by rewrite Hn, Hprev.
      * simpl in Hx. destruct (Hlinks i x Hx) as (hx & Hhx & Hxn & Hxp).
        assert (x <> a) by (intros ->; apply Ha; by eapply list_elem_of_lookup_2).
        rewrite (lookup_store _ _ _ hn) by done.
        destruct i as [|i].
        -- injection Hx as <-. rewrite decide_True by done.
           eexists. split; [done|]. simpl. rewrite Hhn in Hhx. injection Hhx as <-. done.
        -- rewrite decide_False.
           2:{ intros <-. apply (NoDup_lookup _ 0%nat (S i) n) in Hx; try done. }
           rewrite (lookup_store _ _ _ h), decide_False by done.
           exists hx. done.
    + intros x. rewrite (lookup_store _ _ _ hn) by done.
      case_decide as E; [subst; simpl|].
      * by rewrite Hhn.
      * rewrite (lookup_store _ _ _ h) by done.
        case_decide; [subst; by rewrite Hh | done].
    + intros x Hx. apply not_elem_of_cons in Hx as [Hxa Hx].
      apply not_elem_of_cons in Hx as [Hxn Hx].
      rewrite (lookup_store _ _ _ hn), decide_False by done.
      by rewrite (lookup_store _ _ _ h), decide_False.
Qed.

(** The two relinking steps of the REMOVE half, each described entry by
    entry. *)
Lemma relink_next (c : PCache) (next prev : pgptr) :
  (forall n, next = Some n -> is_Some (mem c !! n)) ->
  returns (if bool_decide (next <> None) then store next (set_pDirtyPrev prev)
           else modify (set_pDirtyTail prev)) c (fun _ c1 =>
    pDirty c1 = pDirty c
    /\ pDirtyTail c1 = match next with Some _ => pDirtyTail c | None => prev end
    /\ forall x, mem c1 !! x =
         if decide (next = Some x) then set_pDirtyPrev prev <$> mem c !! x else mem c !! x).
Proof.
  intros Hvalid. destruct next as [n|].
  - destruct (Hvalid n eq_refl) as [hn Hn].
    rewrite bool_decide_eq_true_2 by done.
    apply (returns_store n hn); [done|]. simpl. split; [done|]. split; [done|].
    intros x. rewrite (lookup_store _ _ _ hn) by done.
    destruct (decide (n = x)) as [<-|Hne].
    + case_decide; [by rewrite Hn | done].
    + case_decide; [naive_solver | done].
  - rewrite bool_decide_eq_false_2 by naive_solver.
    apply returns_modify. simpl. split; [done|]. split; [done|].
    intros x. try case_decide; done.
Qed.

Lemma relink_prev (c : PCache) (next prev : pgptr) :
  (forall q, prev = Some q -> is_Some (mem c !! q)) ->
  returns (if bool_decide (prev <> None) then store prev (set_pDirtyNext next)
           else modify (set_pDirty next)) c (fun _ c1 =>
    pDirtyTail c1 = pDirtyTail c
    /\ pDirty c1 = match prev with Some _ => pDirty c | None => next end
    /\ forall x, mem c1 !! x =
         if decide (prev = Some x) then set_pDirtyNext next <$> mem c !! x else mem c !! x).
Proof.
  intros Hvalid. destruct prev as [q|].
  - destruct (Hvalid q eq_refl) as [hq Hq].
    rewrite bool_decide_eq_true_2 by done.
    apply (returns_store q hq); [done|]. simpl. split; [done|]. split; [done|].
    intros x. rewrite (lookup_store _ _ _ hq) by done.
    destruct (decide (q = x)) as [<-|Hne].
    + case_decide; [by rewrite Hq | done].
    + case_decide; [naive_solver | done].
  - rewrite bool_decide_eq_false_2 by naive_solver.
    apply returns_modify. simpl. split; [done|]. split; [done|].
    intros x. try case_decide; done.
Qed.

(** The state the REMOVE half ends in, entry by entry. *)
Lemma ManageDirtyList_remove_run (c : PCache) (a : nat) (h : PgHdr) :
  mem c !! a = Some h ->
  (forall n, pDirtyNext h = Some n -> n <> a /\ is_Some (mem c !! n)) ->
  (forall q, pDirtyPrev h = Some q -> q <> a /\ is_Some (mem c !! q)) ->
  returns (ManageDirtyList (Some a) PCACHE_DIRTYLIST_REMOVE) c (fun _ c' =>
    pDirty c' = match pDirtyPrev h with Some _ => pDirty c | None => pDirtyNext h end
    /\ pDirtyTail c' = match pDirtyNext h with Some _ => pDirtyTail c | None => pDirtyPrev h end
    /\ forall x, mem c' !! x =
         if decide (a = x) then Some (set_pDirtyPrev None (set_pDirtyNext None h))
         else if decide (pDirtyPrev h = Some x)
              then set_pDirtyNext (pDirtyNext h) <$>
                     (if decide (pDirtyNext h = Some x)
                      then set_pDirtyPrev (pDirtyPrev h) <$> mem c !! x else mem c !! x)
              else if decide (pDirtyNext h = Some x)
                   then set_pDirtyPrev (pDirtyPrev h) <$> mem c !! x else mem c !! x).
Proof.
  intros Hh Hnext Hprev. unfold ManageDirtyList.
  apply returns_bind. simpl bool_decide. cbn iota.
  apply returns_bind, (returns_load a h); [done|].
  apply returns_bind.
  eapply returns_wand; [apply relink_next; intros n Hn; by apply Hnext|].
  intros _ c1 (Hd1 & Ht1 & Hm1). simpl.
  apply returns_bind.
  eapply returns_wand.
  { apply relink_prev. intros q Hq. destruct (Hprev q Hq) as [_ [hq Hhq]].
    rewrite Hm1, Hhq. by case_decide. }
  intros _ c2 (Ht2 & Hd2 & Hm2). simpl.
  assert (Ha2 : mem c2 !! a = Some h).
  { rewrite Hm2, Hm1.
    case_decide as E; [by destruct (Hprev a E)|].
    case_decide as E'; [by destruct (Hnext a E')|]. done. }
  apply returns_bind, (returns_store a h); [done|].
  apply (returns_store a (set_pDirtyNext None h)).
  { simpl. apply list_lookup_insert_eq. by eapply lookup_lt_Some. }
  simpl bool_decide. cbn iota. apply returns_ret. simpl.
  rewrite Hd2, Ht2, Hd1, Ht1. split; [done|]. split; [done|].
  intros x. rewrite list_insert_insert_eq, (lookup_store _ _ _ h) by done.
  case_decide; [done|]. by rewrite Hm2, Hm1.
Qed.

Lemma ManageDirtyList_remove (c : PCache) (L : list nat) (i a : nat) :
  dirty_links c L -> NoDup L -> L !! i = Some a ->
  returns (ManageDirtyList (Some a) PCACHE_DIRTYLIST_REMOVE) c (fun _ c' =>
    dirty_links c' (delete i L)
    /\ (forall x, flags <$> mem c' !! x = flags <$> mem c !! x)
    /\ (forall x, x ∉ L -> mem c' !! x = mem c !! x)
    /\ exists h', mem c' !! a = Some h' /\ pDirtyPrev h' = None).
Proof.
  intros (Hhead & Htail & Hlinks) Hnd Hi.
  destruct (Hlinks i a Hi) as (h & Hh & Hhn & Hhp).
  assert (Hidx : forall k x, L !! k = Some x -> (x = a <-> k = i)).
  { intros k x Hk. split; [intros ->; by eapply NoDup_lookup | intros ->; congruence]. }
  assert (Hnext : forall n, pDirtyNext h = Some n -> n <> a /\ is_Some (mem c !! n)).
  { intros n Hn. rewrite Hhn in Hn. split.
    - intros E. apply (Hidx _ _ Hn) in E. lia.
    - destruct (Hlinks _ _ Hn) as (hn & -> & _). eauto. }
  assert (Hprev : forall q, pDirtyPrev h = Some q -> q <> a /\ is_Some (mem c !! q)).
  { intros q Hq. rewrite Hhp in Hq. destruct i as [|i']; [done|]. split.
    - intros E. apply (Hidx _ _ Hq) in E. lia.
    - destruct (Hlinks _ _ Hq) as (hq & -> & _). eauto. }
  eapply returns_wand; [by apply (ManageDirtyList_remove_run c a h)|].
  intros _ c' (Hd & Ht & Hm). rewrite Hhn, Hhp in Hd, Ht, Hm.
  assert (Hlen : (i < length L)%nat) by (by eapply lookup_lt_Some).
  split; [|split; [|split]].
  - split; [|split].
    + rewrite Hd. destruct i as [|i'].
      * by rewrite list_lookup_delete_ge by lia.
      * destruct (lookup_lt_is_Some_2 L i' ltac:(lia)) as [q ->].
        by rewrite list_lookup_delete_lt by lia.
    + rewrite Ht, last_lookup, length_delete by eauto.
      destruct (L !! S i) as [n|] eqn:En.
      * apply lookup_lt_Some in En.
        rewrite Htail, last_lookup, list_lookup_delete_ge by lia.
        f_equal. lia.
      * apply lookup_ge_None in En. destruct i as [|i'].
        -- rewrite list_lookup_delete_ge by lia. symmetry. apply lookup_ge_None. lia.
        -- rewrite list_lookup_delete_lt by lia. f_equal. lia.
    + intros j x Hx. rewrite list_lookup_delete in Hx. rewrite Hm.
      case_decide as Hji.
      * (* before the removed entry *)
        destruct (Hlinks j x Hx) as (hx & Hhx & Hxn & Hxp).
        pose proof (Hidx j x Hx) as Hxa.
        rewrite decide_False by (intros ->; lia).
        assert (Hnx : L !! S i <> Some x).
        { intros E. pose proof (NoDup_lookup _ _ _ _ Hnd E Hx). lia. }
        destruct (decide (S j = i)) as [<-|Hne].
        -- rewrite decide_True by done. rewrite decide_False by done.
           rewrite Hhx. eexists. split; [done|]. simpl.
           rewrite list_lookup_delete_ge by lia. split; [done|].
           rewrite Hxp. destruct j as [|j']; [done|].
           by rewrite list_lookup_delete_lt by lia.
        -- rewrite decide_False.
           2:{ destruct i as [|i']; [done|]. intros E.
               pose proof (NoDup_lookup _ _ _ _ Hnd E Hx). lia. }
           rewrite decide_False by done.
           exists hx. split; [done|].
           rewrite list_lookup_delete_lt by lia. split; [done|].
           rewrite Hxp. destruct j as [|j']; [done|].
           by rewrite list_lookup_delete_lt by lia.
      * (* after the removed entry *)
        destruct (Hlinks (S j) x Hx) as (hx & Hhx & Hxn & Hxp).
        pose proof (Hidx (S j) x Hx) as Hxa.
        rewrite decide_False by (intros ->; lia).
        rewrite decide_False.
        2:{ destruct i as [|i']; [done|]. intros E.
            pose proof (NoDup_lookup _ _ _ _ Hnd E Hx). lia. }
        rewrite list_lookup_delete_ge by lia.
        destruct (decide (j = i)) as [->|Hne].
        -- rewrite decide_True by done. rewrite Hhx.
           eexists. split; [done|]. simpl. split; [done|].
           destruct i as [|i']; [done|]. by rewrite list_lookup_delete_lt by lia.
        -- rewrite decide_False.
           2:{ intros E. pose proof (NoDup_lookup _ _ _ _ Hnd E Hx). lia. }
           exists hx. split; [done|]. split; [done|].
           rewrite Hxp. destruct j as [|j']; [lia|].
           by rewrite list_lookup_delete_ge by lia.
  - intros x. rewrite Hm. case_decide as E; [subst; by rewrite Hh|].
    repeat case_decide; destruct (mem c !! x); done.
  - intros x Hx. rewrite Hm.
    rewrite decide_False by (intros ->; apply Hx; by eapply list_elem_of_lookup_2).
    rewrite decide_False.
    2:{ destruct i as [|i']; [done|]. intros E. apply Hx. by eapply list_elem_of_lookup_2. }
    rewrite decide_False; [done|]. intros E. apply Hx. by eapply list_elem_of_lookup_2.
  - rewrite Hm, decide_True by done. eauto.
Qed.

(** ** The flag masks *)

Section Flags.
Context `{FlagsOk}.

Lemma land_clean (x : Z) : Z.land x PGHDR_CLEAN <> 0 -> Z.land x PGHDR_CLEAN = PGHDR_CLEAN.
Proof.
  destruct clean_one_bit as (n & Hn & ->). intros Hx.
  apply Z.bits_inj'. intros i Hi. rewrite Z.land_spec, Z.pow2_bits_eqb by done.
  destruct (Z.eqb_spec n i) as [->|Hne]; [|by rewrite andb_false_r].
  rewrite andb_true_r. destruct (Z.testbit x i) eqn:E; [done|].
  exfalso. apply Hx. apply Z.bits_inj'. intros j Hj.
  rewrite Z.land_spec, Z.pow2_bits_eqb, Z.bits_0 by done.
  destruct (Z.eqb_spec i j) as [->|]; [by rewrite E | by rewrite andb_false_r].
Qed.

Lemma clean_nonzero : PGHDR_CLEAN <> 0.
Proof. destruct clean_one_bit as (n & Hn & ->). lia. Qed.

Ltac bitwise Hd i :=
  pose proof clean_dirty_disjoint as Hd;
  apply Z.bits_inj'; intros i ?;
  apply (f_equal (fun z => Z.testbit z i)) in Hd;
  rewrite Z.land_spec, Z.bits_0 in Hd.

Lemma dirtied_not_clean (x : Z) :
  Z.land x PGHDR_CLEAN <> 0 ->
  Z.land (Z.lxor x (Z.lor PGHDR_DIRTY PGHDR_CLEAN)) PGHDR_CLEAN = 0.
Proof.
  intros Hx. pose proof (land_clean x Hx) as Hc. bitwise Hd i.
  apply (f_equal (fun z => Z.testbit z i)) in Hc. rewrite Z.land_spec in Hc.
  rewrite Z.land_spec, Z.lxor_spec, Z.lor_spec, Z.bits_0.
  destruct (Z.testbit x i), (Z.testbit PGHDR_CLEAN i), (Z.testbit PGHDR_DIRTY i); done.
Qed.

Lemma dirtied_dirty (x : Z) :
  Z.land x PGHDR_DIRTY = 0 ->
  Z.land (Z.lxor x (Z.lor PGHDR_DIRTY PGHDR_CLEAN)) PGHDR_DIRTY = PGHDR_DIRTY.
Proof.
  intros Hx. bitwise Hd i.
  apply (f_equal (fun z => Z.testbit z i)) in Hx. rewrite Z.land_spec, Z.bits_0 in Hx.
  rewrite Z.land_spec, Z.lxor_spec, Z.lor_spec.
  destruct (Z.testbit x i), (Z.testbit PGHDR_CLEAN i), (Z.testbit PGHDR_DIRTY i); done.
Qed.

Lemma cleaned_not_dirty (x : Z) :
  Z.land (Z.lor (Z.land x (Z.lnot (Z.lor (Z.lor PGHDR_DIRTY PGHDR_NEED_SYNC) PGHDR_WRITEABLE)))
            PGHDR_CLEAN) PGHDR_DIRTY = 0.
Proof.
  bitwise Hd i.
  rewrite Z.land_spec, !Z.lor_spec, Z.land_spec, Z.lnot_spec, !Z.lor_spec, Z.bits_0 by done.
  destruct (Z.testbit x i), (Z.testbit PGHDR_CLEAN i), (Z.testbit PGHDR_DIRTY i),
    (Z.testbit PGHDR_NEED_SYNC i), (Z.testbit PGHDR_WRITEABLE i); done.
Qed.

Lemma cleaned_clean (x : Z) : Z.land (Z.lor x PGHDR_CLEAN) PGHDR_CLEAN = PGHDR_CLEAN.
Proof.
  apply Z.bits_inj'. intros i Hi. rewrite Z.land_spec, Z.lor_spec.
  destruct (Z.testbit x i), (Z.testbit PGHDR_CLEAN i); done.
Qed.

(** ** The dirty-list invariant *)

Lemma flags_at (c c' : PCache) (x : nat) (hx' : PgHdr) :
  flags <$> mem c' !! x = flags <$> mem c !! x -> mem c' !! x = Some hx' ->
  exists hx, mem c !! x = Some hx /\ flags hx' = flags hx.
Proof.
  intros E Hx. rewrite Hx in E. simpl in E. symmetry in E.
  apply fmap_Some in E as (hx & Hhx & Hfl). eauto.
Qed.

Lemma dirty_links_frame (c c' : PCache) (L : list nat) :
  pDirty c' = pDirty c -> pDirtyTail c' = pDirtyTail c ->
  (forall x, x ∈ L -> mem c' !! x = mem c !! x) ->
  dirty_links c L -> dirty_links c' L.
Proof.
  intros Hd Ht Hm (Hhead & Htail & Hlinks).
  split; [congruence|]. split; [congruence|].
  intros i x Hx. rewrite Hm by (by eapply list_elem_of_lookup_2). by apply Hlinks.
Qed.

Lemma dirty_links_set_flags (c : PCache) (L : list nat) (a : nat) (h : PgHdr) (v : Z) :
  mem c !! a = Some h -> dirty_links c L ->
  dirty_links (set_mem (<[a := set_flags v h]> (mem c)) c) L.
Proof.
  intros Hh (Hhead & Htail & Hlinks). split; [done|]. split; [done|].
  intros i x Hx. destruct (Hlinks i x Hx) as (hx & Hhx & Hn & Hp). simpl.
  rewrite (lookup_store _ _ _ h) by done. case_decide as E.
  - subst x. rewrite Hh in Hhx. injection Hhx as <-. eexists. split; [done|]. done.
  - eauto.
Qed.

Lemma MakeDirty_keeps (c : PCache) (L : list nat) (a : nat) (h : PgHdr) :
  DirtyInv c L -> mem c !! a = Some h ->
  returns (MakeDirty (Some a)) c (fun _ c' =>
    DirtyInv c' (if decide (is_clean h) then a :: L else L)).
Proof.
  intros [Hnd Hlk Hiff Hnc Hoff] Hh. unfold MakeDirty.
  apply returns_bind, (returns_load a h); [done|].
  destruct (decide (is_clean h)) as [Hc|Hc].
  2:{ rewrite bool_decide_eq_false_2 by done. apply returns_ret. by split. }
  rewrite bool_decide_eq_true_2 by done.
  assert (Hnd' : ~ is_dirty h) by (by eapply Hnc).
  assert (Ha : a ∉ L) by (intros Hin; by apply (Hiff a h Hh) in Hin).
  apply returns_bind, (returns_store a h); [done|].
  set (h1 := set_flags (Z.lxor (flags h) (Z.lor PGHDR_DIRTY PGHDR_CLEAN)) h).
  set (c1 := set_mem (<[a := h1]> (mem c)) c).
  assert (Hh1 : mem c1 !! a = Some h1).
  { simpl. apply list_lookup_insert_eq. by eapply lookup_lt_Some. }
  assert (Hm1 : forall x, x <> a -> mem c1 !! x = mem c !! x).
  { intros x Hx. simpl. by apply list_lookup_insert_ne. }
  eapply returns_wand.
  { apply (ManageDirtyList_add c1 L a h1); try done.
    - by apply dirty_links_set_flags.
    - simpl. by eapply Hoff. }
  intros _ c' (Hlk' & Hfl & Hfr).
  assert (Hdirty1 : Z.land (flags h1) PGHDR_DIRTY = PGHDR_DIRTY).
  { simpl. apply dirtied_dirty. unfold is_dirty in Hnd'. lia. }
  assert (Hclean1 : Z.land (flags h1) PGHDR_CLEAN = 0) by (by apply dirtied_not_clean).
  split.
  - by apply NoDup_cons.
  - done.
  - intros x hx' Hx'. destruct (flags_at _ _ _ _ (Hfl x) Hx') as (hx1 & Hx1 & E).
    unfold is_dirty. rewrite E. destruct (decide (x = a)) as [->|Hne].
    + rewrite Hh1 in Hx1. injection Hx1 as <-. rewrite Hdirty1.
      split; [intros _; apply dirty_nonzero | intros _; left].
    + rewrite Hm1 in Hx1 by done. rewrite <- (Hiff x hx1 Hx1).
      rewrite elem_of_cons. tauto.
  - intros x hx' Hx'. destruct (flags_at _ _ _ _ (Hfl x) Hx') as (hx1 & Hx1 & E).
    unfold is_clean, is_dirty. rewrite E. destruct (decide (x = a)) as [->|Hne].
    + rewrite Hh1 in Hx1. injection Hx1 as <-. rewrite Hclean1. done.
    + rewrite Hm1 in Hx1 by done. by apply (Hnc x).
  - intros x hx' Hx' Hnot. rewrite (Hfr x Hnot) in Hx'.
    apply not_elem_of_cons in Hnot as [Hne Hnot].
    rewrite Hm1 in Hx' by done. by eapply Hoff.
Qed.

Lemma store_twice (c : PCache) (a : nat) (h : PgHdr) (f g : PgHdr -> PgHdr) :
  mem c !! a = Some h ->
  returns (store (Some a) f ≫= fun _ => store (Some a) g) c (fun _ c' =>
    mem c' = <[a := g (f h)]> (mem c)
    /\ pDirty c' = pDirty c /\ pDirtyTail c' = pDirtyTail c).
Proof.
  intros Hh. apply returns_bind, (returns_store a h); [done|].
  eapply (returns_store a).
  { simpl. apply list_lookup_insert_eq. by eapply lookup_lt_Some. }
  simpl. by rewrite list_insert_insert_eq.
Qed.

Lemma MakeClean_keeps (c : PCache) (L : list nat) (a : nat) (h : PgHdr) :
  DirtyInv c L -> mem c !! a = Some h ->
  returns (MakeClean (Some a)) c (fun _ c' =>
    DirtyInv c' (filter (fun x => x <> a) L)
    /\ (forall x, x <> a -> flags <$> mem c' !! x = flags <$> mem c !! x)
    /\ (is_dirty h -> exists h', mem c' !! a = Some h' /\ is_clean h')).
Proof.
  intros [Hnd Hlk Hiff Hnc Hoff] Hh. unfold MakeClean.
  apply returns_bind, (returns_load a h); [done|].
  destruct (decide (is_dirty h)) as [Hd|Hd].
  2:{ rewrite bool_decide_eq_false_2 by done. apply returns_ret.
      assert (Ha : a ∉ L) by (intros Hin; by apply (Hiff a h Hh) in Hin).
      rewrite filter_ne_absent by done. split; [by split|]. split; [done|]. done. }
  rewrite bool_decide_eq_true_2 by done.
  assert (Ha : a ∈ L) by (by apply (Hiff a h Hh)).
  apply list_elem_of_lookup_1 in Ha as [i Hi].
  rewrite (filter_ne_delete L i a Hnd Hi).
  apply returns_bind.
  eapply returns_wand; [by apply (ManageDirtyList_remove c L i a)|].
  intros _ c1 (Hlk1 & Hfl1 & Hfr1 & h1 & Hh1 & Hp1).
  eapply returns_wand; [by apply (store_twice c1 a h1)|].
  intros _ c2 (Hmem2 & Hd2 & Ht2).
  match type of Hmem2 with _ = <[a := ?v]> _ => set (h2 := v) in * end.
  assert (Hh2 : mem c2 !! a = Some h2).
  { rewrite Hmem2. apply list_lookup_insert_eq. by eapply lookup_lt_Some. }
  assert (Hm2 : forall x, x <> a -> mem c2 !! x = mem c1 !! x).
  { intros x Hx. rewrite Hmem2. by apply list_lookup_insert_ne. }
  assert (Hnd2 : Z.land (flags h2) PGHDR_DIRTY = 0) by apply cleaned_not_dirty.
  assert (Hcl2 : Z.land (flags h2) PGHDR_CLEAN = PGHDR_CLEAN) by apply cleaned_clean.
  assert (Hdel : forall x, x ∈ delete i L <-> x ∈ L /\ x <> a).
  { intros x. rewrite <- (filter_ne_delete L i a Hnd Hi), list_elem_of_filter. tauto. }
  assert (Hflags : forall x, x <> a -> flags <$> mem c2 !! x = flags <$> mem c !! x).
  { intros x Hx. by rewrite Hm2, Hfl1. }
  split; [|split].
  - split.
    + rewrite <- (filter_ne_delete L i a Hnd Hi). by apply NoDup_filter.
    + apply (dirty_links_frame c1); try done.
      intros x Hx. apply Hdel in Hx as [_ Hx]. by apply Hm2.
    + intros x hx' Hx'. rewrite Hdel. destruct (decide (x = a)) as [->|Hne].
      * rewrite Hh2 in Hx'. injection Hx' as <-. unfold is_dirty. rewrite Hnd2.
        tauto.
      * destruct (flags_at _ _ _ _ (Hflags x Hne) Hx') as (hx & Hx & E).
        unfold is_dirty. rewrite E. rewrite (Hiff x hx Hx). unfold is_dirty. tauto.
    + intros x hx' Hx'. destruct (decide (x = a)) as [->|Hne].
      * rewrite Hh2 in Hx'. injection Hx' as <-. unfold is_dirty. rewrite Hnd2. auto.
      * destruct (flags_at _ _ _ _ (Hflags x Hne) Hx') as (hx & Hx & E).
        unfold is_clean, is_dirty. rewrite E. by apply (Hnc x).
    + intros x hx' Hx' Hnot. destruct (decide (x = a)) as [->|Hne].
      * rewrite Hh2 in Hx'. injection Hx' as <-. done.
      * assert (HxL : x ∉ L) by (intros HxL; apply Hnot, Hdel; done).
        rewrite Hm2, (Hfr1 x HxL) in Hx' by done. by eapply Hoff.
  - done.
  - intros _. exists h2. split; [done|]. unfold is_clean. rewrite Hcl2. apply clean_nonzero.
Qed.

Lemma MakeCleanAll_drains (L : list nat) :
  forall (fuel : nat) (c : PCache),
    DirtyInv c L -> (length L <= fuel)%nat ->
    returns (MakeCleanAll fuel) c (fun _ c' =>
      DirtyInv c' [] /\ pDirty c' = None /\ pDirtyTail c' = None
      /\ forall x hx, mem c !! x = Some hx ->
           exists hx', mem c' !! x = Some hx'
                       /\ (x ∈ L -> is_clean hx') /\ (x ∉ L -> flags hx' = flags hx)).
Proof.
  induction L as [|a L IH]; intros fuel c Hinv Hfuel.
  - pose proof (dirty_linked _ _ Hinv) as (Hhead & Htail & _).
    assert (MakeCleanAll fuel c = (c, Ok tt)) as Hrun.
    { destruct fuel; simpl; rewrite bind_run; unfold get at 1;
        by rewrite bool_decide_eq_false_2 by (rewrite Hhead; naive_solver). }
    exists tt, c. split; [done|]. split; [done|]. split; [done|]. split; [done|].
    intros x hx Hx. exists hx. split; [done|]. split; [by intros ?%elem_of_nil | done].
  - destruct fuel as [|fuel]; [simpl in Hfuel; lia|].
    pose proof (dirty_linked _ _ Hinv) as (Hhead & Htail & Hlinks).
    destruct (Hlinks 0%nat a eq_refl) as (h & Hh & _).
    assert (Hd : is_dirty h) by (apply (dirty_iff_flag _ _ Hinv a h Hh); left).
    pose proof (dirty_nodup _ _ Hinv) as Hnd. apply NoDup_cons in Hnd as [Ha HndL].
    cbn [MakeCleanAll]. apply returns_bind, returns_get.
    rewrite bool_decide_eq_true_2 by (rewrite Hhead; done).
    rewrite Hhead. simpl lookup.
    apply returns_bind.
    eapply returns_wand; [by apply (MakeClean_keeps c (a :: L) a h)|].
    intros _ c1 (Hinv1 & Hfl1 & Hcl1).
    rewrite filter_cons_False, filter_ne_absent in Hinv1 by tauto.
    eapply returns_wand; [apply (IH fuel c1 Hinv1); simpl in Hfuel; lia|].
    intros _ c' (Hinv' & Hd' & Ht' & Hall). split; [done|]. split; [done|]. split; [done|].
    intros x hx Hx. destruct (decide (x = a)) as [->|Hne].
    + destruct (Hcl1 Hd) as (h1 & Hh1 & Hc1).
      destruct (Hall a h1 Hh1) as (hx' & Hx' & _ & Hsame).
      exists hx'. split; [done|]. split.
      * intros _. unfold is_clean. rewrite Hsame by done. done.
      * intros Hnot. exfalso. apply Hnot. left.
    + assert (Hx1 : exists hx1, mem c1 !! x = Some hx1 /\ flags hx1 = flags hx).
      { pose proof (Hfl1 x Hne) as E. rewrite Hx in E. simpl in E.
        apply fmap_Some in E as (hx1 & ? & ?). eauto. }
      destruct Hx1 as (hx1 & Hx1 & E1).
      destruct (Hall x hx1 Hx1) as (hx' & Hx' & Hin & Hout).
      exists hx'. split; [done|]. split.
      * intros [?|HxL]%elem_of_cons; [done|]. auto.
      * intros [_ HxL]%not_elem_of_cons. rewrite Hout by done. done.
Qed.

(** C7.  From a state where the dirty list [L] holds exactly the entries
    whose DIRTY flag is set: [MakeDirty] returns and the invariant holds
    with the entry put at the head if it was CLEAN; [MakeClean] returns
    and the invariant holds with the entry taken out; [MakeCleanAll]
    returns with an empty list, [pDirty] and [pDirtyTail] nil, and every
    former member flagged CLEAN. *)
Theorem dirty_list_invariant (c : PCache) (L : list nat) :
  DirtyInv c L ->
  (forall a h, mem c !! a = Some h ->
     exists c', MakeDirty (Some a) c = (c', Ok tt)
                /\ DirtyInv c' (if decide (is_clean h) then a :: L else L))
  /\ (forall a h, mem c !! a = Some h ->
        exists c', MakeClean (Some a) c = (c', Ok tt)
                   /\ DirtyInv c' (filter (fun x => x <> a) L))
  /\ (forall fuel, (length L <= fuel)%nat ->
        exists c', MakeCleanAll fuel c = (c', Ok tt)
                   /\ DirtyInv c' [] /\ pDirty c' = None /\ pDirtyTail c' = None
                   /\ forall a, a ∈ L -> exists h', mem c' !! a = Some h' /\ is_clean h').
Proof.
  intros Hinv. split; [|split].
  - intros a h Hh. destruct (MakeDirty_keeps c L a h Hinv Hh) as ([] & c' & Hrun & Hinv').
    eauto.
  - intros a h Hh.
    destruct (MakeClean_keeps c L a h Hinv Hh) as ([] & c' & Hrun & Hinv' & _). eauto.
  - intros fuel Hfuel.
    destruct (MakeCleanAll_drains L fuel c Hinv Hfuel)
      as ([] & c' & Hrun & Hinv' & Hd & Ht & Hall).
    exists c'. repeat (split; [done|]).
    intros a Ha. apply list_elem_of_lookup_1 in Ha as Hi. destruct Hi as [i Hi].
    pose proof (dirty_linked _ _ Hinv) as (_ & _ & Hlinks).
    destruct (Hlinks i a Hi) as (h & Hh & _).
    destruct (Hall a h Hh) as (h' & Hh' & Hcl & _). eauto.
Qed.


(** ** Doing it twice *)

Lemma twice_same {A} (m : M PCache A) (c : PCache) :
  (forall c' a, m c = (c', Ok a) -> m c' = (c', Ok a)) ->
  (m ≫= fun _ => m) c = m c.
Proof.
  intros Hm. rewrite bind_run. destruct (m c) as [c' [a| |]] eqn:E; [|done..].
  by apply Hm.
Qed.

Lemma MakeDirty_settled (p : pgptr) (c c' : PCache) (u : unit) :
  MakeDirty p c = (c', Ok u) -> MakeDirty p c' = (c', Ok u).
Proof.
  unfold MakeDirty. intros Hrun. destruct u.
  apply bind_ok_inv in Hrun as (pg & c0 & Hld & Hrun).
  apply load_inv in Hld as (-> & a & -> & Hpg).
  case_bool_decide as Hclean.
  - apply bind_ok_inv in Hrun as ([] & c1 & Hst & Hrun).
    apply store_inv in Hst as (a' & h & [= <-] & Hh & ->).
    rewrite Hpg in Hh. injection Hh as <-.
    destruct (ManageDirtyList_flags _ _ _ _ _ Hrun a
                (set_flags (Z.lxor (flags pg) (Z.lor PGHDR_DIRTY PGHDR_CLEAN)) pg))
      as (h' & Hh' & Hfl).
    { simpl. apply list_lookup_insert_eq. by eapply lookup_lt_Some. }
    rewrite (bind_run_ok _ _ _ _ _ (load_ok a c' h' Hh')).
    rewrite bool_decide_eq_false_2; [done|].
    rewrite Hfl. simpl. rewrite dirtied_not_clean by done. auto.
  - injection Hrun as <-.
    rewrite (bind_run_ok _ _ _ _ _ (load_ok a c pg Hpg)).
    by rewrite bool_decide_eq_false_2 by naive_solver.
Qed.

Lemma MakeClean_settled (p : pgptr) (c c' : PCache) (u : unit) :
  MakeClean p c = (c', Ok u) -> MakeClean p c' = (c', Ok u).
Proof.
  unfold MakeClean. intros Hrun. destruct u.
  apply bind_ok_inv in Hrun as (pg & c0 & Hld & Hrun).
  apply load_inv in Hld as (-> & a & -> & Hpg).
  case_bool_decide as Hdirty.
  - apply bind_ok_inv in Hrun as ([] & c1 & Hrm & Hrun).
    apply bind_ok_inv in Hrun as ([] & c2 & Hst1 & Hst2).
    apply store_inv in Hst1 as (a' & h1 & [= <-] & Hh1 & ->).
    apply store_inv in Hst2 as (a' & h2 & [= <-] & Hh2 & ->).
    assert (Hlt : (a < length (mem c1))%nat) by (by eapply lookup_lt_Some).
    simpl in Hh2. rewrite list_lookup_insert_eq in Hh2 by done. injection Hh2 as <-.
    erewrite bind_run_ok; last first.
    { apply load_ok. simpl. apply list_lookup_insert_eq. by rewrite length_insert. }
    rewrite bool_decide_eq_false_2; [done|].
    simpl. rewrite cleaned_not_dirty. auto.
  - injection Hrun as <-.
    rewrite (bind_run_ok _ _ _ _ _ (load_ok a c pg Hpg)).
    by rewrite bool_decide_eq_false_2 by naive_solver.
Qed.

(** C10.  [MakeDirty] run twice on an entry ends in the state, and with
    the outcome, of running it once; so does [MakeClean].  The state
    compared is the whole cache: every entry's flags and links, [pDirty]
    and [pDirtyTail]. *)
Theorem MakeDirty_MakeClean_idempotent (p : pgptr) (c : PCache) :
  (MakeDirty p ≫= fun _ => MakeDirty p) c = MakeDirty p c
  /\ (MakeClean p ≫= fun _ => MakeClean p) c = MakeClean p c.
Proof.
  split; apply twice_same; intros c' [].
  - apply MakeDirty_settled.
  - apply MakeClean_settled.
Qed.

End Flags.

(** ** Hash chains and the table *)

Lemma elem_of_concat (B : list (list nat)) (x : nat) :
  x ∈ concat B <-> exists i l, B !! i = Some l /\ x ∈ l.
Proof.
  induction B as [|l0 B IH]; simpl.
  - split; [by intros ?%elem_of_nil | by intros (i & l & ? & _)].
  - rewrite elem_of_app, IH. split.
    + intros [Hx | (i & l & Hl & Hx)]; [by exists 0%nat, l0 | by exists (S i), l].
    + intros ([|i] & l & Hl & Hx); [injection Hl as ->; by left | right; eauto].
Qed.

Lemma concat_insert_perm (B : list (list nat)) (j : nat) (lj : list nat) (a : nat) :
  B !! j = Some lj -> concat (<[j := a :: lj]> B) ≡ₚ a :: concat B.
Proof.
  revert j. induction B as [|l0 B IH]; intros [|j] Hj; try done; simpl in *.
  - by injection Hj as ->.
  - rewrite (IH j Hj). symmetry. apply Permutation_middle.
Qed.

Lemma concat_replicate_nil (n : nat) : concat (replicate n ([] : list nat)) = [].
Proof. induction n; [done | simpl; done]. Qed.

Lemma set_mem_id (c : PCache) : c = set_mem (mem c) c.
Proof. by destruct c. Qed.

Lemma chain_frame (c c' : PCache) (l : list nat) :
  forall p, (forall x, x ∈ l -> mem c' !! x = mem c !! x) -> chain c p l -> chain c' p l.
Proof.
  induction l as [|a l IH]; intros p Hfr Hch; simpl in *; [done|].
  destruct Hch as (-> & h & Hh & Hch). split; [done|]. exists h. split.
  - rewrite Hfr; [done | left].
  - apply IH; [|done]. intros x Hx. apply Hfr. by right.
Qed.

Lemma chain_valid (c : PCache) (l : list nat) :
  forall p x, chain c p l -> x ∈ l -> is_Some (mem c !! x).
Proof.
  induction l as [|a l IH]; intros p x Hch Hx; [by apply elem_of_nil in Hx|].
  destruct Hch as (-> & h & Hh & Hch).
  apply elem_of_cons in Hx as [->|Hx]; [eauto | by eapply IH].
Qed.

Lemma TableInv_frame (c c' : PCache) (ap : list pgptr) (n : Z) (B : list (list nat)) :
  (forall x, x ∈ concat B -> mem c' !! x = mem c !! x) ->
  TableInv c ap n B -> TableInv c' ap n B.
Proof.
  intros Hfr [Hsz Hch Hnd Hbk]. split; [done| |done|].
  - intros i l Hl. destruct (Hch i l Hl) as (p & Hp & Hc). exists p. split; [done|].
    apply (chain_frame c); [|done]. intros x Hx. apply Hfr, elem_of_concat. eauto.
  - intros i l a Hl Ha. rewrite Hfr by (apply elem_of_concat; eauto). eauto.
Qed.

(** Putting an entry at the head of the bucket of its key. *)
Lemma table_push (c c' : PCache) (ap : list pgptr) (n : Z) (B : list (list nat))
    (a j : nat) (lj : list nat) (q : pgptr) (h' : PgHdr) :
  TableInv c ap n B -> B !! j = Some lj -> ap !! j = Some q -> a ∉ concat B ->
  mem c' !! a = Some h' -> pNext h' = q -> 0 <= iKey h' -> Z.rem (iKey h') n = Z.of_nat j ->
  (forall x, x <> a -> mem c' !! x = mem c !! x) ->
  TableInv c' (<[j := Some a]> ap) n (<[j := a :: lj]> B)
  /\ forall x, x ∈ concat (<[j := a :: lj]> B) <-> x = a \/ x ∈ concat B.
Proof.
  intros [Hsz Hch Hnd Hbk] Hj Hq Ha Hh' Hnext Hkey Hrem Hfr.
  assert (Hin : forall x, x ∈ concat (<[j := a :: lj]> B) <-> x = a \/ x ∈ concat B).
  { intros x. rewrite (concat_insert_perm B j lj a Hj), elem_of_cons. done. }
  assert (Hother : forall x, x ∈ concat B -> mem c' !! x = mem c !! x).
  { intros x Hx. apply Hfr. by intros ->. }
  split; [|done]. split.
  - by rewrite !length_insert.
  - intros i l Hl. destruct (decide (i = j)) as [->|Hne].
    + rewrite list_lookup_insert_eq in Hl by (by eapply lookup_lt_Some).
      injection Hl as <-. exists (Some a).
      split; [apply list_lookup_insert_eq; by eapply lookup_lt_Some|].
      simpl. split; [done|]. exists h'. split; [done|]. rewrite Hnext.
      destruct (Hch j lj Hj) as (q' & Hq' & Hc). rewrite Hq in Hq'. injection Hq' as <-.
      apply (chain_frame c); [|done]. intros x Hx. apply Hother, elem_of_concat. eauto.
    + rewrite list_lookup_insert_ne in Hl by done. rewrite list_lookup_insert_ne by done.
      destruct (Hch i l Hl) as (p & Hp & Hc). exists p. split; [done|].
      apply (chain_frame c); [|done]. intros x Hx. apply Hother, elem_of_concat. eauto.
  - rewrite (concat_insert_perm B j lj a Hj). by apply NoDup_cons.
  - intros i l x Hl Hx. destruct (decide (i = j)) as [->|Hne].
    + rewrite list_lookup_insert_eq in Hl by (by eapply lookup_lt_Some).
      injection Hl as <-. apply elem_of_cons in Hx as [->|Hx]; [eauto|].
      rewrite Hother by (apply elem_of_concat; eauto). by eapply Hbk.
    + rewrite list_lookup_insert_ne in Hl by done.
      rewrite Hother by (apply elem_of_concat; eauto). by eapply Hbk.
Qed.

Lemma rem_bucket (k n : Z) : 0 <= k -> 0 < n -> 0 <= Z.rem k n < n.
Proof. intros Hk Hn. rewrite Z.rem_mod_nonneg by lia. by apply Z.mod_pos_bound. Qed.

Lemma index_ok (a : list pgptr) (i : Z) (p : pgptr) :
  0 <= i -> a !! Z.to_nat i = Some p -> index a i = Ok p.
Proof. intros Hi Hp. unfold index. rewrite Hp. destruct (Z.ltb_spec i 0); [lia|done]. Qed.

Lemma returns_lift_ok {A} (r : result A) (a : A) (c : PCache) (Q : A -> PCache -> Prop) :
  r = Ok a -> Q a c -> returns (lift r) c Q.
Proof. intros -> HQ. by exists a, c. Qed.

Lemma returns_go_rem (a b : Z) (c : PCache) (Q : Z -> PCache -> Prop) :
  b <> 0 -> Q (Z.rem a b) c -> returns (go_rem a b) c Q.
Proof.
  intros Hb HQ. unfold go_rem. destruct (Z.eqb_spec b 0); [done|]. by apply returns_ret.
Qed.

(** ** ResizeHash *)

Lemma rehash_chain_spec (nNew : Z) (l : list nat) :
  0 < nNew ->
  forall (fuel : nat) (c : PCache) (apNew : list pgptr) (Bn : list (list nat)) (p : pgptr),
    (length l <= fuel)%nat -> chain c p l -> NoDup l -> TableInv c apNew nNew Bn ->
    (forall x, x ∈ l -> x ∉ concat Bn) ->
    (forall x h, x ∈ l -> mem c !! x = Some h -> 0 <= iKey h) ->
    returns (rehash_chain fuel nNew apNew p) c (fun apNew' c' =>
      c' = set_mem (mem c') c
      /\ (forall x, but_next <$> mem c' !! x = but_next <$> mem c !! x)
      /\ (forall x, x ∉ l -> mem c' !! x = mem c !! x)
      /\ exists Bn', TableInv c' apNew' nNew Bn'
                     /\ forall x, x ∈ concat Bn' <-> x ∈ concat Bn \/ x ∈ l).
Proof.
  intros Hpos. induction l as [|a l IH]; intros fuel c apNew Bn p Hfuel Hch Hnd Htab Hdis Hkeys.
  - simpl in Hch. subst p. destruct fuel; simpl; apply returns_ret;
      (split; [apply set_mem_id|]; split; [done|]; split; [done|];
       exists Bn; split; [done|]; intros x; rewrite elem_of_nil; tauto).
  - destruct Hch as (-> & h & Hh & Hch). destruct fuel as [|fuel]; [simpl in Hfuel; lia|].
    apply NoDup_cons in Hnd as [Hal Hnd].
    pose proof (Hkeys a h ltac:(left) Hh) as Hkey.
    pose proof (rem_bucket (iKey h) nNew Hkey Hpos) as Hrem.
    pose proof (tab_size _ _ _ _ Htab) as (_ & Hlen & HlenB).
    set (j := Z.to_nat (Z.rem (iKey h) nNew)).
    destruct (lookup_lt_is_Some_2 apNew j ltac:(lia)) as [q Hq].
    destruct (lookup_lt_is_Some_2 Bn j ltac:(lia)) as [lj Hlj].
    cbn [rehash_chain].
    apply returns_bind, (returns_load a h); [done|].
    apply returns_bind, returns_go_rem; [lia|].
    apply returns_bind, (returns_lift_ok _ q); [by apply index_ok; [lia|]|].
    apply returns_bind, (returns_lift_ok _ (<[j := Some a]> apNew)).
    { unfold index_set. by rewrite (index_ok _ _ q) by (done || lia). }
    apply returns_bind, (returns_lift_ok _ (Some a)).
    { apply index_ok; [lia|]. apply list_lookup_insert_eq. by eapply lookup_lt_Some. }
    apply returns_bind, (returns_store a h); [done|].
    set (c1 := set_mem (<[a := set_pNext q h]> (mem c)) c).
    assert (Ha1 : mem c1 !! a = Some (set_pNext q h)).
    { simpl. apply list_lookup_insert_eq. by eapply lookup_lt_Some. }
    assert (Hm1 : forall x, x <> a -> mem c1 !! x = mem c !! x).
    { intros x Hx. simpl. by apply list_lookup_insert_ne. }
    destruct (table_push c c1 apNew nNew Bn a j lj q (set_pNext q h)) as [Htab1 Hin1];
      try done.
    { apply Hdis. left. }
    { simpl. subst j. lia. }
    eapply returns_wand.
    { apply (IH fuel c1 (<[j := Some a]> apNew) (<[j := a :: lj]> Bn) (pNext h));
        [simpl in Hfuel; lia | | done | done | |].
      - apply (chain_frame c); [|done]. intros x Hx. apply Hm1. by intros ->.
      - intros x Hx. rewrite Hin1. intros [->|Hx']; [done|]. apply (Hdis x); [by right|done].
      - intros x hx Hx Hhx. rewrite Hm1 in Hhx by (by intros ->). apply (Hkeys x); [by right|done]. }
    intros apNew' c' (Hc' & Hbn & Hfr & Bn' & Htab' & Hin').
    split; [|split; [|split]].
    + rewrite Hc'. by destruct c.
    + intros x. rewrite Hbn. destruct (decide (x = a)) as [->|Hne].
      * by rewrite Ha1, Hh.
      * by rewrite Hm1.
    + intros x [Hxa Hxl]%not_elem_of_cons. rewrite Hfr by done. by apply Hm1.
    + exists Bn'. split; [done|]. intros x. rewrite Hin', Hin1, elem_of_cons. tauto.
Qed.

Lemma rehash_buckets_spec (nNew : Z) (Brest : list (list nat)) :
  0 < nNew ->
  forall (i fuel : nat) (c : PCache) (apNew : list pgptr) (Bn : list (list nat)),
    (forall k l, Brest !! k = Some l ->
       exists p, apHash c !! (i + k)%nat = Some p /\ chain c p l) ->
    NoDup (concat Brest) -> (length (concat Brest) <= fuel)%nat ->
    TableInv c apNew nNew Bn ->
    (forall x, x ∈ concat Brest -> x ∉ concat Bn) ->
    (forall x h, x ∈ concat Brest -> mem c !! x = Some h -> 0 <= iKey h) ->
    returns (rehash_buckets fuel (length Brest) (Z.of_nat i) nNew apNew) c (fun apNew' c' =>
      c' = set_mem (mem c') c
      /\ (forall x, but_next <$> mem c' !! x = but_next <$> mem c !! x)
      /\ exists Bn', TableInv c' apNew' nNew Bn'
                     /\ forall x, x ∈ concat Bn' <-> x ∈ concat Bn \/ x ∈ concat Brest).
Proof.
  intros Hpos. induction Brest as [|l0 Brest IH];
    intros i fuel c apNew Bn Hold Hnd Hfuel Htab Hdis Hkeys.
  - simpl. apply returns_ret. split; [apply set_mem_id|]. split; [done|].
    exists Bn. split; [done|]. intros x. simpl. rewrite elem_of_nil. tauto.
  - simpl in Hnd, Hfuel. rewrite length_app in Hfuel.
    apply NoDup_app in Hnd as (Hnd0 & Hsep & HndR).
    destruct (Hold 0%nat l0 eq_refl) as (p0 & Hp0 & Hch0).
    rewrite Nat.add_0_r in Hp0.
    cbn [rehash_buckets length]. apply returns_bind, returns_get.
    apply returns_bind, (returns_lift_ok _ p0).
    { apply index_ok; [lia|]. by rewrite Nat2Z.id. }
    apply returns_bind. eapply returns_wand.
    { apply (rehash_chain_spec nNew l0 Hpos fuel c apNew Bn p0); [lia|done..| |].
      - intros x Hx. apply Hdis. simpl. apply elem_of_app. by left.
      - intros x h Hx. apply Hkeys. simpl. apply elem_of_app. by left. }
    intros apNew1 c1 (Hc1 & Hbn1 & Hfr1 & Bn1 & Htab1 & Hin1).
    replace (Z.of_nat i + 1) with (Z.of_nat (S i)) by lia.
    eapply returns_wand.
    { apply (IH (S i) fuel c1 apNew1 Bn1); [|done|lia|done| |].
      - intros k l Hl. destruct (Hold (S k) l Hl) as (p & Hp & Hch).
        exists p. split.
        + rewrite Hc1. simpl. by replace (S (i + k)) with (i + S k)%nat by lia.
        + apply (chain_frame c); [|done]. intros x Hx. apply Hfr1.
          intros Hx0. apply (Hsep x Hx0), elem_of_concat. eauto.
      - intros x Hx. rewrite Hin1. intros [Hx'|Hx'].
        + revert Hx'. apply Hdis. simpl. apply elem_of_app. by right.
        + by apply (Hsep x).
      - intros x h Hx Hh. pose proof (Hbn1 x) as E. rewrite Hh in E. simpl in E.
        symmetry in E. apply fmap_Some in E as (h0 & Hh0 & E).
        apply (f_equal iKey) in E. simpl in E. rewrite E.
        apply (Hkeys x h0); [|done]. simpl. apply elem_of_app. by right. }
    intros apNew' c' (Hc' & Hbn' & Bn' & Htab' & Hin').
    split; [|split].
    + rewrite Hc', Hc1. by destruct c.
    + intros x. by rewrite Hbn', Hbn1.
    + exists Bn'. split; [done|]. intros x. rewrite Hin', Hin1. simpl.
      rewrite elem_of_app. tauto.
Qed.

Lemma but_next_iKey (o1 o2 : option PgHdr) :
  but_next <$> o1 = but_next <$> o2 -> iKey <$> o1 = iKey <$> o2.
Proof.
  destruct o1 as [h1|], o2 as [h2|]; simpl; try done.
  intros E%(inj Some). apply (f_equal iKey) in E. simpl in E. by rewrite E.
Qed.


Lemma TableInv_empty (c : PCache) (n : Z) :
  0 <= n -> TableInv c (replicate (Z.to_nat n) None) n (replicate (Z.to_nat n) []).
Proof.
  intros Hn. split.
  - by rewrite !length_replicate.
  - intros i l Hl. apply lookup_replicate in Hl as [-> Hi].
    exists None. split; [by apply lookup_replicate_2 | done].
  - rewrite concat_replicate_nil. apply NoDup_nil_2.
  - intros i l a Hl Ha. apply lookup_replicate in Hl as [-> _]. by apply elem_of_nil in Ha.
Qed.

Lemma ResizeHash_spec (c : PCache) (B : list (list nat)) (fuel : nat) :
  HashInv c B -> (length (concat B) <= fuel)%nat ->
  returns (ResizeHash fuel) c (fun _ c' =>
    nHash c' = Z.max 256 (nHash c * 2)
    /\ rest_of c' = rest_of c
    /\ (forall x, but_next <$> mem c' !! x = but_next <$> mem c !! x)
    /\ exists B', HashInv c' B' /\ forall x, x ∈ concat B' <-> x ∈ concat B).
Proof.
  intros [Htab Hkeys] Hfuel. pose proof Htab as [(Hn & Hlen & HlenB) Hch Hnd Hbk].
  unfold ResizeHash. apply returns_bind, returns_get. cbv zeta.
  set (nNew := if nHash c * 2 <? 256 then 256 else nHash c * 2).
  assert (HnNew : nNew = Z.max 256 (nHash c * 2)).
  { subst nNew. destruct (Z.ltb_spec (nHash c * 2) 256); lia. }
  assert (Hpos : 0 < nNew) by lia.
  apply returns_bind. rewrite <- HlenB. eapply returns_wand.
  { apply (rehash_buckets_spec nNew B Hpos 0 fuel c _ (replicate (Z.to_nat nNew) []));
      [|done|done|apply TableInv_empty; lia| |].
    - intros k l Hl. destruct (Hch k l Hl) as (p & Hp & Hc). eauto.
    - intros x _. rewrite concat_replicate_nil. apply not_elem_of_nil.
    - intros x h Hx Hh. apply elem_of_concat in Hx as (i & l & Hl & Hx).
      destruct (Hbk i l x Hl Hx) as (h' & Hh' & Hk & _). congruence. }
  intros apNew' c1 (Hc1 & Hbn & B' & Htab' & Hin').
  apply returns_bind, returns_modify, returns_modify. simpl.
  split; [done|]. split; [rewrite Hc1; by destruct c|]. split; [done|].
  assert (Hmem : forall x, x ∈ concat B' <-> x ∈ concat B).
  { intros x. rewrite Hin', concat_replicate_nil, elem_of_nil. tauto. }
  exists B'. split; [|done]. split.
  - simpl. by apply (TableInv_frame c1).
  - intros a b Ha Hb. unfold key_of. simpl.
    rewrite (but_next_iKey _ _ (Hbn a)), (but_next_iKey _ _ (Hbn b)).
    apply Hkeys; by apply Hmem.
Qed.

(** ** Lookup in the table *)

Lemma concat_lookup_nodup (B : list (list nat)) (i : nat) (l : list nat) :
  NoDup (concat B) -> B !! i = Some l -> NoDup l.
Proof.
  revert i. induction B as [|l0 B IH]; intros i Hnd Hl; [done|].
  simpl in Hnd. apply NoDup_app in Hnd as (Hnd0 & _ & HndR).
  destruct i as [|i]; simpl in Hl; [by injection Hl as <- | by eapply IH].
Qed.

Lemma concat_lookup_length (B : list (list nat)) (i : nat) (l : list nat) :
  B !! i = Some l -> (length l <= length (concat B))%nat.
Proof.
  revert i. induction B as [|l0 B IH]; intros i Hl; [done|].
  simpl. rewrite length_app.
  destruct i as [|i]; simpl in Hl; [injection Hl as <-; lia|].
  pose proof (IH i Hl). lia.
Qed.

Lemma hash_walk_hit (c : PCache) (k : Z) (a : nat) (h : PgHdr) (l1 l2 : list nat) :
  forall (p : pgptr) (fuel : nat),
    chain c p (l1 ++ a :: l2) ->
    (forall x hx, x ∈ l1 -> mem c !! x = Some hx -> iKey hx <> k) ->
    mem c !! a = Some h -> iKey h = k -> (length l1 <= fuel)%nat ->
    hash_walk fuel p k c = (c, Ok (Some a)).
Proof.
  induction l1 as [|x l1 IH]; intros p fuel Hch Hne Hh Hk Hfuel.
  - destruct Hch as (-> & h' & Hh' & _). rewrite Hh in Hh'. injection Hh' as <-.
    destruct fuel; simpl; rewrite (bind_run_ok _ _ _ _ _ (load_ok a c h Hh));
      by rewrite Hk, Z.eqb_refl.
  - destruct Hch as (-> & hx & Hhx & Hch).
    destruct fuel as [|fuel]; [simpl in Hfuel; lia|].
    simpl. rewrite (bind_run_ok _ _ _ _ _ (load_ok x c hx Hhx)).
    pose proof (Hne x hx ltac:(left) Hhx) as Hxk.
    destruct (Z.eqb_spec (iKey hx) k); [done|]. simpl.
    apply IH; [done| |done|done|simpl in Hfuel; lia].
    intros y hy Hy. apply Hne. by right.
Qed.

Lemma hash_walk_miss (c : PCache) (k : Z) (l : list nat) :
  forall (p : pgptr) (fuel : nat),
    chain c p l ->
    (forall x hx, x ∈ l -> mem c !! x = Some hx -> iKey hx <> k) ->
    (length l <= fuel)%nat ->
    hash_walk fuel p k c = (c, Ok None).
Proof.
  induction l as [|x l IH]; intros p fuel Hch Hne Hfuel.
  - simpl in Hch. subst p. by destruct fuel.
  - destruct Hch as (-> & hx & Hhx & Hch).
    destruct fuel as [|fuel]; [simpl in Hfuel; lia|].
    simpl. rewrite (bind_run_ok _ _ _ _ _ (load_ok x c hx Hhx)).
    pose proof (Hne x hx ltac:(left) Hhx) as Hxk.
    destruct (Z.eqb_spec (iKey hx) k); [done|]. simpl.
    apply IH; [done| |simpl in Hfuel; lia].
    intros y hy Hy. apply Hne. by right.
Qed.

Lemma hash_find_bucket (c : PCache) (k : Z) (i : nat) (p : pgptr) (fuel : nat) :
  nHash c <> 0 -> Z.rem k (nHash c) = Z.of_nat i -> apHash c !! i = Some p ->
  hash_find fuel k c = hash_walk fuel p k c.
Proof.
  intros Hn Hrem Hp. unfold hash_find. rewrite bind_run. unfold get at 1.
  rewrite bind_run. unfold go_rem. destruct (Z.eqb_spec (nHash c) 0); [done|].
  unfold mret at 1, M_ret. rewrite bind_run, Hrem.
  rewrite (index_ok _ _ p) by (rewrite ?Nat2Z.id; done || lia). done.
Qed.

Lemma hash_find_hit (c : PCache) (B : list (list nat)) (a : nat) (h : PgHdr) (fuel : nat) :
  HashInv c B -> a ∈ concat B -> mem c !! a = Some h -> (length (concat B) <= fuel)%nat ->
  hash_find fuel (iKey h) c = (c, Ok (Some a)).
Proof.
  intros [[(Hn & Hlen & HlenB) Hch Hnd Hbk] Hkeys] Ha Hh Hfuel.
  pose proof Ha as Ha'. apply elem_of_concat in Ha' as (i & l & Hl & Hal).
  destruct (Hbk i l a Hl Hal) as (h' & Hh' & Hk & Hrem).
  rewrite Hh in Hh'. injection Hh' as <-.
  destruct (Hch i l Hl) as (p & Hp & Hc).
  apply lookup_lt_Some in Hl as Hi.
  rewrite (hash_find_bucket c (iKey h) i p fuel) by (done || lia).
  pose proof (concat_lookup_nodup B i l Hnd Hl) as Hndl.
  pose proof (concat_lookup_length B i l Hl) as Hll.
  apply list_elem_of_split in Hal as (l1 & l2 & ->).
  apply (hash_walk_hit c (iKey h) a h l1 l2); [done| |done|done|].
  - intros x hx Hx Hhx E.
    assert (x = a) as ->.
    { apply Hkeys; [apply elem_of_concat; exists i, (l1 ++ a :: l2);
                    split; [done|]; apply elem_of_app; by left | done|].
      unfold key_of. rewrite Hhx, Hh. simpl. by rewrite E. }
    apply NoDup_app in Hndl as (_ & Hsep & _). apply (Hsep a Hx). left.
  - rewrite length_app in Hll. lia.
Qed.

Lemma hash_find_miss (c : PCache) (B : list (list nat)) (k : Z) (fuel : nat) :
  HashInv c B -> 0 <= k -> 0 < nHash c ->
  (forall a h, a ∈ concat B -> mem c !! a = Some h -> iKey h <> k) ->
  (length (concat B) <= fuel)%nat ->
  hash_find fuel k c = (c, Ok None).
Proof.
  intros [[(Hn & Hlen & HlenB) Hch Hnd Hbk] Hkeys] Hk Hpos Hne Hfuel.
  pose proof (rem_bucket k (nHash c) Hk Hpos) as Hrem.
  assert (Hr : exists i : nat, Z.rem k (nHash c) = Z.of_nat i /\ (i < length B)%nat).
  { exists (Z.to_nat (Z.rem k (nHash c))). generalize dependent (Z.rem k (nHash c)). lia. }
  destruct Hr as (i & Hi & Hlt).
  destruct (lookup_lt_is_Some_2 B i Hlt) as [l Hl].
  destruct (Hch _ l Hl) as (p & Hp & Hc).
  rewrite (hash_find_bucket c k i p fuel) by (done || lia).
  pose proof (concat_lookup_length B _ l Hl) as Hll.
  apply (hash_walk_miss c k l); [done| |lia].
  intros x hx Hx. apply Hne, elem_of_concat. eauto.
Qed.

Lemma FetchPage_miss (fuel : nat) (fresh : PgHdr) (k : Z) (c : PCache) :
  hash_find fuel k c = (c, Ok None) ->
  FetchPage fuel fresh k c =
  (_ ← (if nPage c >=? nHash c then ResizeHash fuel else mret tt);
   FetchPage_obtain fuel fresh ≫= FetchPage_install k) c.
Proof.
  intros Hmiss. unfold FetchPage. rewrite (bind_run_ok _ _ _ _ _ Hmiss).
  by rewrite bool_decide_eq_false_2 by (intros E; by apply E).
Qed.

(** C6.  With the table at rest and a fetch that misses while
    [nPage >= nHash], [FetchPage] goes on through [ResizeHash];
    [ResizeHash] returns with [nHash] doubled (256 at least) and a table
    of that many slots, chains the same entries as before, and the hash
    lookup of each such entry's page number finds that entry. *)
Theorem ResizeHash_keeps_entries (c : PCache) (B : list (list nat)) (fuel : nat)
    (fresh : PgHdr) (k : Z) :
  HashInv c B -> (length (concat B) <= fuel)%nat ->
  (hash_find fuel k c = (c, Ok None) -> nHash c <= nPage c ->
   FetchPage fuel fresh k c =
   (ResizeHash fuel ≫= fun _ => FetchPage_obtain fuel fresh ≫= FetchPage_install k) c)
  /\ exists c',
       ResizeHash fuel c = (c', Ok tt)
       /\ nHash c' = Z.max 256 (nHash c * 2)
       /\ length (apHash c') = Z.to_nat (nHash c')
       /\ (exists B', HashInv c' B' /\ forall a, a ∈ concat B' <-> a ∈ concat B)
       /\ forall a h, a ∈ concat B -> mem c !! a = Some h ->
            hash_find fuel (iKey h) c' = (c', Ok (Some a)).
Proof.
  intros Hinv Hfuel. split.
  - intros Hmiss Hfull. rewrite (FetchPage_miss fuel fresh k c Hmiss).
    by destruct (Z.geb_spec (nPage c) (nHash c)); [|lia].
  - destruct (ResizeHash_spec c B fuel Hinv Hfuel)
      as ([] & c' & Hrun & HnHash & _ & Hbn & B' & Hinv' & Hmem).
    exists c'. split; [done|]. split; [done|].
    split; [by destruct Hinv' as [[(_ & ? & _) _ _ _] _]|].
    split; [by exists B'|].
    intros a h Ha Hh.
    pose proof (Hbn a) as E. rewrite Hh in E. simpl in E.
    apply fmap_Some in E as (h' & Hh' & E).
    apply (f_equal iKey) in E. simpl in E. rewrite E.
    apply (hash_find_hit c' B'); [done|by apply Hmem|done|].
    assert (length (concat B') = length (concat B)) as ->; [|done].
    apply Permutation_length, NoDup_Permutation; [apply Hinv'|apply Hinv|done].
Qed.


(** ** RemoveFromHash *)

Lemma concat_replace_perm (B : list (list nat)) (j : nat) (lj l' : list nat) (a : nat) :
  B !! j = Some lj -> l' ≡ₚ a :: lj -> concat (<[j := l']> B) ≡ₚ a :: concat B.
Proof.
  revert j. induction B as [|l0 B IH]; intros [|j] Hj Hp; try done; simpl in *.
  - injection Hj as ->. by rewrite Hp.
  - rewrite (IH j Hj Hp). symmetry. apply Permutation_middle.
Qed.

Lemma unlink_walk_spec (c : PCache) (a : nat) (l2 : list nat) (l1 : list nat) :
  forall (s : slot) (p : pgptr) (fuel : nat),
    chain c p (l1 ++ a :: l2) -> a ∉ l1 -> slot_get s c = (c, Ok p) ->
    (length l1 <= fuel)%nat ->
    unlink_walk fuel s (Some a) c =
    (c, Ok (match last l1 with Some y => NextOf (Some y) | None => s end)).
Proof.
  induction l1 as [|x l1 IH]; intros s p fuel Hch Ha Hs Hfuel.
  - destruct Hch as (-> & _).
    destruct fuel; simpl; rewrite (bind_run_ok _ _ _ _ _ Hs);
      by rewrite bool_decide_eq_false_2 by (intros E; by apply E).
  - destruct Hch as (-> & hx & Hhx & Hch).
    apply not_elem_of_cons in Ha as [Hax Ha].
    destruct fuel as [|fuel]; [simpl in Hfuel; lia|].
    cbn [unlink_walk]. rewrite (bind_run_ok _ _ _ _ _ Hs).
    rewrite bool_decide_eq_true_2 by congruence.
    rewrite (bind_run_ok _ _ _ _ _ (load_ok x c hx Hhx)).
    rewrite (IH (NextOf (Some x)) (pNext hx) fuel); [|done|done| |simpl in Hfuel; lia].
    + destruct l1 as [|y l1]; [done|]. rewrite last_cons_cons.
      destruct (last (y :: l1)) eqn:E; [done | by apply last_None in E].
    + simpl. by rewrite (bind_run_ok _ _ _ _ _ (load_ok x c hx Hhx)).
Qed.

Lemma chain_remove (c c' : PCache) (a : nat) (h : PgHdr) (l2 : list nat) (l1 : list nat) :
  forall (p : pgptr),
    chain c p (l1 ++ a :: l2) -> NoDup (l1 ++ a :: l2) -> mem c !! a = Some h ->
    (forall x, x ∈ l1 ++ l2 -> last l1 <> Some x -> mem c' !! x = mem c !! x) ->
    (forall y, last l1 = Some y ->
       exists hy, mem c !! y = Some hy /\ mem c' !! y = Some (set_pNext (pNext h) hy)) ->
    chain c' (match last l1 with Some _ => p | None => pNext h end) (l1 ++ l2).
Proof.
  induction l1 as [|x l1 IH]; intros p Hch Hnd Hh Hfr Hlast.
  - destruct Hch as (-> & h' & Hh' & Hch). rewrite Hh in Hh'. injection Hh' as <-.
    simpl. apply (chain_frame c); [|done]. intros x Hx. by apply Hfr.
  - destruct Hch as (-> & hx & Hhx & Hch).
    simpl in Hnd. apply NoDup_cons in Hnd as [Hx Hnd].
    assert (Hsome : exists y, last (x :: l1) = Some y).
    { destruct (last (x :: l1)) eqn:E; [eauto|]. by apply last_None in E. }
    destruct Hsome as [y Hy]. rewrite Hy. simpl. split; [done|].
    destruct l1 as [|z l1].
    + injection Hy as <-. destruct (Hlast x eq_refl) as (hy & Hhy & Hhy').
      rewrite Hhx in Hhy. injection Hhy as <-.
      exists (set_pNext (pNext h) hx). split; [done|]. simpl.
      destruct Hch as (_ & h' & Hh' & Hch). rewrite Hh in Hh'. injection Hh' as <-.
      apply (chain_frame c); [|done]. intros w Hw. apply Hfr; [by right|].
      simpl. intros [= ->]. apply Hx. by right.
    + rewrite last_cons_cons in Hy. exists hx. split.
      * rewrite Hfr; [done|by left|]. rewrite last_cons_cons, Hy. intros [= ->].
        apply Hx. apply elem_of_app. left. apply last_Some_elem_of. done.
      * specialize (IH (pNext hx) Hch Hnd Hh). rewrite Hy in IH. apply IH.
        -- intros w Hw Hne. apply Hfr; [by right|]. by rewrite last_cons_cons, Hy.
        -- intros w Hw. apply Hlast. by rewrite last_cons_cons, Hy.
Qed.

Lemma chain_last_next (c : PCache) (a : nat) (l2 : list nat) (l1 : list nat) :
  forall (p : pgptr) (y : nat),
    chain c p (l1 ++ a :: l2) -> last l1 = Some y ->
    exists hy, mem c !! y = Some hy /\ pNext hy = Some a.
Proof.
  induction l1 as [|x l1 IH]; intros p y Hch Hy; [done|].
  destruct Hch as (-> & hx & Hhx & Hch). destruct l1 as [|z l1].
  - injection Hy as <-. destruct Hch as (Hn & _). eauto.
  - rewrite last_cons_cons in Hy. by eapply IH.
Qed.

(** The state [RemoveFromHash] ends in, entry by entry. *)
Lemma RemoveFromHash_run (c : PCache) (a : nat) (h : PgHdr) (i : nat) (p : pgptr)
    (l1 l2 : list nat) (fuel : nat) :
  mem c !! a = Some h -> nHash c <> 0 -> Z.rem (iKey h) (nHash c) = Z.of_nat i ->
  apHash c !! i = Some p -> chain c p (l1 ++ a :: l2) -> NoDup (l1 ++ a :: l2) ->
  (length l1 <= fuel)%nat ->
  returns (RemoveFromHash fuel (Some a)) c (fun _ c' =>
    apHash c' = match last l1 with
                | Some _ => apHash c
                | None => <[i := pNext h]> (apHash c)
                end
    /\ (forall x, mem c' !! x =
          if decide (x = a) then Some (set_pNext (pFree c) h)
          else if decide (last l1 = Some x) then set_pNext (pNext h) <$> mem c !! x
               else mem c !! x)
    /\ nHash c' = nHash c /\ nPage c' = nPage c - 1 /\ pFree c' = Some a
    /\ (nMax c', pDirty c', pDirtyTail c', lru_pLruPrev c', iMaxKey c')
       = (nMax c, pDirty c, pDirtyTail c, lru_pLruPrev c, iMaxKey c)).
Proof.
  intros Hh Hn Hrem Hp Hch Hnd Hfuel.
  assert (Hal1 : a ∉ l1).
  { apply NoDup_app in Hnd as (_ & Hsep & _). intros Ha. apply (Hsep a Ha). left. }
  assert (Hbucket : slot_get (Bucket (Z.of_nat i)) c = (c, Ok p)).
  { simpl. rewrite bind_run. unfold get at 1. unfold lift.
    rewrite (index_ok _ _ p) by (rewrite ?Nat2Z.id; done || lia). done. }
  unfold RemoveFromHash.
  apply returns_bind, (returns_load a h); [done|].
  apply returns_bind, returns_get.
  apply returns_bind, returns_go_rem; [done|]. rewrite Hrem.
  apply returns_bind, (returns_lift_ok _ p).
  { apply index_ok; [lia | by rewrite Nat2Z.id]. }
  apply returns_bind.
  exists (match last l1 with Some y => NextOf (Some y) | None => Bucket (Z.of_nat i) end), c.
  split; [by apply (unlink_walk_spec c a l2 l1 _ p)|].
  destruct (last l1) as [y|] eqn:Hlast.
  - (* unlinked from the entry before it *)
    destruct (chain_last_next c a l2 l1 p y Hch Hlast) as (hy & Hhy & Hya).
    assert (Hay : y <> a).
    { intros ->. apply Hal1. by apply last_Some_elem_of. }
    apply returns_bind. simpl slot_get.
    apply returns_bind, (returns_load y hy); [done|]. apply returns_ret. rewrite Hya.
    apply returns_bind, (returns_load a h); [done|].
    apply returns_bind. simpl slot_set. apply (returns_store y hy); [done|].
    apply returns_bind, returns_modify.
    unfold FreePage. apply returns_bind, returns_get.
    apply returns_bind, (returns_store a h).
    { simpl. by rewrite list_lookup_insert_ne. }
    apply returns_modify. simpl. split; [done|]. split; [|done].
    intros x. rewrite (lookup_store _ _ _ h) by (by rewrite list_lookup_insert_ne).
    destruct (decide (a = x)) as [<-|Hne]; [by rewrite decide_True|].
    rewrite decide_False by done. rewrite (lookup_store _ _ _ hy) by done.
    destruct (decide (y = x)) as [<-|Hne'].
    + rewrite decide_True by done. by rewrite Hhy.
    + rewrite decide_False; [done|]. by intros [= ->].
  - (* unlinked from the bucket slot *)
    apply last_None in Hlast. subst l1. destruct Hch as (-> & _).
    apply returns_bind. exists (Some a), c. split; [done|].
    apply returns_bind, (returns_load a h); [done|].
    apply returns_bind. simpl slot_set.
    apply returns_bind, returns_get.
    apply returns_bind, (returns_lift_ok _ (<[i := pNext h]> (apHash c))).
    { unfold index_set. rewrite (index_ok _ _ (Some a)) by (rewrite ?Nat2Z.id; done || lia).
      simpl. by rewrite Nat2Z.id. }
    apply returns_modify.
    apply returns_bind, returns_modify.
    unfold FreePage. apply returns_bind, returns_get.
    apply returns_bind, (returns_store a h); [done|].
    apply returns_modify. simpl. split; [done|]. split; [|done].
    intros x. rewrite (lookup_store _ _ _ h) by done.
    destruct (decide (a = x)) as [<-|Hne]; [by rewrite decide_True|].
    by rewrite decide_False.
Qed.

Lemma concat_same_bucket (B : list (list nat)) (x : nat) :
  NoDup (concat B) ->
  forall i i' l l', B !! i = Some l -> B !! i' = Some l' -> x ∈ l -> x ∈ l' -> i = i'.
Proof.
  induction B as [|l0 B IH]; intros Hnd i i' l l' Hl Hl' Hx Hx'; [done|].
  simpl in Hnd. apply NoDup_app in Hnd as (_ & Hsep & HndR).
  destruct i as [|i], i' as [|i']; simpl in Hl, Hl'; [done| | |].
  - injection Hl as <-. destruct (Hsep x Hx). apply elem_of_concat. eauto.
  - injection Hl' as <-. destruct (Hsep x Hx'). apply elem_of_concat. eauto.
  - f_equal. by eapply IH.
Qed.

Lemma but_next_set_pNext (v : pgptr) (h : PgHdr) : but_next (set_pNext v h) = but_next h.
Proof. done. Qed.

Lemma RemoveFromHash_spec (c : PCache) (B : list (list nat)) (a : nat) (h : PgHdr)
    (fuel : nat) :
  HashInv c B -> a ∈ concat B -> mem c !! a = Some h -> (length (concat B) <= fuel)%nat ->
  returns (RemoveFromHash fuel (Some a)) c (fun _ c' =>
    (exists B', TableInv c' (apHash c') (nHash c') B'
                /\ forall x, x ∈ concat B' <-> x ∈ concat B /\ x <> a)
    /\ (forall x, but_next <$> mem c' !! x = but_next <$> mem c !! x)
    /\ nHash c' = nHash c /\ nPage c' = nPage c - 1 /\ pFree c' = Some a
    /\ (nMax c', pDirty c', pDirtyTail c', lru_pLruPrev c', iMaxKey c')
       = (nMax c, pDirty c, pDirtyTail c, lru_pLruPrev c, iMaxKey c)).
Proof.
  intros [[(Hn & Hlen & HlenB) Hch Hnd Hbk] Hkeys] Ha Hh Hfuel.
  apply elem_of_concat in Ha as (i & l & Hl & Hal).
  destruct (Hbk i l a Hl Hal) as (h' & Hh' & Hk & Hrem).
  rewrite Hh in Hh'. injection Hh' as <-.
  destruct (Hch i l Hl) as (p & Hp & Hc).
  apply lookup_lt_Some in Hl as Hi.
  pose proof (concat_lookup_nodup B i l Hnd Hl) as Hndl.
  pose proof (concat_lookup_length B i l Hl) as Hll.
  apply list_elem_of_split in Hal as (l1 & l2 & ->).
  rewrite length_app in Hll.
  eapply returns_wand.
  { apply (RemoveFromHash_run c a h i p l1 l2 fuel); try done; lia. }
  intros _ c' (Hap & Hmem & HnH & HnP & Hfree & Hrest).
  assert (Hin_l : forall x, x ∈ l1 ++ l2 -> x ∈ l1 ++ a :: l2 /\ x <> a).
  { intros x Hx. apply NoDup_app in Hndl as (_ & Hsep & Hnd2).
    apply NoDup_cons in Hnd2 as [Ha2 _].
    apply elem_of_app in Hx as [Hx|Hx].
    - split; [apply elem_of_app; by left|]. intros ->. apply (Hsep a Hx). left.
    - split; [apply elem_of_app; right; by right|]. by intros ->. }
  assert (Hlast_l : forall y, last l1 = Some y -> y ∈ l1 ++ a :: l2 /\ y <> a).
  { intros y Hy. apply last_Some_elem_of in Hy.
    split; [apply elem_of_app; by left|]. intros ->.
    apply NoDup_app in Hndl as (_ & Hsep & _). apply (Hsep a Hy). left. }
  assert (Hperm : concat B ≡ₚ a :: concat (<[i := l1 ++ l2]> B)).
  { rewrite <- (concat_replace_perm (<[i := l1 ++ l2]> B) i (l1 ++ l2) (l1 ++ a :: l2) a).
    - by rewrite list_insert_insert_eq, list_insert_id.
    - by apply list_lookup_insert_eq.
    - symmetry. apply Permutation_middle. }
  assert (Hnd' : NoDup (a :: concat (<[i := l1 ++ l2]> B))) by (by rewrite <- Hperm).
  apply NoDup_cons in Hnd' as [Ha' Hnd'].
  assert (Hin' : forall x, x ∈ concat (<[i := l1 ++ l2]> B) <-> x ∈ concat B /\ x <> a).
  { intros x. rewrite Hperm, elem_of_cons. split; [|tauto].
    intros Hx. split; [by right|]. by intros ->. }
  assert (Hbn : forall x, but_next <$> mem c' !! x = but_next <$> mem c !! x).
  { intros x. rewrite Hmem. destruct (decide (x = a)) as [->|Hne]; [by rewrite Hh|].
    case_decide; [|done]. by destruct (mem c !! x). }
  assert (Hfr : forall x, x <> a -> last l1 <> Some x -> mem c' !! x = mem c !! x).
  { intros x Hx Hlx. rewrite Hmem, decide_False by done. by rewrite decide_False. }
  split; [|by repeat (split; [done|])].
  exists (<[i := l1 ++ l2]> B). split; [|done]. split.
  - rewrite HnH, length_insert, Hap. split; [done|]. split; [|done].
    destruct (last l1); [done | by rewrite length_insert].
  - intros i' l' Hl'. destruct (decide (i' = i)) as [->|Hne].
    + rewrite list_lookup_insert_eq in Hl' by done. injection Hl' as <-.
      exists (match last l1 with Some _ => p | None => pNext h end). split.
      * rewrite Hap. destruct (last l1); [done|].
        apply list_lookup_insert_eq. by eapply lookup_lt_Some.
      * apply (chain_remove c c' a h l2 l1 p); [done..| |].
        -- intros x Hx Hlx. apply Hfr; [|done]. by apply Hin_l.
        -- intros y Hy. destruct (Hlast_l y Hy) as [Hyl Hya].
           destruct (chain_valid c _ p y Hc Hyl) as [hy Hhy].
           exists hy. split; [done|]. rewrite Hmem, decide_False by done.
           rewrite decide_True by done. by rewrite Hhy.
    + rewrite list_lookup_insert_ne in Hl' by done.
      destruct (Hch i' l' Hl') as (p' & Hp' & Hc').
      exists p'. split.
      * rewrite Hap. destruct (last l1); [done|]. by rewrite list_lookup_insert_ne.
      * apply (chain_frame c); [|done]. intros x Hx.
        assert (Hxl : x ∉ l1 ++ a :: l2).
        { intros Hxl. apply Hne. by eapply (concat_same_bucket B x Hnd). }
        apply Hfr.
        -- intros ->. apply Hxl, elem_of_app. right; left.
        -- intros Hy. by apply Hlast_l in Hy as [? _].
  - done.
  - intros i' l' x Hl' Hx.
    assert (Hold : exists l0, B !! i' = Some l0 /\ x ∈ l0).
    { destruct (decide (i' = i)) as [->|Hne].
      - rewrite list_lookup_insert_eq in Hl' by done. injection Hl' as <-.
        exists (l1 ++ a :: l2). split; [done|]. by apply Hin_l.
      - rewrite list_lookup_insert_ne in Hl' by done. eauto. }
    destruct Hold as (l0 & Hl0 & Hx0).
    destruct (Hbk i' l0 x Hl0 Hx0) as (hx & Hhx & Hkx & Hrx).
    pose proof (Hbn x) as E. rewrite Hhx in E. simpl in E.
    apply fmap_Some in E as (hx' & Hhx' & E).
    apply (f_equal iKey) in E. simpl in E.
    exists hx'. rewrite HnH, <- E. done.
Qed.

(** ** FetchPage after a miss *)

Lemma TableInv_valid (c : PCache) (ap : list pgptr) (n : Z) (B : list (list nat)) (x : nat) :
  TableInv c ap n B -> x ∈ concat B -> is_Some (mem c !! x).
Proof.
  intros Htab (i & l & Hl & Hx)%elem_of_concat.
  destruct (tab_bucket _ _ _ _ Htab i l x Hl Hx) as (h & -> & _). eauto.
Qed.

Lemma FetchPage_install_spec (c : PCache) (B : list (list nat)) (a : nat) (h : PgHdr) (k : Z) :
  TableInv c (apHash c) (nHash c) B -> a ∉ concat B -> mem c !! a = Some h ->
  0 <= k -> 0 < nHash c ->
  returns (FetchPage_install k (Some a)) c (fun r c' =>
    r = Some a
    /\ (exists B', TableInv c' (apHash c') (nHash c') B'
                   /\ forall x, x ∈ concat B' <-> x = a \/ x ∈ concat B)
    /\ (forall x, x <> a -> mem c' !! x = mem c !! x)
    /\ (exists h', mem c' !! a = Some h' /\ iKey h' = k /\ flags h' = flags h)
    /\ nHash c' = nHash c /\ nPage c' = nPage c + 1
    /\ pDirty c' = pDirty c /\ pDirtyTail c' = pDirtyTail c).
Proof.
  intros Htab Ha Hh Hk Hpos.
  pose proof (tab_size _ _ _ _ Htab) as (_ & Hlen & HlenB).
  pose proof (rem_bucket k (nHash c) Hk Hpos) as Hrem.
  set (j := Z.to_nat (Z.rem k (nHash c))).
  destruct (lookup_lt_is_Some_2 (apHash c) j ltac:(lia)) as [q Hq].
  destruct (lookup_lt_is_Some_2 B j ltac:(lia)) as [lj Hlj].
  assert (Hlt : (a < length (mem c))%nat) by (by eapply lookup_lt_Some).
  unfold FetchPage_install. rewrite bool_decide_eq_true_2 by done.
  apply returns_bind, returns_get.
  apply returns_bind, returns_go_rem; [lia|].
  apply returns_bind, returns_modify.
  apply returns_bind, (returns_store a h); [done|].
  apply returns_bind, returns_get.
  apply returns_bind, (returns_lift_ok _ q); [by apply index_ok; [lia|]|].
  apply returns_bind; eapply (returns_store a).
  { simpl. by apply list_lookup_insert_eq. }
  apply returns_bind; eapply (returns_store a).
  { simpl. apply list_lookup_insert_eq. by rewrite length_insert. }
  apply returns_bind; eapply (returns_store a).
  { simpl. apply list_lookup_insert_eq. by rewrite !length_insert. }
  apply returns_bind; eapply (returns_store a).
  { simpl. apply list_lookup_insert_eq. by rewrite !length_insert. }
  apply returns_bind, returns_get.
  apply returns_bind, (returns_lift_ok _ (<[j := Some a]> (apHash c))).
  { unfold index_set. simpl. by rewrite (index_ok _ _ q) by (done || lia). }
  apply returns_bind, returns_modify.
  apply returns_bind, returns_get.
  apply returns_bind.
  match goal with |- returns (if ?b then _ else _) ?s _ =>
    exists tt, (if b then set_iMaxKey k s else s); split; [by destruct b|]
  end.
  apply returns_ret. simpl. rewrite !list_insert_insert_eq.
  set (h' := set_isPinned 1 (set_pLruNext None (set_pLruPrev None (set_pNext q (set_iKey k h))))).
  match goal with |- _ /\ (exists B', TableInv ?s _ _ _ /\ _) /\ _ => set (c' := s) end.
  assert (Hmem' : mem c' = <[a := h']> (mem c)) by (subst c'; by destruct (k >? _)).
  assert (Hap' : apHash c' = <[j := Some a]> (apHash c)) by (subst c'; by destruct (k >? _)).
  assert (HnH' : nHash c' = nHash c) by (subst c'; by destruct (k >? _)).
  assert (Ha' : mem c' !! a = Some h') by (rewrite Hmem'; by apply list_lookup_insert_eq).
  assert (Hfr : forall x, x <> a -> mem c' !! x = mem c !! x).
  { intros x Hx. rewrite Hmem'. by apply list_lookup_insert_ne. }
  split; [done|]. split; [|split; [done|split]].
  - exists (<[j := a :: lj]> B). rewrite Hap', HnH'.
    apply (table_push c c' (apHash c) (nHash c) B a j lj q h'); try done.
    simpl. subst j. lia.
  - exists h'. done.
  - subst c'. by destruct (k >? _).
Qed.

Lemma AllocPage_spec (c : PCache) (B : list (list nat)) (fresh : PgHdr) :
  TableInv c (apHash c) (nHash c) B ->
  (forall f, pFree c = Some f -> (f ∉ concat B) /\ is_Some (mem c !! f)) ->
  returns (AllocPage fresh) c (fun r c' =>
    exists a, r = Some a /\ (a ∉ concat B) /\ is_Some (mem c' !! a)
              /\ (forall x, x <> a -> mem c' !! x = mem c !! x)
              /\ apHash c' = apHash c /\ nHash c' = nHash c /\ nPage c' = nPage c
              /\ pDirty c' = pDirty c /\ pDirtyTail c' = pDirtyTail c).
Proof.
  intros Htab Hfree. unfold AllocPage. apply returns_bind, returns_get.
  destruct (pFree c) as [f|] eqn:Hf.
  - destruct (Hfree f eq_refl) as [HfB [hf Hhf]].
    apply returns_bind, (returns_load f hf); [done|].
    apply returns_bind, returns_modify.
    apply returns_bind, (returns_store f hf); [done|].
    apply returns_ret. simpl. exists f. split; [done|]. split; [done|]. split.
    { rewrite list_lookup_insert_eq by (by eapply lookup_lt_Some). eauto. }
    split; [|done]. intros x Hx. by apply list_lookup_insert_ne.
  - apply returns_bind, returns_modify, returns_ret. simpl.
    exists (length (mem c)). split; [done|]. split.
    { intros Hin. destruct (TableInv_valid _ _ _ _ _ Htab Hin) as [hx Hx].
      apply lookup_lt_Some in Hx. lia. }
    split; [rewrite lookup_app_r, Nat.sub_diag by lia; eauto|].
    split; [|done]. intros x Hx.
    destruct (decide (x < length (mem c))%nat).
    + by apply lookup_app_l.
    + rewrite !lookup_ge_None_2; [done|lia|]. rewrite length_app. simpl. lia.
Qed.

Lemma miss_not_resident (c : PCache) (B : list (list nat)) (k : Z) (fuel : nat) :
  HashInv c B -> (length (concat B) <= fuel)%nat -> hash_find fuel k c = (c, Ok None) ->
  0 < nHash c /\ forall a h, a ∈ concat B -> mem c !! a = Some h -> iKey h <> k.
Proof.
  intros Hinv Hfuel Hmiss. split.
  - pose proof (tab_size _ _ _ _ (hash_table _ _ Hinv)) as (Hn & _).
    destruct (Z.eq_dec (nHash c) 0) as [E|]; [|lia].
    unfold hash_find in Hmiss. rewrite bind_run in Hmiss. unfold get at 1 in Hmiss.
    rewrite bind_run in Hmiss. unfold go_rem in Hmiss. by rewrite E in Hmiss.
  - intros a h Ha Hh <-. by rewrite (hash_find_hit c B a h fuel) in Hmiss.
Qed.

Lemma perm_length_iff (l l' : list nat) :
  NoDup l -> NoDup l' -> (forall x, x ∈ l <-> x ∈ l') -> length l = length l'.
Proof. intros Hl Hl' Hiff. by apply Permutation_length, NoDup_Permutation. Qed.

(** Steps 4 and 5 when the cache is at its limit: the LRU tail is taken
    out of its chain and installed under the new key. *)
Lemma FetchPage_recycle_spec (c : PCache) (B : list (list nat)) (fuel : nat)
    (fresh : PgHdr) (k : Z) (a : nat) (h : PgHdr) :
  HashInv c B -> (length (concat B) <= fuel)%nat -> 0 <= k -> 0 < nHash c ->
  (forall x hx, x ∈ concat B -> mem c !! x = Some hx -> iKey hx <> k) ->
  nMax c <= nPage c + 1 -> lru_pLruPrev c = Some a -> a ∈ concat B -> mem c !! a = Some h ->
  returns (FetchPage_obtain fuel fresh ≫= FetchPage_install k) c (fun r c' =>
    r = Some a
    /\ (exists B', HashInv c' B' /\ forall x, x ∈ concat B' <-> x ∈ concat B)
    /\ (forall x, x <> a -> but_next <$> mem c' !! x = but_next <$> mem c !! x)
    /\ (exists h', mem c' !! a = Some h' /\ iKey h' = k /\ flags h' = flags h)
    /\ nHash c' = nHash c /\ pDirty c' = pDirty c /\ pDirtyTail c' = pDirtyTail c).
Proof.
  intros Hinv Hfuel Hk Hpos Hfresh Hfull Hlru Ha Hh.
  apply returns_bind. unfold FetchPage_obtain. apply returns_bind, returns_get.
  destruct (Z.geb_spec (nPage c + 1) (nMax c)); [|lia]. rewrite Hlru.
  apply returns_bind, returns_bind.
  eapply returns_wand; [by apply (RemoveFromHash_spec c B a h fuel)|].
  intros _ c2 ((B2 & Htab2 & Hin2) & Hbn2 & HnH2 & _ & _ & Hrest2).
  apply returns_ret. rewrite bool_decide_eq_false_2 by done. apply returns_ret.
  injection Hrest2 as _ Hd2 Ht2 _ _.
  pose proof (Hbn2 a) as Ea. rewrite Hh in Ea. simpl in Ea.
  apply fmap_Some in Ea as (h2 & Hh2 & Eh2).
  eapply returns_wand.
  { apply (FetchPage_install_spec c2 B2 a h2 k); [done| |done|done|lia].
    rewrite Hin2. tauto. }
  intros r c' (-> & (B' & Htab' & Hin') & Hfr' & (h' & Hh' & Hk' & Hf') & HnH' & _ & Hd' & Ht').
  assert (Hmem : forall x, x ∈ concat B' <-> x ∈ concat B).
  { intros x. rewrite Hin', Hin2. destruct (decide (x = a)) as [->|]; tauto. }
  assert (Hbn : forall x, x <> a -> but_next <$> mem c' !! x = but_next <$> mem c !! x).
  { intros x Hx. by rewrite Hfr', Hbn2. }
  split; [done|]. split; [|split; [done|split]].
  - exists B'. split; [|done]. split; [done|].
    assert (Hkey : forall x, x ∈ concat B' -> x <> a ->
              key_of c' x = key_of c x /\ key_of c' x <> Some k).
    { intros x Hx Hxa. unfold key_of. rewrite (but_next_iKey _ _ (Hbn x Hxa)).
      split; [done|]. apply Hmem in Hx.
      destruct (TableInv_valid _ _ _ _ _ (hash_table _ _ Hinv) Hx) as [hx Hhx].
      rewrite Hhx. simpl. intros [= E]. by apply (Hfresh x hx). }
    assert (Hkeya : key_of c' a = Some k) by (unfold key_of; by rewrite Hh', <- Hk').
    intros x y Hx Hy E.
    destruct (decide (x = a)) as [->|Hxa], (decide (y = a)) as [->|Hya]; [done| | |].
    + destruct (Hkey y Hy Hya) as [_ Hne]. congruence.
    + destruct (Hkey x Hx Hxa) as [_ Hne]. congruence.
    + destruct (Hkey x Hx Hxa) as [Ex _], (Hkey y Hy Hya) as [Ey _].
      apply (hash_keys _ _ Hinv); [by apply Hmem..|congruence].
  - exists h'. split; [done|]. split; [done|]. rewrite Hf'.
    apply (f_equal flags) in Eh2. done.
  - split; [congruence|]. split; congruence.
Qed.

(** Steps 4 and 5 below the limit: an entry from the free list or a new
    one is installed, and the table keeps what it held. *)
Lemma FetchPage_alloc_spec (c : PCache) (B : list (list nat)) (fuel : nat)
    (fresh : PgHdr) (k : Z) :
  HashInv c B -> 0 <= k -> 0 < nHash c ->
  (forall x hx, x ∈ concat B -> mem c !! x = Some hx -> iKey hx <> k) ->
  nPage c + 1 < nMax c ->
  (forall f, pFree c = Some f -> (f ∉ concat B) /\ is_Some (mem c !! f)) ->
  returns (FetchPage_obtain fuel fresh ≫= FetchPage_install k) c (fun r c' =>
    exists a, r = Some a /\ (a ∉ concat B)
      /\ (exists B', HashInv c' B' /\ forall x, x ∈ concat B' <-> x = a \/ x ∈ concat B)
      /\ (forall x, x <> a -> mem c' !! x = mem c !! x)).
Proof.
  intros Hinv Hk Hpos Hfresh Hroom Hfree.
  apply returns_bind. unfold FetchPage_obtain. apply returns_bind, returns_get.
  destruct (Z.geb_spec (nPage c + 1) (nMax c)); [lia|].
  apply returns_bind, returns_ret. rewrite bool_decide_eq_true_2 by done.
  eapply returns_wand; [by apply (AllocPage_spec c B fresh); [apply Hinv|]|].
  intros r c1 (a & -> & Ha & [h1 Hh1] & Hfr1 & Hap1 & HnH1 & _).
  assert (Htab1 : TableInv c1 (apHash c1) (nHash c1) B).
  { rewrite Hap1, HnH1. apply (TableInv_frame c); [|apply Hinv].
    intros x Hx. apply Hfr1. by intros ->. }
  eapply returns_wand; [by apply (FetchPage_install_spec c1 B a h1 k); [..|lia]|].
  intros r c' (-> & (B' & Htab' & Hin') & Hfr' & (h' & Hh' & Hk' & _) & _).
  assert (Hfr : forall x, x <> a -> mem c' !! x = mem c !! x).
  { intros x Hx. by rewrite Hfr', Hfr1. }
  exists a. split; [done|]. split; [done|]. split; [|done].
  exists B'. split; [|done]. split; [done|].
  assert (Hkey : forall x, x ∈ concat B' -> x <> a ->
            x ∈ concat B /\ key_of c' x = key_of c x /\ key_of c' x <> Some k).
  { intros x Hx Hxa. apply Hin' in Hx as [->|Hx]; [done|]. split; [done|].
    unfold key_of. rewrite (Hfr x Hxa). split; [done|].
    destruct (TableInv_valid _ _ _ _ _ (hash_table _ _ Hinv) Hx) as [hx Hhx].
    rewrite Hhx. simpl. intros [= E]. by apply (Hfresh x hx). }
  assert (Hkeya : key_of c' a = Some k) by (unfold key_of; by rewrite Hh', <- Hk').
  intros x y Hx Hy E.
  destruct (decide (x = a)) as [->|Hxa], (decide (y = a)) as [->|Hya]; [done| | |].
  - destruct (Hkey y Hy Hya) as (_ & _ & Hne). congruence.
  - destruct (Hkey x Hx Hxa) as (_ & _ & Hne). congruence.
  - destruct (Hkey x Hx Hxa) as (Hx' & Ex & _), (Hkey y Hy Hya) as (Hy' & Ey & _).
    apply (hash_keys _ _ Hinv); [done..|congruence].
Qed.

Lemma resize_step (c : PCache) (B : list (list nat)) (fuel : nat) :
  HashInv c B -> (length (concat B) <= fuel)%nat -> 0 < nHash c ->
  returns (if nPage c >=? nHash c then ResizeHash fuel else mret tt) c (fun _ c1 =>
    rest_of c1 = rest_of c
    /\ (forall x, but_next <$> mem c1 !! x = but_next <$> mem c !! x)
    /\ 0 < nHash c1
    /\ exists B1, HashInv c1 B1 /\ forall x, x ∈ concat B1 <-> x ∈ concat B).
Proof.
  intros Hinv Hfuel Hpos. destruct (nPage c >=? nHash c).
  - eapply returns_wand; [by apply (ResizeHash_spec c B fuel)|].
    intros _ c1 (HnH & Hrest & Hbn & HB). split; [done|]. split; [done|]. split; [lia|done].
  - apply returns_ret. split; [done|]. split; [done|]. split; [done|]. by exists B.
Qed.

Lemma entry_after (c c1 : PCache) (x : nat) (hx : PgHdr) :
  (forall y, but_next <$> mem c1 !! y = but_next <$> mem c !! y) ->
  mem c !! x = Some hx ->
  exists h1, mem c1 !! x = Some h1 /\ iKey h1 = iKey hx /\ flags h1 = flags hx.
Proof.
  intros Hbn Hx. pose proof (Hbn x) as E. rewrite Hx in E. simpl in E.
  apply fmap_Some in E as (h1 & Hh1 & E). exists h1. split; [done|].
  split; [by apply (f_equal iKey) in E | by apply (f_equal flags) in E].
Qed.

Lemma entry_before (c c1 : PCache) (x : nat) (h1 : PgHdr) :
  (forall y, but_next <$> mem c1 !! y = but_next <$> mem c !! y) ->
  mem c1 !! x = Some h1 ->
  exists hx, mem c !! x = Some hx /\ iKey h1 = iKey hx /\ flags h1 = flags hx.
Proof.
  intros Hbn Hx. pose proof (Hbn x) as E. rewrite Hx in E. simpl in E. symmetry in E.
  apply fmap_Some in E as (hx & Hhx & E). exists hx. split; [done|].
  split; [by apply (f_equal iKey) in E | by apply (f_equal flags) in E].
Qed.



(** *** The statements above at concrete inputs *)

Ltac distinct :=
  let H := fresh in
  intros H; repeat (apply elem_of_cons in H as [H|H]; [done|]); by apply elem_of_nil in H.

Lemma sqlite_flags_ok : @FlagsOk sqlite_flags.
Proof. split; [exists 0; split; [lia | reflexivity] | reflexivity | done]. Qed.

Lemma dirty_cache_inv : @DirtyInv sqlite_flags dirty_cache [2%nat; 0%nat].
Proof.
  split.
  - repeat (apply NoDup_cons; split; [distinct|]). apply NoDup_nil_2.
  - split; [reflexivity|]. split; [reflexivity|].
    intros [|[|i]] a Ha; [..|done]; injection Ha as <-;
      eexists; (split; [reflexivity|]); split; reflexivity.
  - intros [|[|[|a]]] h Hh; [..|done]; injection Hh as <-; unfold is_dirty; simpl.
    + split; [done|]. intros _. right; left.
    + split; [|done]. intros [?|[?|?%elem_of_nil]%elem_of_cons]%elem_of_cons; done.
    + split; [done|]. intros _. left.
  - intros [|[|[|a]]] h Hh; [..|done]; injection Hh as <-; unfold is_clean, is_dirty; simpl;
      intros Hc Hd; first [by apply Hc | by apply Hd].
  - intros [|[|[|a]]] h Hh Hout; [..|done]; injection Hh as <-; simpl; [|done|].
    + exfalso. apply Hout. right; left.
    + exfalso. apply Hout. left.
Qed.

Lemma hash_cache_inv : HashInv hash_cache hash_buckets.
Proof.
  split; [split|].
  - simpl. lia.
  - intros [|[|i]] l Hl; [..|done]; injection Hl as <-; eexists; (split; [reflexivity|]); simpl.
    + split; [done|]. eexists. split; [reflexivity|]. simpl.
      split; [done|]. eexists. split; [reflexivity|]. done.
    + split; [done|]. eexists. split; [reflexivity|]. done.
  - simpl. repeat (apply NoDup_cons; split; [distinct|]). apply NoDup_nil_2.
  - intros [|[|i]] l a Hl Ha; [..|done]; injection Hl as <-;
      repeat (apply elem_of_cons in Ha as [->|Ha]); try (by apply elem_of_nil in Ha);
      eexists; (split; [reflexivity|]); simpl; split; (lia || reflexivity).
  - intros a b Ha Hb; simpl in Ha, Hb;
      repeat (apply elem_of_cons in Ha as [->|Ha]); try (by apply elem_of_nil in Ha);
      repeat (apply elem_of_cons in Hb as [->|Hb]); try (by apply elem_of_nil in Hb);
      done.
Qed.

Lemma ResizeHash_keeps_entries_witness :
  (hash_find 3 5 hash_cache = (hash_cache, Ok None) -> nHash hash_cache <= nPage hash_cache ->
   FetchPage 3 zeroed 5 hash_cache =
   (ResizeHash 3 ≫= fun _ => FetchPage_obtain 3 zeroed ≫= FetchPage_install 5) hash_cache)
  /\ exists c',
       ResizeHash 3 hash_cache = (c', Ok tt)
       /\ nHash c' = Z.max 256 (nHash hash_cache * 2)
       /\ length (apHash c') = Z.to_nat (nHash c')
       /\ (exists B', HashInv c' B' /\ forall a, a ∈ concat B' <-> a ∈ concat hash_buckets)
       /\ forall a h, a ∈ concat hash_buckets -> mem hash_cache !! a = Some h ->
            hash_find 3 (iKey h) c' = (c', Ok (Some a)).
Proof.
  apply (ResizeHash_keeps_entries hash_cache hash_buckets 3 zeroed 5).
  - exact hash_cache_inv.
  - simpl. lia.
Defined.

Lemma MakeDirty_MakeClean_idempotent_witness :
  (@MakeDirty sqlite_flags (Some 0%nat) ≫= fun _ => @MakeDirty sqlite_flags (Some 0%nat))
    dirty_cache = @MakeDirty sqlite_flags (Some 0%nat) dirty_cache
  /\ (@MakeClean sqlite_flags (Some 0%nat) ≫= fun _ => @MakeClean sqlite_flags (Some 0%nat))
       dirty_cache = @MakeClean sqlite_flags (Some 0%nat) dirty_cache.
Proof.
  exact (@MakeDirty_MakeClean_idempotent sqlite_flags sqlite_flags_ok (Some 0%nat) dirty_cache).
Defined.

Lemma dirty_list_invariant_witness :
  (forall a h, mem dirty_cache !! a = Some h ->
     exists c', @MakeDirty sqlite_flags (Some a) dirty_cache = (c', Ok tt)
                /\ @DirtyInv sqlite_flags c'
                     (if decide (@is_clean sqlite_flags h) then a :: [2%nat; 0%nat]
                      else [2%nat; 0%nat]))
  /\ (forall a h, mem dirty_cache !! a = Some h ->
        exists c', @MakeClean sqlite_flags (Some a) dirty_cache = (c', Ok tt)
                   /\ @DirtyInv sqlite_flags c' (filter (fun x => x <> a) [2%nat; 0%nat]))
  /\ (forall fuel, (length [2%nat; 0%nat] <= fuel)%nat ->
        exists c', @MakeCleanAll sqlite_flags fuel dirty_cache = (c', Ok tt)
                   /\ @DirtyInv sqlite_flags c' [] /\ pDirty c' = None /\ pDirtyTail c' = None
                   /\ forall a, a ∈ [2%nat; 0%nat] ->
                        exists h', mem c' !! a = Some h' /\ @is_clean sqlite_flags h').
Proof.
  exact (@dirty_list_invariant sqlite_flags sqlite_flags_ok dirty_cache [2%nat; 0%nat]
           dirty_cache_inv).
Defined.



(** ** Further properties of the hash table and the fetch *)

(** The table invariant reads the cache through [apHash], [nHash] and
    the resident entries only. *)
Lemma HashInv_same (c c' : PCache) (B : list (list nat)) :
  apHash c' = apHash c -> nHash c' = nHash c ->
  (forall x, x ∈ concat B -> mem c' !! x = mem c !! x) ->
  HashInv c B -> HashInv c' B.
Proof.
  intros Hap HnH Hmem [Htab Hkeys]. split.
  - rewrite Hap, HnH. by apply (TableInv_frame c).
  - intros a b Ha Hb. unfold key_of. rewrite !Hmem by done. by apply Hkeys.
Qed.

(** X8.  A fetch of a page that is resident returns its entry and
    leaves the cache exactly as it was: nothing is pinned, counted or
    moved. *)
Theorem FetchPage_hit (c : PCache) (B : list (list nat)) (a : nat) (h : PgHdr)
    (fuel : nat) (fresh : PgHdr) :
  HashInv c B -> a ∈ concat B -> mem c !! a = Some h -> (length (concat B) <= fuel)%nat ->
  FetchPage fuel fresh (iKey h) c = (c, Ok (Some a)).
Proof.
  intros Hinv Ha Hh Hfuel. unfold FetchPage.
  rewrite (bind_run_ok _ _ _ _ _ (hash_find_hit c B a h fuel Hinv Ha Hh Hfuel)).
  by rewrite bool_decide_eq_true_2.
Qed.

Lemma FetchPage_hit_witness :
  FetchPage 3 zeroed (iKey (entry 2 1 None None None)) hash_cache
  = (hash_cache, Ok (Some 0%nat)).
Proof.
  apply (FetchPage_hit hash_cache hash_buckets 0 (entry 2 1 None None None) 3 zeroed).
  - exact hash_cache_inv.
  - simpl. right; left.
  - reflexivity.
  - simpl. lia.
Defined.

(** X9.  Keys the table cannot index.  With [nHash = 0] (no table was
    sized yet) every fetch panics on the division [iKey % nHash]; with a
    table in place, a negative key that is no multiple of [nHash] gives
    a negative remainder and the bucket read panics.  The cache is left
    as it was. *)
Theorem FetchPage_key_panics (c : PCache) (fuel : nat) (fresh : PgHdr) (k : Z) :
  (nHash c = 0 -> FetchPage fuel fresh k c = (c, Panic "integer divide by zero"))
  /\ (0 < nHash c -> k < 0 -> Z.rem k (nHash c) <> 0 ->
      FetchPage fuel fresh k c = (c, Panic "index out of range")).
Proof.
  split.
  - intros E. unfold FetchPage, hash_find. rewrite !bind_run. unfold get at 1.
    rewrite !bind_run. unfold go_rem. by rewrite E.
  - intros Hpos Hk Hrem. unfold FetchPage, hash_find. rewrite !bind_run. unfold get at 1.
    rewrite !bind_run. unfold go_rem.
    destruct (Z.eqb_spec (nHash c) 0); [lia|]. unfold mret, M_ret.
    rewrite !bind_run. unfold lift, index.
    pose proof (Z.rem_nonpos k (nHash c) ltac:(lia) ltac:(lia)).
    by destruct (Z.ltb_spec (Z.rem k (nHash c)) 0); [|lia].
Qed.

Lemma FetchPage_key_panics_witness :
  FetchPage 3 zeroed 5 dirty_cache = (dirty_cache, Panic "integer divide by zero")
  /\ FetchPage 3 zeroed (-1) hash_cache = (hash_cache, Panic "index out of range").
Proof.
  split.
  - apply (proj1 (FetchPage_key_panics dirty_cache 3 zeroed 5)). reflexivity.
  - apply (proj2 (FetchPage_key_panics hash_cache 3 zeroed (-1))); [simpl; lia | lia | by vm_compute].
Defined.

(** X10.  [ResizeHash] on a cache without a table, as [Create] calls it:
    it returns with a table of 256 empty slots, whatever [apHash] held,
    and touches neither the arena nor the other fields.  The table is at
    rest, every lookup in it misses, and [nHash] is not 0, so the
    [Destroy] branch of [Create] is not taken. *)
Theorem ResizeHash_first (c : PCache) (fuel : nat) :
  nHash c = 0 ->
  exists c', ResizeHash fuel c = (c', Ok tt)
             /\ nHash c' = 256 /\ apHash c' = replicate 256 None
             /\ mem c' = mem c /\ rest_of c' = rest_of c
             /\ HashInv c' (replicate 256 [])
             /\ forall k, 0 <= k -> hash_find fuel k c' = (c', Ok None).
Proof.
  intros E. unfold ResizeHash. rewrite !bind_run. unfold get at 1. rewrite E.
  change (Z.to_nat 0) with 0%nat. cbn [rehash_buckets]. unfold mret at 1, M_ret at 1.
  change (if 0 * 2 <? 256 then 256 else 0 * 2) with 256.
  rewrite !bind_run. unfold modify.
  eexists. split; [reflexivity|].
  assert (Hinv : HashInv (set_nHash 256 (set_apHash (replicate (Z.to_nat 256) None) c))
                   (replicate 256 [])).
  { split.
    - apply (TableInv_empty _ 256). lia.
    - intros a b Ha. rewrite concat_replicate_nil in Ha. by apply elem_of_nil in Ha. }
  split; [done|]. split; [done|]. split; [done|]. split; [done|]. split; [done|].
  intros k Hk. apply (hash_find_miss _ (replicate 256 [])); [done|done|simpl; lia| |].
  - intros a h Ha. rewrite concat_replicate_nil in Ha. by apply elem_of_nil in Ha.
  - rewrite concat_replicate_nil. simpl. lia.
Qed.

Lemma ResizeHash_first_witness :
  exists c', ResizeHash 0 dirty_cache = (c', Ok tt)
             /\ nHash c' = 256 /\ apHash c' = replicate 256 None
             /\ mem c' = mem dirty_cache /\ rest_of c' = rest_of dirty_cache
             /\ HashInv c' (replicate 256 [])
             /\ forall k, 0 <= k -> hash_find 0 k c' = (c', Ok None).
Proof. apply (ResizeHash_first dirty_cache 0). reflexivity. Defined.

(** X11.  The free list is a stack: an entry given to [FreePage] is the
    one the next [AllocPage] hands back, with its [pNext] cleared, and
    the free list is what it was before the pair of calls. *)
Theorem FreePage_AllocPage (c : PCache) (a : nat) (h : PgHdr) (fresh : PgHdr) :
  mem c !! a = Some h ->
  (FreePage (Some a) ≫= fun _ => AllocPage fresh) c
  = (set_mem (<[a := set_pNext None h]> (mem c)) c, Ok (Some a)).
Proof.
  intros Hh. assert (Hlt : (a < length (mem c))%nat) by (by eapply lookup_lt_Some).
  unfold FreePage. rewrite !bind_run. unfold get at 1.
  rewrite !bind_run, (store_ok a _ c h Hh). unfold modify at 1.
  unfold AllocPage. rewrite !bind_run. unfold get at 1.
  set (c1 := set_pFree (Some a) _).
  assert (H1 : mem c1 !! a = Some (set_pNext (pFree c) h)) by (by apply list_lookup_insert_eq).
  change (pFree c1) with (Some a). cbv iota beta.
  rewrite !bind_run, (load_ok a c1 _ H1). unfold modify at 1.
  rewrite !bind_run. erewrite store_ok by exact H1.
  unfold mret, M_ret. subst c1. simpl. rewrite list_insert_insert_eq. by destruct c.
Qed.

Lemma FreePage_AllocPage_witness :
  (FreePage (Some 1%nat) ≫= fun _ => AllocPage zeroed) hash_cache
  = (set_mem (<[1%nat := set_pNext None (entry 4 1 (Some 0%nat) None None)]> (mem hash_cache))
       hash_cache, Ok (Some 1%nat)).
Proof.
  apply (FreePage_AllocPage hash_cache 1 (entry 4 1 (Some 0%nat) None None) zeroed).
  reflexivity.
Defined.

(** *** What a call leaves alone *)

#[local] Instance same_on_preorder {X} (f : PCache -> X) : PreOrder (same_on f).
Proof. split; [by intros c | intros c1 c2 c3 H12 H23; unfold same_on in *; congruence]. Qed.

Lemma keeps_store_on {X} (f : PCache -> X) (p : pgptr) (g : PgHdr -> PgHdr) :
  (forall c v, f (set_mem v c) = f c) -> keeps (same_on f) (store p g).
Proof. intros Hf c c' u H. apply store_inv in H as (a & h & -> & _ & ->). apply Hf. Qed.

Ltac keeps_on :=
  repeat first
    [ apply keeps_store_on; done
    | apply keeps_load; apply _
    | apply keeps_modify; intros ?; unfold same_on; done
    | apply keeps_ret; apply _
    | apply keeps_get; apply _
    | apply keeps_lift; apply _
    | apply keeps_go_rem; apply _
    | apply keeps_panic
    | apply keeps_out_of_fuel
    | apply keeps_bind; [apply _ | | intros ?]
    | case_bool_decide
    | case_match ].

Lemma hash_find_pure (fuel : nat) (k : Z) : keeps eq (hash_find fuel k).
Proof.
  assert (Hwalk : forall fuel p, keeps eq (hash_walk fuel p k)).
  { clear fuel. induction fuel as [|fuel IH]; intros p; simpl; destruct p;
      repeat first
        [ apply keeps_load; apply _ | apply keeps_ret; apply _ | apply keeps_out_of_fuel
        | apply keeps_bind; [apply _ | | intros ?] | apply IH | case_match ]. }
  unfold hash_find.
  repeat first
    [ apply keeps_get; apply _ | apply keeps_lift; apply _ | apply keeps_go_rem; apply _
    | apply keeps_bind; [apply _ | | intros ?] | apply Hwalk ].
Qed.

Lemma ResizeHash_rest (fuel : nat) : keeps (same_on rest_of) (ResizeHash fuel).
Proof.
  assert (Hchain : forall fuel nNew apNew p, keeps (same_on rest_of) (rehash_chain fuel nNew apNew p)).
  { clear fuel. induction fuel as [|fuel IH]; intros nNew apNew p; simpl; destruct p;
      keeps_on; apply IH. }
  assert (Hbuckets : forall n i nNew apNew,
            keeps (same_on rest_of) (rehash_buckets fuel n i nNew apNew)).
  { induction n as [|n IH]; intros i nNew apNew; simpl; keeps_on; [apply Hchain | apply IH]. }
  unfold ResizeHash. keeps_on; apply Hbuckets.
Qed.

Lemma FreePage_counts (p : pgptr) :
  keeps (same_on (fun c => (nMax c, lru_pLruPrev c, nPage c))) (FreePage p).
Proof. unfold FreePage. keeps_on. Qed.

Lemma AllocPage_counts (fresh : PgHdr) :
  keeps (same_on (fun c => (nMax c, lru_pLruPrev c, nPage c, iMaxKey c))) (AllocPage fresh).
Proof. unfold AllocPage. keeps_on. Qed.

Lemma AllocPage_some (fresh : PgHdr) (c c' : PCache) (p : pgptr) :
  AllocPage fresh c = (c', Ok p) -> p <> None.
Proof.
  unfold AllocPage. rewrite bind_run. unfold get at 1.
  destruct (pFree c) as [f|] eqn:E.
  - intros H. apply bind_ok_inv in H as (h & c1 & _ & H).
    apply bind_ok_inv in H as (u & c2 & _ & H).
    apply bind_ok_inv in H as (u' & c3 & _ & H). by injection H as _ <-.
  - intros H. apply bind_ok_inv in H as (u & c1 & _ & H). by injection H as _ <-.
Qed.

Lemma slot_get_pure (s : slot) : keeps eq (slot_get s).
Proof.
  unfold slot_get. destruct s;
    repeat first
      [ apply keeps_get; apply _ | apply keeps_lift; apply _ | apply keeps_load; apply _
      | apply keeps_ret; apply _ | apply keeps_bind; [apply _ | | intros ?] ].
Qed.

Lemma RemoveFromHash_counts (fuel : nat) (p : pgptr) (c c' : PCache) (u : unit) :
  RemoveFromHash fuel p c = (c', Ok u) ->
  p <> None /\ nMax c' = nMax c /\ lru_pLruPrev c' = lru_pLruPrev c /\ nPage c' = nPage c - 1.
Proof.
  set (F := fun c : PCache => (nMax c, lru_pLruPrev c, nPage c)).
  assert (Hwalk : forall fuel s q, keeps (same_on F) (unlink_walk fuel s q)).
  { clear. induction fuel as [|fuel IH]; intros s q; simpl; unfold slot_get; keeps_on; apply IH. }
  assert (Hset : forall s v, keeps (same_on F) (slot_set s v)).
  { intros s v. unfold slot_set. keeps_on. }
  unfold RemoveFromHash. intros H.
  apply bind_ok_inv in H as (pg & c1 & Hload & H).
  apply load_inv in Hload as (-> & a & -> & _).
  apply bind_ok_inv in H as (c0 & c1 & [= <- <-] & H).
  apply bind_ok_inv in H as (h & c1 & Hrem & H). apply (keeps_go_rem eq) in Hrem as <-.
  apply bind_ok_inv in H as (q0 & c1 & [= <- _] & H).
  apply bind_ok_inv in H as (s & c1 & H1 & H). apply Hwalk in H1.
  apply bind_ok_inv in H as (q & c2 & H2 & H). apply slot_get_pure in H2 as <-.
  apply bind_ok_inv in H as (qh & c2 & H2 & H). apply load_inv in H2 as (-> & _).
  apply bind_ok_inv in H as (u1 & c2 & H2 & H). apply Hset in H2.
  apply bind_ok_inv in H as (u2 & c3 & [= <- _] & H).
  apply FreePage_counts in H. unfold same_on, F in *. simpl in *.
  split; [done|]. injection H as -> -> ->. injection H2 as -> -> ->.
  injection H1 as -> -> ->. done.
Qed.

Lemma FetchPage_install_counts (k : Z) (p : pgptr) (c c' : PCache) (r : pgptr) :
  FetchPage_install k p c = (c', Ok r) ->
  r = p /\ nMax c' = nMax c /\ lru_pLruPrev c' = lru_pLruPrev c
  /\ nPage c' = (if p is Some _ then nPage c + 1 else nPage c).
Proof.
  unfold FetchPage_install. destruct p as [a|].
  - rewrite bool_decide_eq_true_2 by done. intros H.
    apply bind_ok_inv in H as (c0 & c1 & [= <- <-] & H).
    apply bind_ok_inv in H as (h & c1 & H1 & H). apply (keeps_go_rem eq) in H1 as <-.
    apply bind_ok_inv in H as (u & c1 & [= <- _] & H).
    remember (set_nPage (nPage c + 1) c) as c1 eqn:Ec1.
    assert (Hk : keeps (same_on (fun c => (nMax c, lru_pLruPrev c, nPage c)))
              (_ ← store (Some a) (set_iKey k);
               c ← get;
               head ← lift (index (apHash c) h);
               _ ← store (Some a) (set_pNext head);
               _ ← store (Some a) (set_pLruPrev None);
               _ ← store (Some a) (set_pLruNext None);
               _ ← store (Some a) (set_isPinned 1);
               c ← get;
               a0 ← lift (index_set (apHash c) h (Some a));
               _ ← modify (set_apHash a0);
               c ← get;
               _ ← (if k >? iMaxKey c then modify (set_iMaxKey k) else mret tt);
               mret (Some a))) by keeps_on.
    pose proof (Hk _ _ _ H) as E. unfold same_on in E. injection E as -> -> ->.
    split; [|by rewrite Ec1].
    repeat (apply bind_ok_inv in H as (? & ? & _ & H)). by injection H as _ <-.
  - rewrite bool_decide_eq_false_2 by (by intros []). by intros [= <- <-].
Qed.

Lemma FetchPage_obtain_counts (fuel : nat) (fresh : PgHdr) (c c' : PCache) (p : pgptr) :
  FetchPage_obtain fuel fresh c = (c', Ok p) ->
  p <> None /\ nMax c' = nMax c /\ lru_pLruPrev c' = lru_pLruPrev c
  /\ nPage c' = (if nPage c + 1 >=? nMax c then nPage c - 1 else nPage c).
Proof.
  unfold FetchPage_obtain. intros H.
  apply bind_ok_inv in H as (c0 & c1 & [= <- <-] & H).
  apply bind_ok_inv in H as (q & c1 & H1 & H).
  destruct (nPage c + 1 >=? nMax c).
  - apply bind_ok_inv in H1 as (u & c2 & H1 & [= <- <-]).
    apply RemoveFromHash_counts in H1 as (Hq & Hm & Hl & Hn).
    rewrite bool_decide_eq_false_2 in H by done. by injection H as <- <-.
  - injection H1 as <- <-. rewrite bool_decide_eq_true_2 in H by done.
    pose proof (AllocPage_some _ _ _ _ H). apply AllocPage_counts in H.
    unfold same_on in H. by injection H as -> -> -> _.
Qed.

(** X12.  What a fetch that returns never does, whatever the cache
    looked like: it never returns nil, never changes the capacity
    [nMax] or the LRU tail, never lowers [nPage], and never raises it
    to [nMax]: the count stays at most the larger of its old value and
    [nMax - 1]. *)
Theorem FetchPage_never_fills (fuel : nat) (fresh : PgHdr) (k : Z) (c c' : PCache)
    (p : pgptr) :
  FetchPage fuel fresh k c = (c', Ok p) ->
  p <> None /\ recycling c' = recycling c
  /\ nPage c <= nPage c' <= Z.max (nPage c) (nMax c - 1).
Proof.
  unfold FetchPage, recycling. intros H.
  apply bind_ok_inv in H as (q & c1 & H1 & H). apply hash_find_pure in H1 as <-.
  case_bool_decide as Hq.
  - injection H as <- <-. split; [done|]. split; [done|]. lia.
  - apply bind_ok_inv in H as (c0 & c1 & [= <- <-] & H).
    apply bind_ok_inv in H as (u & c1 & H1 & H).
    assert (E1 : rest_of c1 = rest_of c).
    { destruct (nPage c >=? nHash c); [by apply ResizeHash_rest in H1|by injection H1 as <-]. }
    injection E1 as Em En _ _ _ _ El.
    apply bind_ok_inv in H as (q' & c2 & H2 & H).
    apply FetchPage_obtain_counts in H2 as (Hq' & Hm2 & Hl2 & Hn2).
    apply FetchPage_install_counts in H as (-> & Hm3 & Hl3 & Hn3).
    destruct q' as [a|]; [|done]. split; [done|].
    split; [congruence|]. rewrite Hn3, Hn2, Em, En.
    destruct (Z.geb_spec (nPage c + 1) (nMax c)); lia.
Qed.

Lemma FetchPage_never_fills_witness :
  Some 2%nat <> None
  /\ recycling (fst (FetchPage 4 zeroed 5 hash_cache)) = recycling hash_cache
  /\ nPage hash_cache <= nPage (fst (FetchPage 4 zeroed 5 hash_cache))
     <= Z.max (nPage hash_cache) (nMax hash_cache - 1).
Proof.
  apply (FetchPage_never_fills 4 zeroed 5 hash_cache _ (Some 2%nat)).
  vm_compute. reflexivity.
Defined.

(** *** The state a fetch leaves behind *)

Lemma returns_and {A} (m : M PCache A) (c : PCache) (Q1 Q2 : A -> PCache -> Prop) :
  returns m c Q1 -> returns m c Q2 -> returns m c (fun a c' => Q1 a c' /\ Q2 a c').
Proof.
  intros (a & c' & E & H1) (a2 & c2 & E2 & H2). rewrite E in E2. injection E2 as <- <-.
  exists a, c'. done.
Qed.

(** The entry that the closing block of [FetchPage] writes. *)
Lemma FetchPage_install_run (c : PCache) (a : nat) (h : PgHdr) (k : Z) (q : pgptr) :
  mem c !! a = Some h -> 0 <= k -> 0 < nHash c ->
  apHash c !! Z.to_nat (Z.rem k (nHash c)) = Some q ->
  returns (FetchPage_install k (Some a)) c (fun r c' =>
    r = Some a
    /\ mem c' = <[a := set_isPinned 1 (set_pLruNext None (set_pLruPrev None
                       (set_pNext q (set_iKey k h))))]> (mem c)
    /\ apHash c' = <[Z.to_nat (Z.rem k (nHash c)) := Some a]> (apHash c)
    /\ nPage c' = nPage c + 1
    /\ iMaxKey c' = Z.max (iMaxKey c) k
    /\ (nMax c', pFree c', lru_pLruPrev c') = (nMax c, pFree c, lru_pLruPrev c)).
Proof.
  intros Hh Hk Hpos Hq.
  pose proof (rem_bucket k (nHash c) Hk Hpos) as Hrem.
  set (j := Z.to_nat (Z.rem k (nHash c))) in *.
  assert (Hlt : (a < length (mem c))%nat) by (by eapply lookup_lt_Some).
  unfold FetchPage_install. rewrite bool_decide_eq_true_2 by done.
  apply returns_bind, returns_get.
  apply returns_bind, returns_go_rem; [lia|].
  apply returns_bind, returns_modify.
  apply returns_bind, (returns_store a h); [done|].
  apply returns_bind, returns_get.
  apply returns_bind, (returns_lift_ok _ q); [by apply index_ok; [lia|]|].
  apply returns_bind; eapply (returns_store a).
  { simpl. by apply list_lookup_insert_eq. }
  apply returns_bind; eapply (returns_store a).
  { simpl. apply list_lookup_insert_eq. by rewrite length_insert. }
  apply returns_bind; eapply (returns_store a).
  { simpl. apply list_lookup_insert_eq. by rewrite !length_insert. }
  apply returns_bind; eapply (returns_store a).
  { simpl. apply list_lookup_insert_eq. by rewrite !length_insert. }
  apply returns_bind, returns_get.
  apply returns_bind, (returns_lift_ok _ (<[j := Some a]> (apHash c))).
  { unfold index_set. simpl. by rewrite (index_ok _ _ q) by (done || lia). }
  apply returns_bind, returns_modify.
  apply returns_bind, returns_get.
  apply returns_bind.
  match goal with |- returns (if ?b then _ else _) ?s _ =>
    exists tt, (if b then set_iMaxKey k s else s); split; [by destruct b|]
  end.
  apply returns_ret. simpl. rewrite !list_insert_insert_eq.
  destruct (Z.gtb_spec k (iMaxKey c)); simpl; repeat split; lia.
Qed.

(** What [AllocPage] hands out: the head of the free list with its
    [pNext] cleared, or the block it is given as fresh. *)
Lemma AllocPage_run (c : PCache) (fresh : PgHdr) :
  (forall f, pFree c = Some f -> is_Some (mem c !! f)) ->
  returns (AllocPage fresh) c (fun r c' =>
    exists a ha, r = Some a /\ mem c' !! a = Some ha
      /\ (apHash c', nHash c', nPage c', iMaxKey c') = (apHash c, nHash c, nPage c, iMaxKey c)
      /\ (pFree c = None -> a = length (mem c) /\ ha = fresh)
      /\ (forall f hf, pFree c = Some f -> mem c !! f = Some hf ->
            a = f /\ ha = set_pNext None hf)).
Proof.
  intros Hfree. unfold AllocPage. apply returns_bind, returns_get.
  destruct (pFree c) as [f|] eqn:Hf.
  - destruct (Hfree f eq_refl) as [hf Hhf].
    apply returns_bind, (returns_load f hf); [done|].
    apply returns_bind, returns_modify.
    apply returns_bind, (returns_store f hf); [done|].
    apply returns_ret. simpl. exists f, (set_pNext None hf).
    split; [done|]. split; [apply list_lookup_insert_eq; by eapply lookup_lt_Some|].
    split; [done|]. split; [done|]. intros f' hf' [= <-] E. rewrite Hhf in E.
    by injection E as <-.
  - apply returns_bind, returns_modify, returns_ret. simpl.
    exists (length (mem c)), fresh. split; [done|].
    split; [by rewrite lookup_app_r, Nat.sub_diag by lia|]. done.
Qed.

(** The entry installed by a fetch that allocates. *)
Lemma FetchPage_alloc_entry (c : PCache) (B : list (list nat)) (fuel : nat)
    (fresh : PgHdr) (k : Z) :
  TableInv c (apHash c) (nHash c) B -> 0 <= k -> 0 < nHash c -> nPage c + 1 < nMax c ->
  (forall f, pFree c = Some f -> is_Some (mem c !! f)) ->
  returns (FetchPage_obtain fuel fresh ≫= FetchPage_install k) c (fun r c' =>
    exists a h', r = Some a /\ mem c' !! a = Some h'
      /\ iKey h' = k /\ isPinned h' = 1 /\ pLruPrev h' = None /\ pLruNext h' = None
      /\ nPage c' = nPage c + 1 /\ iMaxKey c' = Z.max (iMaxKey c) k
      /\ (pFree c = None -> a = length (mem c) /\ flags h' = flags fresh)
      /\ (forall f hf, pFree c = Some f -> mem c !! f = Some hf ->
            a = f /\ flags h' = flags hf)).
Proof.
  intros Htab Hk Hpos Hroom Hfree.
  apply returns_bind. unfold FetchPage_obtain. apply returns_bind, returns_get.
  destruct (Z.geb_spec (nPage c + 1) (nMax c)); [lia|].
  apply returns_bind, returns_ret. rewrite bool_decide_eq_true_2 by done.
  eapply returns_wand; [by apply (AllocPage_run c fresh)|].
  intros r c1 (a & ha & -> & Hha & E1 & Hnone & Hsome). injection E1 as Hap1 HnH1 Hn1 Hi1.
  pose proof (rem_bucket k (nHash c) Hk Hpos) as Hrem.
  pose proof (tab_size _ _ _ _ Htab) as (_ & Hlen & _).
  destruct (lookup_lt_is_Some_2 (apHash c) (Z.to_nat (Z.rem k (nHash c))) ltac:(lia)) as [q Hq].
  eapply returns_wand.
  { apply (FetchPage_install_run c1 a ha k q); [done|done|lia|by rewrite HnH1, Hap1]. }
  intros r c' (-> & Hmem & _ & Hn & Himax & _).
  assert (Hlt : (a < length (mem c1))%nat) by (by eapply lookup_lt_Some).
  eexists a, _. split; [done|]. split; [rewrite Hmem; by apply list_lookup_insert_eq|].
  simpl. repeat split; try done; try lia;
    try (by match goal with E : pFree c = None |- _ => destruct (Hnone E) as [-> ->] end);
    by match goal with E : pFree c = Some ?f, Ef : mem c !! ?f = Some ?hf |- _ =>
         destruct (Hsome f hf E Ef) as [-> ->] end.
Qed.

(** A fetch that misses below the limit, from the lookup to the
    installed entry. *)
Lemma FetchPage_alloc_full (c : PCache) (B : list (list nat)) (fuel : nat)
    (fresh : PgHdr) (k : Z) :
  HashInv c B -> (length (concat B) < fuel)%nat -> 0 <= k ->
  hash_find fuel k c = (c, Ok None) -> nPage c + 1 < nMax c ->
  (forall f, pFree c = Some f -> (f ∉ concat B) /\ is_Some (mem c !! f)) ->
  exists c' a h',
    FetchPage fuel fresh k c = (c', Ok (Some a))
    /\ (a ∉ concat B) /\ mem c' !! a = Some h'
    /\ iKey h' = k /\ isPinned h' = 1 /\ pLruPrev h' = None /\ pLruNext h' = None
    /\ nPage c' = nPage c + 1 /\ iMaxKey c' = Z.max (iMaxKey c) k
    /\ (pFree c = None -> flags h' = flags fresh)
    /\ (exists B', HashInv c' B' /\ forall x, x ∈ concat B' <-> x = a \/ x ∈ concat B)
    /\ hash_find fuel k c' = (c', Ok (Some a))
    /\ (forall x hx, x ∈ concat B -> mem c !! x = Some hx ->
          exists hx', mem c' !! x = Some hx' /\ iKey hx' = iKey hx /\ flags hx' = flags hx).
Proof.
  intros Hinv Hfuel Hk Hmiss Hroom Hfree.
  destruct (miss_not_resident c B k fuel Hinv ltac:(lia) Hmiss) as [Hpos Hfresh].
  rewrite (FetchPage_miss fuel fresh k c Hmiss).
  destruct (resize_step c B fuel Hinv ltac:(lia) Hpos)
    as ([] & c1 & Hrun1 & Hrest & Hbn & Hpos1 & B1 & Hinv1 & HB1).
  rewrite (bind_run_ok _ _ _ _ _ Hrun1).
  injection Hrest as Em En Ef _ _ Ei _.
  assert (Hfresh1 : forall x hx, x ∈ concat B1 -> mem c1 !! x = Some hx -> iKey hx <> k).
  { intros x hx Hx Hhx. destruct (entry_before c c1 x hx Hbn Hhx) as (h0 & Hh0 & -> & _).
    apply (Hfresh x h0); [by apply HB1|done]. }
  assert (Hfree1 : forall f, pFree c1 = Some f -> (f ∉ concat B1) /\ is_Some (mem c1 !! f)).
  { intros f Hf. rewrite Ef in Hf. destruct (Hfree f Hf) as [HfB [hf Hhf]].
    split; [by rewrite HB1|]. destruct (entry_after c c1 f hf Hbn Hhf) as (h1 & -> & _). eauto. }
  destruct (returns_and _ _ _ _
              (FetchPage_alloc_spec c1 B1 fuel fresh k Hinv1 Hk Hpos1 Hfresh1 ltac:(lia) Hfree1)
              (FetchPage_alloc_entry c1 B1 fuel fresh k (hash_table _ _ Hinv1) Hk Hpos1
                 ltac:(lia) (fun f Hf => proj2 (Hfree1 f Hf))))
    as (r & c' & Hrun & (a & -> & Ha & (B' & Hinv' & HB') & Hfr)
        & (a' & h' & [= <-] & Hh' & Hik & Hpin & Hlp & Hln & Hn & Hi & Hnone & _)).
  exists c', a, h'. rewrite Hrun.
  split; [done|]. split; [by rewrite <- HB1|]. split; [done|].
  split; [done|]. split; [done|]. split; [done|]. split; [done|].
  split; [lia|]. split; [lia|]. split.
  { intros E. rewrite <- Ef in E. by destruct (Hnone E). }
  split.
  { exists B'. split; [done|]. intros x. rewrite HB', HB1. done. }
  split; [|intros x hx Hx Hhx; destruct (entry_after c c1 x hx Hbn Hhx) as (hx1 & Hhx1 & E);
           exists hx1; split; [|done]; rewrite Hfr; [done|]; intros ->; by apply Ha, HB1].
  rewrite <- Hik. apply (hash_find_hit c' B' a h'); [done|apply HB'; by left|done|].
  assert (length (concat B') = S (length (concat B))); [|lia].
  assert (concat B' ≡ₚ a :: concat B) as ->; [|done].
  apply NoDup_Permutation.
  - apply (tab_nodup _ _ _ _ (hash_table _ _ Hinv')).
  - apply NoDup_cons. split; [by rewrite <- HB1|]. apply (tab_nodup _ _ _ _ (hash_table _ _ Hinv)).
  - intros x. rewrite HB', HB1, elem_of_cons. done.
Qed.




Lemma HashInv_nonempty (c : PCache) (B : list (list nat)) (a : nat) :
  HashInv c B -> a ∈ concat B -> 0 < nHash c.
Proof.
  intros Hinv Ha. pose proof (tab_size _ _ _ _ (hash_table _ _ Hinv)) as (Hn0 & _ & HlenB).
  apply elem_of_concat in Ha as (i & l & Hl & _). apply lookup_lt_Some in Hl. lia.
Qed.

Lemma FetchPage_keeps_recycling (fuel : nat) (fresh : PgHdr) (k : Z) :
  keeps (same_on recycling) (FetchPage fuel fresh k).
Proof.
  intros c c' p H. unfold FetchPage in H. unfold same_on, recycling.
  apply bind_ok_inv in H as (q & c1 & H1 & H). apply hash_find_pure in H1 as <-.
  case_bool_decide as Hq; [by injection H as <- _|].
  apply bind_ok_inv in H as (c0 & c1 & [= <- <-] & H).
  apply bind_ok_inv in H as (u & c1 & H1 & H).
  assert (E1 : rest_of c1 = rest_of c).
  { destruct (nPage c >=? nHash c); [by apply ResizeHash_rest in H1|by injection H1 as <-]. }
  injection E1 as Em _ _ _ _ _ El.
  apply bind_ok_inv in H as (q' & c2 & H2 & H).
  apply FetchPage_obtain_counts in H2 as (_ & Hm2 & Hl2 & _).
  apply FetchPage_install_counts in H as (_ & Hm3 & Hl3 & _). congruence.
Qed.

(** With an empty free list and room below the limit, a fetch leaves the
    free list empty. *)
Lemma FetchPage_alloc_frame (fuel : nat) (fresh : PgHdr) (k : Z) (c c' : PCache) (p : pgptr) :
  FetchPage fuel fresh k c = (c', Ok p) -> nPage c + 1 < nMax c -> pFree c = None ->
  pFree c' = None.
Proof.
  unfold FetchPage. intros H Hroom Hfree.
  apply bind_ok_inv in H as (q & c1 & H1 & H). apply hash_find_pure in H1 as <-.
  case_bool_decide as Hq; [by injection H as <- _|].
  apply bind_ok_inv in H as (c0 & c1 & [= <- <-] & H).
  apply bind_ok_inv in H as (u & c1 & H1 & H).
  assert (E1 : rest_of c1 = rest_of c).
  { destruct (nPage c >=? nHash c); [by apply ResizeHash_rest in H1|by injection H1 as <-]. }
  injection E1 as Em En Ef _ _ _ _.
  apply bind_ok_inv in H as (q' & c2 & H2 & H).
  assert (pFree c2 = None).
  { revert H2. unfold FetchPage_obtain. rewrite bind_run. unfold get at 1.
    destruct (Z.geb_spec (nPage c1 + 1) (nMax c1)); [lia|].
    rewrite bind_run. unfold mret at 1, M_ret at 1.
    rewrite bool_decide_eq_true_2 by done. unfold AllocPage.
    rewrite bind_run. unfold get at 1. rewrite Ef, Hfree.
    rewrite bind_run. unfold modify at 1. intros [= <- _]. simpl. congruence. }
  assert (Hk : keeps (same_on pFree) (FetchPage_install k q')).
  { unfold FetchPage_install. keeps_on. }
  apply Hk in H. unfold same_on in H. congruence.
Qed.

(** X14.  Below the limit the cache keeps what it is given.  With the
    table at rest and the free list empty, a run of fetches of distinct
    pages, none of them resident, that stays below [nMax] returns an
    entry for each page, all different and none of them in use before;
    afterwards every one of the pages is found at the entry returned for
    it, every page resident before is still found at its entry, and
    [nPage] has grown by the number of pages fetched. *)
Theorem FetchPages_all_resident (fresh : PgHdr) (fuel : nat) (ks : list Z) :
  forall (c : PCache) (B : list (list nat)),
    HashInv c B -> 0 < nHash c -> pFree c = None -> NoDup ks ->
    (forall k, k ∈ ks ->
       0 <= k /\ forall a h, a ∈ concat B -> mem c !! a = Some h -> iKey h <> k) ->
    nPage c + Z.of_nat (length ks) < nMax c ->
    (length (concat B) + length ks <= fuel)%nat ->
    exists c' ps,
      FetchPages fuel fresh ks c = (c', Ok ps)
      /\ nPage c' = nPage c + Z.of_nat (length ks)
      /\ NoDup ps
      /\ Forall2 (fun k p => exists a h, p = Some a /\ (a ∉ concat B)
                                         /\ mem c' !! a = Some h /\ iKey h = k
                                         /\ FetchPage fuel fresh k c' = (c', Ok p)) ks ps
      /\ (forall b hb, b ∈ concat B -> mem c !! b = Some hb ->
            exists hb', mem c' !! b = Some hb' /\ iKey hb' = iKey hb
                        /\ FetchPage fuel fresh (iKey hb) c' = (c', Ok (Some b))).
Proof.
  induction ks as [|k ks IH]; intros c B Hinv Hpos Hfree Hnd Hks Hroom Hfuel.
  - exists c, []. simpl. split; [done|]. split; [lia|]. split; [constructor|].
    split; [constructor|]. intros b hb Hb Hhb. exists hb. split; [done|]. split; [done|].
    unfold FetchPage.
    rewrite (bind_run_ok _ _ _ _ _ (hash_find_hit c B b hb fuel Hinv Hb Hhb ltac:(lia))).
    by rewrite bool_decide_eq_true_2.
  - apply NoDup_cons in Hnd as [Hk Hnd]. simpl in Hroom, Hfuel.
    destruct (Hks k ltac:(left)) as [Hk0 Hkfresh].
    assert (Hmiss : hash_find fuel k c = (c, Ok None)).
    { apply (hash_find_miss c B); [done|done|done|done|lia]. }
    destruct (FetchPage_alloc_full c B fuel fresh k Hinv ltac:(lia) Hk0 Hmiss ltac:(lia))
      as (c1 & a & h1 & Hrun1 & Ha & Hh1 & Hik1 & _ & _ & _ & Hn1 & _ & _
          & (B1 & Hinv1 & HB1) & _ & Hkeep1).
    { intros f Hf. congruence. }
    pose proof (FetchPage_alloc_frame _ _ _ _ _ _ Hrun1 ltac:(lia) Hfree) as Hfree1.
    pose proof (FetchPage_keeps_recycling _ _ _ _ _ _ Hrun1) as [= Hmax1 _].
    assert (Hpos1 : 0 < nHash c1).
    { apply (HashInv_nonempty c1 B1 a Hinv1). apply HB1. by left. }
    assert (Hlen1 : length (concat B1) = S (length (concat B))).
    { assert (concat B1 ≡ₚ a :: concat B) as ->; [|done].
      apply NoDup_Permutation.
      - apply (tab_nodup _ _ _ _ (hash_table _ _ Hinv1)).
      - apply NoDup_cons. split; [done|]. apply (tab_nodup _ _ _ _ (hash_table _ _ Hinv)).
      - intros x. by rewrite HB1, elem_of_cons. }
    destruct (IH c1 B1 Hinv1 Hpos1 Hfree1 Hnd) as (c' & ps & Hrun & Hn & Hndps & Hall & Hold).
    { intros k' Hk'. destruct (Hks k' ltac:(by right)) as [Hk'0 Hk'fresh].
      split; [done|]. intros x hx Hx Hhx. apply HB1 in Hx as [->|Hx].
      - rewrite Hh1 in Hhx. injection Hhx as <-. rewrite Hik1. by intros <-.
      - destruct (TableInv_valid _ _ _ _ _ (hash_table _ _ Hinv) Hx) as [h0 Hh0].
        destruct (Hkeep1 x h0 Hx Hh0) as (hx' & Hhx' & E & _).
        rewrite Hhx in Hhx'. injection Hhx' as <-. rewrite E. by apply (Hk'fresh x). }
    { lia. }
    { lia. }
    exists c', (Some a :: ps). cbn [FetchPages].
    rewrite (bind_run_ok _ _ _ _ _ Hrun1), (bind_run_ok _ _ _ _ _ Hrun).
    split; [done|]. split; [simpl length; lia|].
    destruct (Hold a h1 ltac:(apply HB1; by left) Hh1) as (ha' & Hha' & Eka & Hfa).
    split; [|split].
    + apply NoDup_cons. split; [|done]. intros Hin.
      apply list_elem_of_lookup in Hin as [i Hi].
      destruct (Forall2_lookup_r _ _ _ _ _ Hall Hi) as (k' & _ & a' & h' & [= <-] & Ha' & _).
      apply Ha', HB1. by left.
    + constructor.
      * exists a, ha'. rewrite Hik1 in Eka, Hfa. done.
      * eapply Forall2_impl; [exact Hall|]. intros k' p (a' & h' & -> & Ha' & Hrest).
        exists a', h'. split; [done|]. split; [|done]. intros Hin. apply Ha', HB1. by right.
    + intros b hb Hb Hhb. destruct (Hkeep1 b hb Hb Hhb) as (hb1 & Hhb1 & E1 & _).
      destruct (Hold b hb1 ltac:(apply HB1; by right) Hhb1) as (hb' & Hhb' & E' & Hf').
      exists hb'. split; [done|]. split; [congruence|]. by rewrite <- E1.
Qed.

Lemma FetchPages_all_resident_witness :
  exists c' ps,
    FetchPages 6 zeroed [5; 6; 7] roomy_cache = (c', Ok ps)
    /\ nPage c' = nPage roomy_cache + Z.of_nat (length [5; 6; 7])
    /\ NoDup ps
    /\ Forall2 (fun k p => exists a h, p = Some a /\ (a ∉ concat hash_buckets)
                                       /\ mem c' !! a = Some h /\ iKey h = k
                                       /\ FetchPage 6 zeroed k c' = (c', Ok p)) [5; 6; 7] ps
    /\ (forall b hb, b ∈ concat hash_buckets -> mem roomy_cache !! b = Some hb ->
          exists hb', mem c' !! b = Some hb' /\ iKey hb' = iKey hb
                      /\ FetchPage 6 zeroed (iKey hb) c' = (c', Ok (Some b))).
Proof.
  apply (FetchPages_all_resident zeroed 6 [5; 6; 7] roomy_cache hash_buckets).
  - by apply (HashInv_same hash_cache), hash_cache_inv.
  - simpl. lia.
  - reflexivity.
  - repeat (apply NoDup_cons; split; [distinct|]). apply NoDup_nil_2.
  - intros k Hk. split.
    + repeat (apply elem_of_cons in Hk as [->|Hk]; [lia|]). by apply elem_of_nil in Hk.
    + intros a h Ha Hh. simpl in Ha.
      repeat (apply elem_of_cons in Ha as [->|Ha];
              [injection Hh as <-; simpl;
               repeat (apply elem_of_cons in Hk as [->|Hk]; [lia|]); by apply elem_of_nil in Hk|]).
      by apply elem_of_nil in Ha.
  - simpl. lia.
  - simpl. lia.
Defined.

(** The entry handed out by a fetch that recycles the LRU tail, and
    the counters it leaves. *)
Lemma FetchPage_recycle_entry (c : PCache) (B : list (list nat)) (fuel : nat)
    (fresh : PgHdr) (k : Z) (a : nat) (h : PgHdr) :
  HashInv c B -> (length (concat B) <= fuel)%nat -> 0 <= k -> 0 < nHash c ->
  nMax c <= nPage c + 1 -> lru_pLruPrev c = Some a -> a ∈ concat B -> mem c !! a = Some h ->
  returns (FetchPage_obtain fuel fresh ≫= FetchPage_install k) c (fun r c' =>
    (exists h', mem c' !! a = Some h' /\ isPinned h' = 1
                /\ pLruPrev h' = None /\ pLruNext h' = None
                /\ pDirtyNext h' = pDirtyNext h /\ pDirtyPrev h' = pDirtyPrev h)
    /\ nPage c' = nPage c /\ pFree c' = Some a
    /\ nMax c' = nMax c /\ lru_pLruPrev c' = lru_pLruPrev c
    /\ iMaxKey c' = Z.max (iMaxKey c) k).
Proof.
  intros Hinv Hfuel Hk Hpos Hfull Hlru Ha Hh.
  apply returns_bind. unfold FetchPage_obtain. apply returns_bind, returns_get.
  destruct (Z.geb_spec (nPage c + 1) (nMax c)); [|lia]. rewrite Hlru.
  apply returns_bind, returns_bind.
  eapply returns_wand; [by apply (RemoveFromHash_spec c B a h fuel)|].
  intros _ c2 ((B2 & Htab2 & Hin2) & Hbn2 & HnH2 & Hn2 & Hf2 & Hrest2).
  apply returns_ret. rewrite bool_decide_eq_false_2 by done. apply returns_ret.
  injection Hrest2 as Hm2 _ _ Hl2 Hi2.
  pose proof (Hbn2 a) as Ea. rewrite Hh in Ea. simpl in Ea.
  apply fmap_Some in Ea as (h2 & Hh2 & Eh2).
  pose proof (rem_bucket k (nHash c2) Hk ltac:(lia)) as Hrem.
  pose proof (tab_size _ _ _ _ Htab2) as (_ & Hlen & _).
  destruct (lookup_lt_is_Some_2 (apHash c2) (Z.to_nat (Z.rem k (nHash c2))) ltac:(lia))
    as [q Hq].
  eapply returns_wand; [by apply (FetchPage_install_run c2 a h2 k q); [..|lia|]|].
  intros r c' (-> & Hmem & _ & Hn & Himax & Hrest). injection Hrest as Hm Hf Hl.
  assert (Hlt : (a < length (mem c2))%nat) by (by eapply lookup_lt_Some).
  split.
  - eexists. split; [rewrite Hmem; by apply list_lookup_insert_eq|]. simpl.
    split; [done|]. split; [done|]. split; [done|].
    split; [by apply (f_equal pDirtyNext) in Eh2 | by apply (f_equal pDirtyPrev) in Eh2].
  - split; [lia|]. split; [congruence|]. split; [congruence|]. split; [congruence|]. lia.
Qed.

(** A fetch that misses at the limit, from the lookup to the installed
    entry. *)
Lemma FetchPage_recycle_full (c : PCache) (B : list (list nat)) (fuel : nat)
    (fresh : PgHdr) (k : Z) (a : nat) (h : PgHdr) :
  HashInv c B -> (length (concat B) <= fuel)%nat -> 0 <= k ->
  hash_find fuel k c = (c, Ok None) ->
  nMax c <= nPage c + 1 -> lru_pLruPrev c = Some a -> a ∈ concat B -> mem c !! a = Some h ->
  exists c' h',
    FetchPage fuel fresh k c = (c', Ok (Some a))
    /\ (exists B', HashInv c' B' /\ forall x, x ∈ concat B' <-> x ∈ concat B)
    /\ (forall x hx, x <> a -> mem c !! x = Some hx ->
          exists hx', mem c' !! x = Some hx' /\ iKey hx' = iKey hx /\ flags hx' = flags hx)
    /\ mem c' !! a = Some h' /\ iKey h' = k /\ flags h' = flags h /\ isPinned h' = 1
    /\ pLruPrev h' = None /\ pLruNext h' = None
    /\ pDirtyNext h' = pDirtyNext h /\ pDirtyPrev h' = pDirtyPrev h
    /\ nPage c' = nPage c /\ pFree c' = Some a
    /\ nMax c' = nMax c /\ lru_pLruPrev c' = lru_pLruPrev c
    /\ iMaxKey c' = Z.max (iMaxKey c) k
    /\ 0 < nHash c'.
Proof.
  intros Hinv Hfuel Hk Hmiss Hfull Hlru Ha Hh.
  destruct (miss_not_resident c B k fuel Hinv Hfuel Hmiss) as [Hpos Hfresh].
  rewrite (FetchPage_miss fuel fresh k c Hmiss).
  destruct (resize_step c B fuel Hinv Hfuel Hpos)
    as ([] & c1 & Hrun1 & Hrest & Hbn & Hpos1 & B1 & Hinv1 & HB1).
  rewrite (bind_run_ok _ _ _ _ _ Hrun1).
  injection Hrest as Em En Ef _ _ Ei El.
  assert (Hfresh1 : forall x hx, x ∈ concat B1 -> mem c1 !! x = Some hx -> iKey hx <> k).
  { intros x hx Hx Hhx. destruct (entry_before c c1 x hx Hbn Hhx) as (h0 & Hh0 & -> & _).
    apply (Hfresh x h0); [by apply HB1|done]. }
  pose proof (Hbn a) as Ea. rewrite Hh in Ea. simpl in Ea.
  apply fmap_Some in Ea as (h1 & Hh1 & Eh1).
  assert (Hfuel1 : (length (concat B1) <= fuel)%nat).
  { rewrite (perm_length_iff (concat B1) (concat B)); [done| | |done].
    - apply (tab_nodup _ _ _ _ (hash_table _ _ Hinv1)).
    - apply (tab_nodup _ _ _ _ (hash_table _ _ Hinv)). }
  destruct (returns_and _ _ _ _
              (FetchPage_recycle_spec c1 B1 fuel fresh k a h1 Hinv1 Hfuel1 Hk Hpos1 Hfresh1
                 ltac:(lia) ltac:(congruence) ltac:(by apply HB1) Hh1)
              (FetchPage_recycle_entry c1 B1 fuel fresh k a h1 Hinv1 Hfuel1 Hk Hpos1
                 ltac:(lia) ltac:(congruence) ltac:(by apply HB1) Hh1))
    as (r & c' & Hrun & (-> & (B' & Hinv' & HB') & Hbn' & (h' & Hh' & Hik & Hfl) & HnH & _)
        & ((h'' & Hh'' & Hpin & Hlp & Hln & Hdn & Hdp) & Hn & Hf & Hm & Hl & Hi)).
  rewrite Hh' in Hh''. injection Hh'' as <-.
  exists c', h'. rewrite Hrun. split; [done|]. split.
  { exists B'. split; [done|]. intros x. by rewrite HB', HB1. }
  split.
  { intros x hx Hx Hhx. destruct (entry_after c c1 x hx Hbn Hhx) as (hx1 & Hhx1 & E1 & E2).
    pose proof (Hbn' x Hx) as E. rewrite Hhx1 in E. simpl in E.
    apply fmap_Some in E as (hx' & Hhx' & E). exists hx'. split; [done|].
    split; [apply (f_equal iKey) in E | apply (f_equal flags) in E]; simpl in E; congruence. }
  split; [done|]. split; [done|].
  split; [rewrite Hfl; by apply (f_equal flags) in Eh1|].
  split; [done|]. split; [done|]. split; [done|].
  split; [rewrite Hdn; by apply (f_equal pDirtyNext) in Eh1|].
  split; [rewrite Hdp; by apply (f_equal pDirtyPrev) in Eh1|].
  repeat split; congruence || lia.
Qed.

(** X15.  A fetch that misses at the limit hands out the LRU tail and
    leaves it in three places at once: resident under the new page
    number and pinned, still named by the LRU tail pointer, and at the
    head of the free list, where [RemoveFromHash] pushed it.  The count
    of pages is unchanged and the entry keeps the dirty-list links it
    had. *)
Theorem FetchPage_recycled_aliases (c : PCache) (B : list (list nat)) (fuel : nat)
    (fresh : PgHdr) (k : Z) (a : nat) (h : PgHdr) :
  HashInv c B -> (length (concat B) <= fuel)%nat -> 0 <= k ->
  hash_find fuel k c = (c, Ok None) ->
  nMax c <= nPage c + 1 -> lru_pLruPrev c = Some a -> a ∈ concat B -> mem c !! a = Some h ->
  exists c' h',
    FetchPage fuel fresh k c = (c', Ok (Some a))
    /\ mem c' !! a = Some h' /\ iKey h' = k /\ isPinned h' = 1
    /\ pDirtyNext h' = pDirtyNext h /\ pDirtyPrev h' = pDirtyPrev h
    /\ (exists B', HashInv c' B' /\ a ∈ concat B')
    /\ lru_pLruPrev c' = Some a /\ pFree c' = Some a
    /\ nPage c' = nPage c /\ iMaxKey c' = Z.max (iMaxKey c) k.
Proof.
  intros Hinv Hfuel Hk Hmiss Hfull Hlru Ha Hh.
  destruct (FetchPage_recycle_full c B fuel fresh k a h Hinv Hfuel Hk Hmiss Hfull Hlru Ha Hh)
    as (c' & h' & Hrun & (B' & Hinv' & HB') & _ & Hh' & Hik & _ & Hpin & _ & _ & Hdn & Hdp
        & Hn & Hf & _ & Hl & Hi & _).
  exists c', h'. repeat (split; [done|]). split.
  { exists B'. split; [done|]. by apply HB'. }
  split; [congruence|]. done.
Qed.

Lemma FetchPage_recycled_aliases_witness :
  exists c' h',
    FetchPage 4 zeroed 5 hash_cache = (c', Ok (Some 2%nat))
    /\ mem c' !! 2%nat = Some h' /\ iKey h' = 5 /\ isPinned h' = 1
    /\ pDirtyNext h' = pDirtyNext (entry 3 2 None None None)
    /\ pDirtyPrev h' = pDirtyPrev (entry 3 2 None None None)
    /\ (exists B', HashInv c' B' /\ 2%nat ∈ concat B')
    /\ lru_pLruPrev c' = Some 2%nat /\ pFree c' = Some 2%nat
    /\ nPage c' = nPage hash_cache /\ iMaxKey c' = Z.max (iMaxKey hash_cache) 5.
Proof.
  apply (FetchPage_recycled_aliases hash_cache hash_buckets 4 zeroed 5 2
           (entry 3 2 None None None)).
  - exact hash_cache_inv.
  - simpl. lia.
  - lia.
  - vm_compute. reflexivity.
  - simpl. lia.
  - reflexivity.
  - simpl. right; right; left.
  - reflexivity.
Defined.

(** X16.  At the limit the cache has one slot for new pages.  Two
    fetches in a row of pages that are not resident both return the LRU
    tail: the second takes the entry the first has just pinned, and the
    page fetched first is gone from the table. *)
Theorem FetchPage_thrashes (c : PCache) (B : list (list nat)) (fuel : nat)
    (fresh : PgHdr) (k1 k2 : Z) (a : nat) (h : PgHdr) :
  HashInv c B -> (length (concat B) <= fuel)%nat -> 0 <= k1 -> 0 <= k2 -> k1 <> k2 ->
  hash_find fuel k1 c = (c, Ok None) -> hash_find fuel k2 c = (c, Ok None) ->
  nMax c <= nPage c + 1 -> lru_pLruPrev c = Some a -> a ∈ concat B -> mem c !! a = Some h ->
  exists c1 c2 h1,
    FetchPage fuel fresh k1 c = (c1, Ok (Some a))
    /\ mem c1 !! a = Some h1 /\ iKey h1 = k1 /\ isPinned h1 = 1
    /\ FetchPage fuel fresh k2 c1 = (c2, Ok (Some a))
    /\ hash_find fuel k1 c2 = (c2, Ok None)
    /\ hash_find fuel k2 c2 = (c2, Ok (Some a)).
Proof.
  intros Hinv Hfuel Hk1 Hk2 Hne Hmiss1 Hmiss2 Hfull Hlru Ha Hh.
  destruct (miss_not_resident c B k1 fuel Hinv Hfuel Hmiss1) as [_ Hfresh1].
  destruct (miss_not_resident c B k2 fuel Hinv Hfuel Hmiss2) as [_ Hfresh2].
  destruct (FetchPage_recycle_full c B fuel fresh k1 a h Hinv Hfuel Hk1 Hmiss1 Hfull Hlru Ha Hh)
    as (c1 & h1 & Hrun1 & (B1 & Hinv1 & HB1) & Hent1 & Hh1 & Hik1 & _ & Hpin1 & _ & _ & _ & _
        & Hn1 & _ & Hm1 & Hl1 & _ & Hpos1).
  assert (Hlen : forall c' B', HashInv c' B' -> (forall x, x ∈ concat B' <-> x ∈ concat B) ->
            (length (concat B') <= fuel)%nat).
  { intros c' B' Hinv' HB'. rewrite (perm_length_iff (concat B') (concat B)); [done| | |done].
    - apply (tab_nodup _ _ _ _ (hash_table _ _ Hinv')).
    - apply (tab_nodup _ _ _ _ (hash_table _ _ Hinv)). }
  assert (Hkeys1 : forall x hx, x ∈ concat B1 -> mem c1 !! x = Some hx ->
            (x = a /\ iKey hx = k1)
            \/ (x <> a /\ exists h0, mem c !! x = Some h0 /\ iKey hx = iKey h0)).
  { intros x hx Hx Hhx. destruct (decide (x = a)) as [->|Hxa].
    - left. rewrite Hh1 in Hhx. by injection Hhx as <-.
    - right. split; [done|]. apply HB1 in Hx.
      destruct (TableInv_valid _ _ _ _ _ (hash_table _ _ Hinv) Hx) as [h0 Hh0].
      destruct (Hent1 x h0 Hxa Hh0) as (hx' & Hhx' & E & _).
      rewrite Hhx in Hhx'. injection Hhx' as <-. eauto. }
  assert (Hmiss2' : hash_find fuel k2 c1 = (c1, Ok None)).
  { apply (hash_find_miss c1 B1); [done|done|done| |by apply (Hlen c1)].
    intros x hx Hx Hhx. destruct (Hkeys1 x hx Hx Hhx) as [[_ E]|(_ & h0 & Hh0 & E)].
    - congruence.
    - rewrite E. apply (Hfresh2 x h0); [by apply HB1|done]. }
  destruct (FetchPage_recycle_full c1 B1 fuel fresh k2 a h1 Hinv1 (Hlen c1 B1 Hinv1 HB1) Hk2
              Hmiss2' ltac:(lia) ltac:(congruence) ltac:(by apply HB1) Hh1)
    as (c2 & h2 & Hrun2 & (B2 & Hinv2 & HB2) & Hent2 & Hh2 & Hik2 & _ & _ & _ & _ & _ & _
        & _ & _ & _ & _ & _ & Hpos2).
  assert (HB2' : forall x, x ∈ concat B2 <-> x ∈ concat B) by (intros x; by rewrite HB2, HB1).
  exists c1, c2, h1. repeat (split; [done|]). split.
  - apply (hash_find_miss c2 B2); [done|done|done| |by apply (Hlen c2)].
    intros x hx Hx Hhx. destruct (decide (x = a)) as [->|Hxa].
    + rewrite Hh2 in Hhx. injection Hhx as <-. congruence.
    + apply HB2 in Hx.
      destruct (TableInv_valid _ _ _ _ _ (hash_table _ _ Hinv1) Hx) as [hx1 Hhx1].
      destruct (Hent2 x hx1 Hxa Hhx1) as (hx' & Hhx' & E & _).
      rewrite Hhx in Hhx'. injection Hhx' as <-.
      destruct (Hkeys1 x hx1 Hx Hhx1) as [[-> _]|(_ & h0 & Hh0 & E0)]; [done|].
      rewrite E, E0. apply (Hfresh1 x h0); [by apply HB1|done].
  - rewrite <- Hik2.
    apply (hash_find_hit c2 B2 a h2); [done|by apply HB2'|done|by apply (Hlen c2)].
Qed.

Lemma FetchPage_thrashes_witness :
  exists c1 c2 h1,
    FetchPage 4 zeroed 5 hash_cache = (c1, Ok (Some 2%nat))
    /\ mem c1 !! 2%nat = Some h1 /\ iKey h1 = 5 /\ isPinned h1 = 1
    /\ FetchPage 4 zeroed 6 c1 = (c2, Ok (Some 2%nat))
    /\ hash_find 4 5 c2 = (c2, Ok None)
    /\ hash_find 4 6 c2 = (c2, Ok (Some 2%nat)).
Proof.
  apply (FetchPage_thrashes hash_cache hash_buckets 4 zeroed 5 6 2 (entry 3 2 None None None)).
  - exact hash_cache_inv.
  - simpl. lia.
  - lia.
  - lia.
  - lia.
  - vm_compute. reflexivity.
  - vm_compute. reflexivity.
  - simpl. lia.
  - reflexivity.
  - simpl. right; right; left.
  - reflexivity.
Defined.

(** X17.  Nothing in [cache.go] links an entry into the LRU list, and
    the recycling step does not test its tail: a fetch that misses at
    the limit while the LRU tail is nil calls [RemoveFromHash(nil)] and
    panics. *)
Theorem FetchPage_empty_lru_panics (c : PCache) (B : list (list nat)) (fuel : nat)
    (fresh : PgHdr) (k : Z) :
  HashInv c B -> (length (concat B) <= fuel)%nat ->
  hash_find fuel k c = (c, Ok None) ->
  nMax c <= nPage c + 1 -> lru_pLruPrev c = None ->
  snd (FetchPage fuel fresh k c) = Panic "nil pointer dereference".
Proof.
  intros Hinv Hfuel Hmiss Hfull Hlru.
  destruct (miss_not_resident c B k fuel Hinv Hfuel Hmiss) as [Hpos _].
  rewrite (FetchPage_miss fuel fresh k c Hmiss).
  destruct (resize_step c B fuel Hinv Hfuel Hpos) as ([] & c1 & Hrun1 & Hrest & _).
  rewrite (bind_run_ok _ _ _ _ _ Hrun1).
  injection Hrest as Em En _ _ _ _ El.
  unfold FetchPage_obtain. rewrite !bind_run. unfold get at 1.
  destruct (Z.geb_spec (nPage c1 + 1) (nMax c1)); [|lia].
  rewrite El, Hlru. rewrite !bind_run. unfold RemoveFromHash. by rewrite !bind_run.
Qed.

Lemma FetchPage_empty_lru_panics_witness :
  snd (FetchPage 3 zeroed 5 tailless_cache) = Panic "nil pointer dereference".
Proof.
  apply (FetchPage_empty_lru_panics tailless_cache hash_buckets 3 zeroed 5).
  - by apply (HashInv_same hash_cache), hash_cache_inv.
  - simpl. lia.
  - vm_compute. reflexivity.
  - simpl. lia.
  - reflexivity.
Defined.

Lemma unlink_walk_absent (c : PCache) (a : nat) (l : list nat) :
  forall (s : slot) (p : pgptr) (fuel : nat),
    chain c p l -> a ∉ l -> slot_get s c = (c, Ok p) -> (length l < fuel)%nat ->
    unlink_walk fuel s (Some a) c = (c, Panic "nil pointer dereference").
Proof.
  induction l as [|x l IH]; intros s p fuel Hch Ha Hs Hfuel;
    (destruct fuel as [|fuel]; [simpl in Hfuel; lia|]);
    cbn [unlink_walk]; rewrite (bind_run_ok _ _ _ _ _ Hs).
  - simpl in Hch. subst p. rewrite bool_decide_eq_true_2 by done. by rewrite bind_run.
  - destruct Hch as (-> & hx & Hhx & Hch).
    apply not_elem_of_cons in Ha as [Hax Ha].
    rewrite bool_decide_eq_true_2 by congruence.
    rewrite (bind_run_ok _ _ _ _ _ (load_ok x c hx Hhx)).
    apply (IH (NextOf (Some x)) (pNext hx) fuel); [done|done| |simpl in Hfuel; lia].
    simpl. by rewrite (bind_run_ok _ _ _ _ _ (load_ok x c hx Hhx)).
Qed.

(** X18.  [RemoveFromHash] on an entry that is in no chain of the table:
    the walk runs off the end of the bucket and dereferences nil.  The
    test [p == nil] after the loop is never reached with a nil [p]; the
    call panics and leaves the cache as it was. *)
Theorem RemoveFromHash_absent_panics (c : PCache) (B : list (list nat)) (a : nat)
    (h : PgHdr) (fuel : nat) :
  HashInv c B -> mem c !! a = Some h -> a ∉ concat B -> 0 <= iKey h -> 0 < nHash c ->
  (length (concat B) < fuel)%nat ->
  RemoveFromHash fuel (Some a) c = (c, Panic "nil pointer dereference").
Proof.
  intros [[(Hn & Hlen & HlenB) Hch Hnd Hbk] Hkeys] Hh Ha Hk Hpos Hfuel.
  pose proof (rem_bucket (iKey h) (nHash c) Hk Hpos) as Hrem.
  set (j := Z.to_nat (Z.rem (iKey h) (nHash c))).
  destruct (lookup_lt_is_Some_2 B j ltac:(lia)) as [l Hl].
  destruct (Hch j l Hl) as (p & Hp & Hchain).
  pose proof (concat_lookup_length B j l Hl) as Hll.
  unfold RemoveFromHash.
  rewrite (bind_run_ok _ _ _ _ _ (load_ok a c h Hh)).
  rewrite bind_run. unfold get at 1. rewrite bind_run. unfold go_rem.
  destruct (Z.eqb_spec (nHash c) 0); [lia|]. unfold mret at 1, M_ret at 1.
  rewrite bind_run. unfold lift at 1.
  rewrite (index_ok _ _ p) by (done || lia).
  rewrite bind_run, (unlink_walk_absent c a l (Bucket _) p fuel); [done|done| | |lia].
  - intros Hal. apply Ha, elem_of_concat. eauto.
  - simpl. rewrite bind_run. unfold get at 1. unfold lift.
    by rewrite (index_ok _ _ p) by (done || lia).
Qed.

Lemma RemoveFromHash_absent_panics_witness :
  RemoveFromHash 4 (Some 3%nat) spare_cache = (spare_cache, Panic "nil pointer dereference").
Proof.
  apply (RemoveFromHash_absent_panics spare_cache hash_buckets 3 zeroed 4).
  - apply (HashInv_same hash_cache), hash_cache_inv; [done..|].
    intros x Hx. simpl in Hx.
    repeat (apply elem_of_cons in Hx as [->|Hx]; [done|]). by apply elem_of_nil in Hx.
  - reflexivity.
  - simpl. distinct.
  - simpl. lia.
  - simpl. lia.
  - simpl. lia.
Defined.

(** X19.  [RemoveFromHash] on a resident entry, with the table at rest:
    the call returns; the entry's page number is no longer found, every
    other resident page is still found at its entry, one page less is
    counted, and the entry is the new head of the free list, so that
    the next [AllocPage] hands it out again. *)
Theorem RemoveFromHash_evicts (c : PCache) (B : list (list nat)) (a : nat) (h : PgHdr)
    (fuel : nat) (fresh : PgHdr) :
  HashInv c B -> a ∈ concat B -> mem c !! a = Some h -> (length (concat B) <= fuel)%nat ->
  exists c',
    RemoveFromHash fuel (Some a) c = (c', Ok tt)
    /\ hash_find fuel (iKey h) c' = (c', Ok None)
    /\ (forall b hb, b ∈ concat B -> b <> a -> mem c !! b = Some hb ->
          hash_find fuel (iKey hb) c' = (c', Ok (Some b)))
    /\ nPage c' = nPage c - 1 /\ pFree c' = Some a
    /\ snd (AllocPage fresh c') = Ok (Some a).
Proof.
  intros Hinv Ha Hh Hfuel.
  destruct (RemoveFromHash_spec c B a h fuel Hinv Ha Hh Hfuel)
    as ([] & c' & Hrun & (B' & Htab' & HB') & Hbn & HnH & Hn & Hf & _).
  assert (Hpos : 0 < nHash c /\ 0 <= iKey h).
  { pose proof (tab_size _ _ _ _ (hash_table _ _ Hinv)) as (Hn0 & _ & HlenB).
    apply elem_of_concat in Ha as (i & l & Hl & Hal).
    destruct (tab_bucket _ _ _ _ (hash_table _ _ Hinv) i l a Hl Hal) as (h0 & Hh0 & Hk & _).
    rewrite Hh in Hh0. injection Hh0 as <-.
    apply lookup_lt_Some in Hl. split; [lia|done]. }
  assert (Hinv' : HashInv c' B').
  { split; [done|]. intros x y Hx Hy. unfold key_of.
    rewrite (but_next_iKey _ _ (Hbn x)), (but_next_iKey _ _ (Hbn y)).
    apply (hash_keys _ _ Hinv); [by apply HB'..]. }
  assert (Hlen' : (length (concat B') <= fuel)%nat).
  { etransitivity; [|exact Hfuel]. apply submseteq_length, NoDup_submseteq.
    - apply (tab_nodup _ _ _ _ Htab').
    - intros x Hx. by apply HB'. }
  exists c'. split; [done|]. split; [|split; [|split; [done|split; [done|]]]].
  - apply (hash_find_miss c' B'); [done|lia|lia| |done].
    intros x hx Hx Hhx E. apply HB' in Hx as [Hx Hxa]. apply Hxa.
    apply (hash_keys _ _ Hinv); [done..|]. unfold key_of.
    rewrite <- (but_next_iKey _ _ (Hbn x)), Hhx, Hh. simpl. by rewrite E.
  - intros b hb Hb Hba Hhb. destruct (entry_after c c' b hb Hbn Hhb) as (hb' & Hhb' & <- & _).
    apply (hash_find_hit c' B'); [done|by apply HB'|done|done].
  - destruct (entry_after c c' a h Hbn Hh) as (ha' & Hha' & _).
    destruct (AllocPage_run c' fresh) as (r & c2 & Hrun2 & a2 & ha2 & -> & _ & _ & _ & Hsome).
    { intros f Hf'. rewrite Hf in Hf'. injection Hf' as <-. eauto. }
    rewrite Hrun2. simpl. by destruct (Hsome a ha' Hf Hha') as [-> _].
Qed.

Lemma RemoveFromHash_evicts_witness :
  exists c',
    RemoveFromHash 3 (Some 1%nat) hash_cache = (c', Ok tt)
    /\ hash_find 3 (iKey (entry 4 1 (Some 0%nat) None None)) c' = (c', Ok None)
    /\ (forall b hb, b ∈ concat hash_buckets -> b <> 1%nat -> mem hash_cache !! b = Some hb ->
          hash_find 3 (iKey hb) c' = (c', Ok (Some b)))
    /\ nPage c' = nPage hash_cache - 1 /\ pFree c' = Some 1%nat
    /\ snd (AllocPage zeroed c') = Ok (Some 1%nat).
Proof.
  apply (RemoveFromHash_evicts hash_cache hash_buckets 1 (entry 4 1 (Some 0%nat) None None)
           3 zeroed).
  - exact hash_cache_inv.
  - simpl. left.
  - reflexivity.
  - simpl. lia.
Defined.

(** ** Further properties of the dirty list *)

Section DirtyList.
Context {U : Undeclared}.

Lemma ManageDirtyList_front_eq (p : pgptr) (c : PCache) :
  ManageDirtyList p PCACHE_DIRTYLIST_FRONT c
  = (ManageDirtyList p PCACHE_DIRTYLIST_REMOVE ≫= fun _ =>
     ManageDirtyList p PCACHE_DIRTYLIST_ADD) c.
Proof.
  unfold ManageDirtyList.
  change (Z.land PCACHE_DIRTYLIST_FRONT PCACHE_DIRTYLIST_REMOVE) with 1.
  change (Z.land PCACHE_DIRTYLIST_FRONT PCACHE_DIRTYLIST_ADD) with 2.
  change (Z.land PCACHE_DIRTYLIST_REMOVE PCACHE_DIRTYLIST_REMOVE) with 1.
  change (Z.land PCACHE_DIRTYLIST_REMOVE PCACHE_DIRTYLIST_ADD) with 0.
  change (Z.land PCACHE_DIRTYLIST_ADD PCACHE_DIRTYLIST_REMOVE) with 0.
  change (Z.land PCACHE_DIRTYLIST_ADD PCACHE_DIRTYLIST_ADD) with 2.
  rewrite !(bool_decide_eq_true_2 (1 ≠ 0)), !(bool_decide_eq_true_2 (2 ≠ 0)) by done.
  rewrite !(bool_decide_eq_false_2 (0 ≠ 0)) by (intros E; by apply E).
  rewrite !bind_run.
  by match goal with |- match ?m with _ => _ end = _ => destruct m as [c1 [[]| |]] end.
Qed.

(** X20.  [ManageDirtyList(p, PCACHE_DIRTYLIST_FRONT)] is REMOVE followed
    by ADD.  On an entry of the dirty list it returns with that entry
    moved to the head and the others in the order they had; no flag
    changes and the dirty-list invariant holds again. *)
Theorem ManageDirtyList_front (c : PCache) (L : list nat) (i a : nat) :
  DirtyInv c L -> L !! i = Some a ->
  ManageDirtyList (Some a) PCACHE_DIRTYLIST_FRONT c
  = (ManageDirtyList (Some a) PCACHE_DIRTYLIST_REMOVE ≫= fun _ =>
     ManageDirtyList (Some a) PCACHE_DIRTYLIST_ADD) c
  /\ exists c', ManageDirtyList (Some a) PCACHE_DIRTYLIST_FRONT c = (c', Ok tt)
                /\ DirtyInv c' (a :: delete i L)
                /\ forall x, flags <$> mem c' !! x = flags <$> mem c !! x.
Proof.
  intros [Hnd Hlinks Hiff Hnc Hoff] Hi. split; [apply ManageDirtyList_front_eq|].
  rewrite ManageDirtyList_front_eq.
  assert (HaL : a ∈ L) by (by eapply list_elem_of_lookup_2).
  assert (Hdel : forall x, x ∈ delete i L <-> x ∈ L /\ x <> a).
  { intros x. rewrite <- (filter_ne_delete L i a Hnd Hi), list_elem_of_filter. tauto. }
  assert (Hnd' : NoDup (delete i L)).
  { rewrite <- (filter_ne_delete L i a Hnd Hi). by apply NoDup_filter. }
  assert (Hrun : returns (ManageDirtyList (Some a) PCACHE_DIRTYLIST_REMOVE ≫= fun _ =>
                          ManageDirtyList (Some a) PCACHE_DIRTYLIST_ADD) c (fun _ c' =>
            dirty_links c' (a :: delete i L)
            /\ (forall x, flags <$> mem c' !! x = flags <$> mem c !! x)
            /\ (forall x, x ∉ L -> mem c' !! x = mem c !! x))).
  { apply returns_bind.
    eapply returns_wand; [by apply (ManageDirtyList_remove c L i a)|].
    intros _ c1 (Hl1 & Hf1 & Ho1 & h1 & Hh1 & Hp1).
    eapply returns_wand.
    { apply (ManageDirtyList_add c1 (delete i L) a h1); try done. rewrite Hdel. tauto. }
    intros _ c2 (Hl2 & Hf2 & Ho2). split; [done|]. split.
    - intros x. by rewrite Hf2, Hf1.
    - intros x Hx. rewrite Ho2, Ho1; [done..|].
      rewrite not_elem_of_cons, Hdel. split; [by intros ->|tauto]. }
  destruct Hrun as ([] & c' & Hrun & Hl' & Hf' & Ho').
  exists c'. split; [done|]. split; [|done]. split.
  - apply NoDup_cons. split; [rewrite Hdel; tauto|done].
  - done.
  - intros x hx' Hx. destruct (flags_at c c' x hx' (Hf' x) Hx) as (hx & Hhx & E).
    unfold is_dirty. rewrite E. rewrite <- (Hiff x hx Hhx), elem_of_cons, Hdel.
    destruct (decide (x = a)) as [->|]; tauto.
  - intros x hx' Hx. destruct (flags_at c c' x hx' (Hf' x) Hx) as (hx & Hhx & E).
    unfold is_clean, is_dirty. rewrite E. by apply (Hnc x hx).
  - intros x hx' Hx Hout. rewrite not_elem_of_cons, Hdel in Hout.
    assert (x ∉ L) by tauto. rewrite Ho' in Hx by done. by apply (Hoff x).
Qed.

(** X21.  [MakeCleanAll] loops for ever when the head of the dirty list
    does not carry the DIRTY flag: [MakeClean] leaves such an entry on
    the list, so [pDirty] never changes.  No amount of fuel makes the
    call return. *)
Theorem MakeCleanAll_stuck (c : PCache) (a : nat) (h : PgHdr) (fuel : nat) :
  pDirty c = Some a -> mem c !! a = Some h -> ~ is_dirty h ->
  MakeCleanAll fuel c = (c, OutOfFuel).
Proof.
  intros Hd Hh Hnd. induction fuel as [|fuel IH]; simpl;
    rewrite bind_run; unfold get at 1; rewrite Hd, bool_decide_eq_true_2 by done; [done|].
  assert (Hclean : MakeClean (Some a) c = (c, Ok tt)).
  { unfold MakeClean. rewrite (bind_run_ok _ _ _ _ _ (load_ok a c h Hh)).
    by rewrite bool_decide_eq_false_2 by (intros E; by apply Hnd). }
  by rewrite (bind_run_ok _ _ _ _ _ Hclean).
Qed.

(** X22.  [FetchPage] writes no flags.  A page fetched into a block that
    [AllocPage] took fresh, with no CLEAN bit in it, is neither clean
    nor dirty for [MakeDirty]: the call on the entry just returned does
    nothing, and the page does not join the dirty list. *)
Theorem FetchPage_sets_no_flags (c : PCache) (B : list (list nat)) (fuel : nat)
    (fresh : PgHdr) (k : Z) :
  HashInv c B -> (length (concat B) < fuel)%nat -> 0 <= k ->
  hash_find fuel k c = (c, Ok None) -> nPage c + 1 < nMax c -> pFree c = None ->
  Z.land (flags fresh) PGHDR_CLEAN = 0 ->
  exists c' a h',
    FetchPage fuel fresh k c = (c', Ok (Some a))
    /\ mem c' !! a = Some h' /\ iKey h' = k /\ flags h' = flags fresh
    /\ MakeDirty (Some a) c' = (c', Ok tt).
Proof.
  intros Hinv Hfuel Hk Hmiss Hroom Hfree Hfl.
  destruct (FetchPage_alloc_full c B fuel fresh k Hinv Hfuel Hk Hmiss Hroom)
    as (c' & a & h' & Hrun & _ & Hh' & Hik & _ & _ & _ & _ & _ & Hflags & _).
  { intros f Hf. congruence. }
  exists c', a, h'. repeat (split; [by auto|]).
  unfold MakeDirty. rewrite (bind_run_ok _ _ _ _ _ (load_ok a c' h' Hh')).
  rewrite bool_decide_eq_false_2; [done|]. rewrite (Hflags Hfree), Hfl. by intros E.
Qed.

End DirtyList.

Section RoundTrip.
Context `{FlagsOk}.

(** X23.  The two ways round.  On a clean entry, [MakeDirty] followed by
    [MakeClean] returns with the dirty list as it was and the entry
    clean.  On a dirty entry, [MakeClean] followed by [MakeDirty]
    returns with the entry moved to the head of the dirty list, the
    others in their order. *)
Theorem MakeDirty_MakeClean_round_trip (c : PCache) (L : list nat) (a : nat) (h : PgHdr) :
  DirtyInv c L -> mem c !! a = Some h ->
  (is_clean h ->
   exists c' h', (MakeDirty (Some a) ≫= fun _ => MakeClean (Some a)) c = (c', Ok tt)
                 /\ DirtyInv c' L /\ mem c' !! a = Some h' /\ is_clean h')
  /\ (is_dirty h ->
      exists c', (MakeClean (Some a) ≫= fun _ => MakeDirty (Some a)) c = (c', Ok tt)
                 /\ DirtyInv c' (a :: filter (fun x => x <> a) L)).
Proof.
  intros Hinv Hh. split.
  - intros Hc.
    assert (HaL : a ∉ L).
    { rewrite (dirty_iff_flag _ _ Hinv a h Hh). by apply (dirty_not_clean _ _ Hinv a h). }
    destruct (MakeDirty_keeps c L a h Hinv Hh) as ([] & c1 & Hrun1 & Hinv1).
    rewrite decide_True in Hinv1 by done.
    destruct (proj2 (proj2 (dirty_linked _ _ Hinv1)) 0%nat a eq_refl) as (h1 & Hh1 & _).
    destruct (MakeClean_keeps c1 (a :: L) a h1 Hinv1 Hh1) as ([] & c' & Hrun2 & Hinv2 & _ & Hcl).
    destruct Hcl as (h' & Hh' & Hc'); [apply (dirty_iff_flag _ _ Hinv1 a h1 Hh1); left|].
    exists c', h'. rewrite (bind_run_ok _ _ _ _ _ Hrun1), Hrun2.
    split; [done|]. split; [|done].
    rewrite filter_cons_False, (filter_ne_absent L a HaL) in Hinv2 by (by intros ?). done.
  - intros Hd.
    destruct (MakeClean_keeps c L a h Hinv Hh) as ([] & c1 & Hrun1 & Hinv1 & _ & Hcl).
    destruct (Hcl Hd) as (h1 & Hh1 & Hc1).
    destruct (MakeDirty_keeps c1 _ a h1 Hinv1 Hh1) as ([] & c' & Hrun2 & Hinv2).
    rewrite decide_True in Hinv2 by done.
    exists c'. by rewrite (bind_run_ok _ _ _ _ _ Hrun1), Hrun2.
Qed.

End RoundTrip.

Lemma ManageDirtyList_front_witness :
  ManageDirtyList (Some 0%nat) PCACHE_DIRTYLIST_FRONT dirty_cache
  = (ManageDirtyList (Some 0%nat) PCACHE_DIRTYLIST_REMOVE ≫= fun _ =>
     ManageDirtyList (Some 0%nat) PCACHE_DIRTYLIST_ADD) dirty_cache
  /\ exists c', ManageDirtyList (Some 0%nat) PCACHE_DIRTYLIST_FRONT dirty_cache = (c', Ok tt)
                /\ @DirtyInv sqlite_flags c' (0%nat :: delete 1%nat [2%nat; 0%nat])
                /\ forall x, flags <$> mem c' !! x = flags <$> mem dirty_cache !! x.
Proof.
  apply (@ManageDirtyList_front sqlite_flags dirty_cache [2%nat; 0%nat] 1 0).
  - exact dirty_cache_inv.
  - reflexivity.
Defined.

Lemma MakeCleanAll_stuck_witness :
  @MakeCleanAll sqlite_flags 1000 stale_head_cache = (stale_head_cache, OutOfFuel).
Proof.
  apply (@MakeCleanAll_stuck sqlite_flags stale_head_cache 1
           (entry 2 1 None (Some 2%nat) None) 1000).
  - reflexivity.
  - reflexivity.
  - unfold is_dirty. simpl. intros E. by apply E.
Defined.

Lemma FetchPage_sets_no_flags_witness :
  exists c' a h',
    FetchPage 4 zeroed 5 roomy_cache = (c', Ok (Some a))
    /\ mem c' !! a = Some h' /\ iKey h' = 5 /\ flags h' = flags zeroed
    /\ @MakeDirty sqlite_flags (Some a) c' = (c', Ok tt).
Proof.
  apply (@FetchPage_sets_no_flags sqlite_flags roomy_cache hash_buckets 4 zeroed 5).
  - by apply (HashInv_same hash_cache), hash_cache_inv.
  - simpl. lia.
  - lia.
  - vm_compute. reflexivity.
  - simpl. lia.
  - reflexivity.
  - reflexivity.
Defined.

Lemma MakeDirty_MakeClean_round_trip_witness :
  (@is_clean sqlite_flags (entry 2 1 None None None) ->
   exists c' h', (@MakeDirty sqlite_flags (Some 1%nat) ≫= fun _ =>
                  @MakeClean sqlite_flags (Some 1%nat)) dirty_cache = (c', Ok tt)
                 /\ @DirtyInv sqlite_flags c' [2%nat; 0%nat]
                 /\ mem c' !! 1%nat = Some h' /\ @is_clean sqlite_flags h')
  /\ (@is_dirty sqlite_flags (entry 2 1 None None None) ->
      exists c', (@MakeClean sqlite_flags (Some 1%nat) ≫= fun _ =>
                  @MakeDirty sqlite_flags (Some 1%nat)) dirty_cache = (c', Ok tt)
                 /\ @DirtyInv sqlite_flags c'
                      (1%nat :: filter (fun x => x <> 1%nat) [2%nat; 0%nat])).
Proof.
  apply (@MakeDirty_MakeClean_round_trip sqlite_flags sqlite_flags_ok dirty_cache
           [2%nat; 0%nat] 1 (entry 2 1 None None None)).
  - exact dirty_cache_inv.
  - reflexivity.
Defined.

(** ** The two halves of the cache leave each other alone *)

Lemma keeps_store_hash_side (p : pgptr) (g : PgHdr -> PgHdr) :
  (forall h, hash_part (g h) = hash_part h) -> keeps (same_on hash_side) (store p g).
Proof.
  intros Hg c c' u H. apply store_inv in H as (a & h & -> & Hh & ->).
  unfold same_on, hash_side. simpl. f_equal.
  rewrite list_fmap_insert, Hg. apply list_insert_id. by rewrite list_lookup_fmap, Hh.
Qed.

Ltac keeps_hash_side :=
  repeat first
    [ apply keeps_store_hash_side; by intros []
    | apply keeps_load; apply _
    | apply keeps_modify; intros ?; unfold same_on; done
    | apply keeps_ret; apply _
    | apply keeps_get; apply _
    | apply keeps_bind; [apply _ | | intros ?]
    | apply keeps_out_of_fuel
    | case_bool_decide ].

Lemma ManageDirtyList_hash_side (p : pgptr) (op : Z) :
  keeps (same_on hash_side) (ManageDirtyList p op).
Proof. unfold ManageDirtyList. keeps_hash_side. Qed.

Lemma chain_hash_part (c c' : PCache) (l : list nat) :
  hash_part <$> mem c' = hash_part <$> mem c ->
  forall p, chain c p l -> chain c' p l.
Proof.
  intros E. induction l as [|a l IH]; intros p; simpl; [done|].
  intros (-> & h & Hh & Hch). split; [done|].
  assert (E' : hash_part <$> mem c' !! a = Some (hash_part h)).
  { by rewrite <- list_lookup_fmap, E, list_lookup_fmap, Hh. }
  apply fmap_Some in E' as (h' & Hh' & Eh'). exists h'. split; [done|].
  injection Eh' as _ E2 _ _ _. rewrite <- E2. by apply IH.
Qed.

Lemma HashInv_hash_side (c c' : PCache) (B : list (list nat)) :
  hash_side c' = hash_side c -> HashInv c B -> HashInv c' B.
Proof.
  intros E [[Hsz Hch Hnd Hbk] Hkeys]. injection E as _ _ EnH Eap _ _ _ Em.
  assert (Hat : forall x h, mem c !! x = Some h ->
            exists h', mem c' !! x = Some h' /\ hash_part h' = hash_part h).
  { intros x h Hh.
    assert (E' : hash_part <$> mem c' !! x = Some (hash_part h)).
    { by rewrite <- list_lookup_fmap, Em, list_lookup_fmap, Hh. }
    apply fmap_Some in E' as (h' & Hh' & Eh'). eauto. }
  split; [split|].
  - by rewrite Eap, EnH.
  - intros i l Hl. destruct (Hch i l Hl) as (p & Hp & Hc). exists p.
    rewrite Eap. split; [done|]. by apply (chain_hash_part c).
  - done.
  - intros i l a Hl Ha. destruct (Hbk i l a Hl Ha) as (h & Hh & Hk & Hr).
    destruct (Hat a h Hh) as (h' & Hh' & [= Ek _ _ _ _]). exists h'. by rewrite EnH, Ek.
  - intros a b Ha Hb. unfold key_of. intros Ek. apply (Hkeys a b Ha Hb). unfold key_of.
    assert (Hk : forall x, iKey <$> mem c' !! x = iKey <$> mem c !! x).
    { intros x. pose proof (f_equal (fun l => l !! x) Em) as Ex. simpl in Ex.
      rewrite !list_lookup_fmap in Ex.
      destruct (mem c' !! x) as [h1|], (mem c !! x) as [h2|]; simpl in *; try done.
      unfold hash_part in Ex. congruence. }
    by rewrite <- !Hk.
Qed.

Section DirtyCalls.
Context {U : Undeclared}.

Lemma MakeDirty_hash_side (p : pgptr) : keeps (same_on hash_side) (MakeDirty p).
Proof. unfold MakeDirty. keeps_hash_side. Qed.

Lemma MakeClean_hash_side (p : pgptr) : keeps (same_on hash_side) (MakeClean p).
Proof. unfold MakeClean. keeps_hash_side. Qed.

Lemma MakeCleanAll_hash_side (fuel : nat) : keeps (same_on hash_side) (MakeCleanAll fuel).
Proof.
  induction fuel as [|fuel IH]; simpl; keeps_hash_side; apply IH.
Qed.

(** X24.  The dirty-list calls never touch the hash table.  Whenever
    [ManageDirtyList], [MakeDirty], [MakeClean] or [MakeCleanAll]
    returns, every field of the cache but [pDirty] and [pDirtyTail] is
    what it was, and so are the page number, chain link, LRU links and
    pin of every entry; a table that was at rest is at rest with the
    same buckets. *)
Theorem dirty_calls_leave_table (c c' : PCache) (u : unit) :
  (forall p op, ManageDirtyList p op c = (c', Ok u) ->
     hash_side c' = hash_side c /\ forall B, HashInv c B -> HashInv c' B)
  /\ (forall p, MakeDirty p c = (c', Ok u) ->
        hash_side c' = hash_side c /\ forall B, HashInv c B -> HashInv c' B)
  /\ (forall p, MakeClean p c = (c', Ok u) ->
        hash_side c' = hash_side c /\ forall B, HashInv c B -> HashInv c' B)
  /\ (forall fuel, MakeCleanAll fuel c = (c', Ok u) ->
        hash_side c' = hash_side c /\ forall B, HashInv c B -> HashInv c' B).
Proof.
  assert (Hboth : hash_side c' = hash_side c ->
            hash_side c' = hash_side c /\ forall B, HashInv c B -> HashInv c' B).
  { intros E. split; [done|]. intros B. by apply HashInv_hash_side. }
  split; [|split; [|split]].
  - intros p op H. by apply Hboth, (ManageDirtyList_hash_side p op c c' u).
  - intros p H. by apply Hboth, (MakeDirty_hash_side p c c' u).
  - intros p H. by apply Hboth, (MakeClean_hash_side p c c' u).
  - intros fuel H. by apply Hboth, (MakeCleanAll_hash_side fuel c c' u).
Qed.

End DirtyCalls.

#[local] Instance dirty_kept_preorder (fresh : PgHdr) : PreOrder (dirty_kept fresh).
Proof.
  split.
  - intros c. split; [done|]. split; [done|]. split; [eauto|]. intros x hx' Hx Hn. congruence.
  - intros c1 c2 c3 (Hd12 & Ht12 & Ho12 & Hn12) (Hd23 & Ht23 & Ho23 & Hn23).
    split; [congruence|]. split; [congruence|]. split.
    + intros x hx Hx. destruct (Ho12 x hx Hx) as (h2 & Hh2 & E2).
      destruct (Ho23 x h2 Hh2) as (h3 & Hh3 & E3). exists h3. split; [done|congruence].
    + intros x h3 Hx3 Hx1. destruct (mem c2 !! x) as [h2|] eqn:Hx2.
      * destruct (Ho23 x h2 Hx2) as (h3' & Hh3' & E3). rewrite Hx3 in Hh3'.
        injection Hh3' as <-. rewrite E3. by apply (Hn12 x).
      * by apply (Hn23 x).
Qed.

Lemma dirty_kept_same (fresh : PgHdr) (c c' : PCache) :
  mem c' = mem c -> pDirty c' = pDirty c -> pDirtyTail c' = pDirtyTail c ->
  dirty_kept fresh c c'.
Proof.
  intros Em Ed Et. split; [done|]. split; [done|]. rewrite Em. split; [eauto|].
  intros x hx' Hx Hn. congruence.
Qed.

Lemma keeps_store_dirty (fresh : PgHdr) (p : pgptr) (g : PgHdr -> PgHdr) :
  (forall h, dirty_part (g h) = dirty_part h) -> keeps (dirty_kept fresh) (store p g).
Proof.
  intros Hg c c' u H. apply store_inv in H as (a & h & -> & Hh & ->).
  split; [done|]. split; [done|]. simpl. split.
  - intros x hx Hx. destruct (decide (a = x)) as [->|Hne].
    + rewrite list_lookup_insert_eq by (by eapply lookup_lt_Some).
      exists (g h). split; [done|]. rewrite Hg. congruence.
    + rewrite list_lookup_insert_ne by done. eauto.
  - intros x hx' Hx Hn. destruct (decide (a = x)) as [->|Hne]; [congruence|].
    rewrite list_lookup_insert_ne in Hx by done. congruence.
Qed.

Lemma AllocPage_dirty_kept (fresh : PgHdr) : keeps (dirty_kept fresh) (AllocPage fresh).
Proof.
  intros c c' p H. unfold AllocPage in H. rewrite bind_run in H. unfold get at 1 in H.
  destruct (pFree c) as [f|] eqn:Hf.
  - assert (Hk : keeps (dirty_kept fresh)
              (h ← load (Some f); _ ← modify (set_pFree (pNext h));
               _ ← store (Some f) (set_pNext None); mret (Some f))).
    { repeat first
        [ apply keeps_store_dirty; by intros []
        | apply keeps_load; apply _
        | apply keeps_modify; intros ?; by apply dirty_kept_same
        | apply keeps_ret; apply _
        | apply keeps_bind; [apply _ | | intros ?] ]. }
    exact (Hk _ _ _ H).
  - rewrite bind_run in H. unfold modify at 1 in H. injection H as <- _.
    split; [done|]. split; [done|]. simpl. split.
    + intros x hx Hx. exists hx. split; [|done]. by apply lookup_app_l_Some.
    + intros x hx' Hx Hn. apply lookup_ge_None in Hn.
      rewrite lookup_app_r in Hx by done.
      destruct (x - length (mem c))%nat; simpl in Hx; [by injection Hx as <-|done].
Qed.

Ltac keeps_dirty :=
  repeat first
    [ apply AllocPage_dirty_kept
    | apply keeps_store_dirty; by intros []
    | apply keeps_load; apply _
    | apply keeps_modify; intros ?; by apply dirty_kept_same
    | apply keeps_ret; apply _
    | apply keeps_get; apply _
    | apply keeps_lift; apply _
    | apply keeps_go_rem; apply _
    | apply keeps_panic
    | apply keeps_out_of_fuel
    | apply keeps_bind; [apply _ | | intros ?]
    | case_bool_decide
    | case_match ].

Lemma FetchPage_dirty_kept (fuel : nat) (fresh : PgHdr) (k : Z) :
  keeps (dirty_kept fresh) (FetchPage fuel fresh k).
Proof.
  assert (Hwalk : forall fuel p, keeps (dirty_kept fresh) (hash_walk fuel p k)).
  { clear fuel. induction fuel as [|fuel IH]; intros p; simpl; destruct p; keeps_dirty;
      apply IH. }
  assert (Hchain : forall fuel nNew apNew p,
            keeps (dirty_kept fresh) (rehash_chain fuel nNew apNew p)).
  { clear fuel Hwalk. induction fuel as [|fuel IH]; intros nNew apNew p; simpl; destruct p;
      keeps_dirty; apply IH. }
  assert (Hbuckets : forall n i nNew apNew,
            keeps (dirty_kept fresh) (rehash_buckets fuel n i nNew apNew)).
  { induction n as [|n IH]; intros i nNew apNew; simpl; keeps_dirty;
      [apply Hchain | apply IH]. }
  assert (Hunlink : forall fuel s q, keeps (dirty_kept fresh) (unlink_walk fuel s q)).
  { clear. induction fuel as [|fuel IH]; intros s q; simpl; unfold slot_get; keeps_dirty;
      apply IH. }
  unfold FetchPage, hash_find, ResizeHash, FetchPage_obtain, FetchPage_install,
    RemoveFromHash, FreePage, slot_get, slot_set.
  keeps_dirty; first [apply Hwalk | apply Hbuckets | apply Hunlink].
Qed.

Section FetchDirty.
Context {U : Undeclared}.

Lemma DirtyInv_kept (fresh : PgHdr) (c c' : PCache) (L : list nat) :
  ~ is_dirty fresh -> pDirtyPrev fresh = None ->
  dirty_kept fresh c c' -> DirtyInv c L -> DirtyInv c' L.
Proof.
  intros Hfd Hfp (Hd & Ht & Hold & Hnew) [Hnd (Hhead & Htail & Hlinks) Hiff Hnc Hoff].
  assert (Hcase : forall x hx', mem c' !! x = Some hx' ->
            (exists hx, mem c !! x = Some hx /\ dirty_part hx' = dirty_part hx)
            \/ (mem c !! x = None /\ dirty_part hx' = dirty_part fresh)).
  { intros x hx' Hx. destruct (mem c !! x) as [hx|] eqn:E.
    - left. destruct (Hold x hx E) as (h & Hh & Eh). rewrite Hx in Hh. injection Hh as <-. eauto.
    - right. split; [done|]. by apply (Hnew x). }
  assert (HinL : forall x, x ∈ L -> is_Some (mem c !! x)).
  { intros x Hx. apply list_elem_of_lookup in Hx as [i Hi].
    destruct (Hlinks i x Hi) as (h & -> & _). eauto. }
  split.
  - done.
  - split; [congruence|]. split; [congruence|]. intros i a Hi.
    destruct (Hlinks i a Hi) as (h & Hh & Hn & Hp).
    destruct (Hold a h Hh) as (h' & Hh' & [= _ En Ep]). exists h'. split; [done|].
    split; congruence.
  - intros a h' Ha. unfold is_dirty.
    destruct (Hcase a h' Ha) as [(h & Hh & [= Ef _ _])|(Hn & [= Ef _ _])]; rewrite Ef.
    + apply (Hiff a h Hh).
    + split; [|done]. intros HaL. destruct (HinL a HaL) as [h Hh]. congruence.
  - intros a h' Ha. unfold is_clean, is_dirty.
    destruct (Hcase a h' Ha) as [(h & Hh & [= Ef _ _])|(Hn & [= Ef _ _])]; rewrite Ef.
    + apply (Hnc a h Hh).
    + intros _. exact Hfd.
  - intros a h' Ha HaL.
    destruct (Hcase a h' Ha) as [(h & Hh & [= _ _ Ep])|(Hn & [= _ _ Ep])]; rewrite Ep.
    + by apply (Hoff a h Hh).
    + done.
Qed.

(** X25.  A fetch never touches the dirty list.  Whenever [FetchPage]
    returns, on a hit, after allocating or after recycling, [pDirty] and
    [pDirtyTail] are what they were, every entry has the flags and the
    dirty links it had, and an entry that is new to the arena has those
    of the fresh block.  So, when the fresh block is not flagged DIRTY
    and has no [pDirtyPrev], the dirty-list invariant holds after the
    fetch with the same list; an entry that was recycled while dirty is
    still on it, under its new page number. *)
Theorem FetchPage_keeps_dirty_list (fuel : nat) (fresh : PgHdr) (k : Z) (c c' : PCache)
    (p : pgptr) (L : list nat) :
  FetchPage fuel fresh k c = (c', Ok p) ->
  dirty_kept fresh c c'
  /\ (~ is_dirty fresh -> pDirtyPrev fresh = None -> DirtyInv c L -> DirtyInv c' L).
Proof.
  intros H. pose proof (FetchPage_dirty_kept fuel fresh k c c' p H) as Hk.
  split; [done|]. intros Hfd Hfp. by apply (DirtyInv_kept fresh c).
Qed.

End FetchDirty.

Lemma dirty_calls_leave_table_witness :
  hash_side (fst (@MakeDirty sqlite_flags (Some 1%nat) dirty_cache)) = hash_side dirty_cache
  /\ forall B, HashInv dirty_cache B ->
       HashInv (fst (@MakeDirty sqlite_flags (Some 1%nat) dirty_cache)) B.
Proof.
  apply (proj1 (proj2 (@dirty_calls_leave_table sqlite_flags dirty_cache
                         (fst (@MakeDirty sqlite_flags (Some 1%nat) dirty_cache)) tt))
           (Some 1%nat)).
  vm_compute. reflexivity.
Defined.

Lemma hash_cache_dirty_inv : @DirtyInv sqlite_flags hash_cache [2%nat].
Proof.
  split.
  - repeat (apply NoDup_cons; split; [distinct|]). apply NoDup_nil_2.
  - split; [reflexivity|]. split; [reflexivity|].
    intros [|i] a Ha; [|done]; injection Ha as <-;
      eexists; (split; [reflexivity|]); split; reflexivity.
  - intros [|[|[|a]]] h Hh; [..|done]; injection Hh as <-; unfold is_dirty; simpl.
    + split; [|done]. intros [?|?%elem_of_nil]%elem_of_cons; done.
    + split; [|done]. intros [?|?%elem_of_nil]%elem_of_cons; done.
    + split; [done|]. intros _. left.
  - intros [|[|[|a]]] h Hh; [..|done]; injection Hh as <-; unfold is_clean, is_dirty; simpl;
      intros Hc Hd; first [by apply Hc | by apply Hd].
  - intros [|[|[|a]]] h Hh Hout; [..|done]; injection Hh as <-; simpl; [done..|].
    exfalso. apply Hout. left.
Qed.

Lemma FetchPage_keeps_dirty_list_witness :
  dirty_kept zeroed hash_cache (fst (FetchPage 4 zeroed 5 hash_cache))
  /\ @DirtyInv sqlite_flags (fst (FetchPage 4 zeroed 5 hash_cache)) [2%nat].
Proof.
  destruct (@FetchPage_keeps_dirty_list sqlite_flags 4 zeroed 5 hash_cache
              (fst (FetchPage 4 zeroed 5 hash_cache)) (Some 2%nat) [2%nat])
    as [Hkept Hinv].
  - vm_compute. reflexivity.
  - split; [exact Hkept|]. apply Hinv.
    + unfold is_dirty. simpl. intros E. by apply E.
    + reflexivity.
    + exact hash_cache_dirty_inv.
Defined.

End PCacheProofs.
